(** * CodexLens hybrid retrieval and cascade ranking engine

    A shallow embedding of the ranking-relevant parts of
    [codexlens/search/chain_search.py] (cascade entry point, binary
    cascade and its fallbacks, hybrid cascade, result merging, descendant
    collection, extension filter, symbol search),
    [codexlens/search/hybrid_search.py] (cosine distance to score, lookup
    of the centralized index in the ancestors),
    [codexlens/semantic/reranker/api_reranker.py] (the HTTP request loop,
    token-aware batching, score extraction), [codexlens/config.py]
    (workspace root), [codexlens/watcher] (event queue, index history)
    and of the fusion kernel the specification describes, together with
    the properties stated about them.

    Conventions.  Python [int] is [Z]; Python [float] restricted to finite
    values is [Q] (comparisons of finite floats are exact, so [Qle]/[Qlt]
    decide them faithfully) and [PyFloat.t] where NaN and the infinities
    matter; [str] is [string], or a list of code points where characters
    are counted; [Optional[T]] is [option T]; a [dict] whose iteration
    order matters is an association list in insertion order; a call into
    a collaborator that is not part of the engine is an oracle field of a
    record, with [Exc] for a raised exception. *)

From Stdlib Require Import ZArith QArith Qminmax List String Ascii Bool Lia.
From stdpp Require Import base gmap sets list strings sorting.

Import ListNotations.
#[local] Set Warnings "-clear-no-such-hyp".
Local Open Scope string_scope.
Local Open Scope Z_scope.

(** ** Python primitives shared by the modules below *)

Module Py.

(** [max(a, b)] on floats: the first argument wins unless the second is
    strictly greater. *)
Definition max (a b : Q) : Q := if Qle_bool b a then a else b.

(** [min(a, b)] on floats: the first argument wins unless the second is
    strictly smaller. *)
Definition min (a b : Q) : Q := if Qle_bool a b then a else b.

(** [x or y] on ints: [x] when truthy (non-zero), else [y]. *)
Definition or_int (x y : Z) : Z := if x =? 0 then y else x.

(** Index normalisation of [l[start:stop]] for a list of length [len]. *)
Definition clamp_index (len i : Z) : Z :=
  if i <? 0 then Z.max (len + i) 0 else Z.min i len.

(** [l[start:stop]] with Python's treatment of negative and
    out-of-range bounds. *)
Definition slice {A : Type} (l : list A) (start stop : Z) : list A :=
  let n := Z.of_nat (length l) in
  let s := clamp_index n start in
  let e := clamp_index n stop in
  firstn (Z.to_nat (e - s)) (skipn (Z.to_nat s) l).

(** [s[:n]] on strings, for [n >= 0]. *)
Definition str_prefix (n : nat) (s : string) : string := String.substring 0 n s.

(** A [dict] in insertion order: assigning to an existing key keeps the
    key's position and replaces its value; a new key goes to the end. *)
Section Dict.
Context {K V : Type} (eqb : K -> K -> bool).

Fixpoint dict_get (d : list (K * V)) (k : K) : option V :=
  match d with
  | [] => None
  | (k', v) :: d' => if eqb k k' then Some v else dict_get d' k
  end.

Fixpoint dict_set (d : list (K * V)) (k : K) (v : V) : list (K * V) :=
  match d with
  | [] => [(k, v)]
  | (k', v') :: d' =>
      if eqb k k' then (k', v) :: d' else (k', v') :: dict_set d' k v
  end.

End Dict.

Lemma max_ge_l (a b : Q) : (a <= max a b)%Q.
Proof.
  unfold max. destruct (Qle_bool b a) eqn:E.
  - apply Qle_refl.
  - destruct (Qlt_le_dec a b) as [H|H].
    + now apply Qlt_le_weak.
    + apply Qle_bool_iff in H. congruence.
Qed.

Lemma max_cases (a b : Q) :
  (max a b = a /\ (b <= a)%Q) \/ (max a b = b /\ (a < b)%Q).
Proof.
  unfold max. destruct (Qle_bool b a) eqn:E.
  - left. split; [reflexivity|]. now apply Qle_bool_iff.
  - right. split; [reflexivity|].
    destruct (Qlt_le_dec a b) as [H|H]; [exact H|].
    apply Qle_bool_iff in H. congruence.
Qed.

Lemma min_cases (a b : Q) :
  (min a b = a /\ (a <= b)%Q) \/ (min a b = b /\ (b < a)%Q).
Proof.
  unfold min. destruct (Qle_bool a b) eqn:E.
  - left. split; [reflexivity|]. now apply Qle_bool_iff.
  - right. split; [reflexivity|].
    destruct (Qlt_le_dec b a) as [H|H]; [exact H|].
    apply Qle_bool_iff in H. congruence.
Qed.

Lemma slice_nonneg {A : Type} (l : list A) (start stop : Z) :
  0 <= start -> start <= stop ->
  slice l start stop =
  firstn (Z.to_nat (stop - start)) (skipn (Z.to_nat start) l).
Proof.
  intros Hs Hle. unfold slice, clamp_index.
  destruct (Z.ltb_spec start 0); [lia|].
  destruct (Z.ltb_spec stop 0); [lia|].
  set (n := Z.of_nat (length l)).
  destruct (Z.le_gt_cases n start) as [Hbig|Hsmall].
  - rewrite (Z.min_r start n) by lia.
    rewrite !skipn_all2 by lia. now rewrite !firstn_nil.
  - rewrite (Z.min_l start n) by lia.
    destruct (Z.le_gt_cases stop n) as [Hin|Hout].
    + now rewrite (Z.min_l stop n) by lia.
    + rewrite (Z.min_r stop n) by lia.
      rewrite !firstn_all2; [reflexivity| |]; rewrite length_skipn; lia.
Qed.

Lemma slice_length_le {A : Type} (l : list A) (start len : Z) :
  0 <= len -> Z.of_nat (length (slice l start (start + len))) <= len.
Proof.
  intros Hlen. unfold slice, clamp_index.
  set (n := Z.of_nat (length l)).
  rewrite length_firstn.
  destruct (Z.ltb_spec start 0); destruct (Z.ltb_spec (start + len) 0); lia.
Qed.


Lemma slice_decompose {A : Type} (l : list A) (start stop : Z) :
  exists pre post, l = (pre ++ slice l start stop ++ post)%list.
Proof.
  unfold slice.
  set (s := Z.to_nat (clamp_index (Z.of_nat (length l)) start)).
  set (n := Z.to_nat (_ - _)).
  exists (firstn s l), (skipn n (skipn s l)).
  now rewrite (firstn_skipn n (skipn s l)), (firstn_skipn s l).
Qed.

Lemma slice_elem_of {A : Type} (l : list A) (start stop : Z) (x : A) :
  x ∈ slice l start stop -> x ∈ l.
Proof.
  destruct (slice_decompose l start stop) as (pre & post & E).
  intros H. rewrite E. set_solver.
Qed.

Section DictFacts.
Context {K V : Type} (eqb : K -> K -> bool).
Hypothesis eqb_eq : forall a b, eqb a b = true <-> a = b.

Lemma eqb_neq (a b : K) : eqb a b = false <-> a <> b.
Proof.
  split.
  - intros E H. apply eqb_eq in H. congruence.
  - intros H. destruct (eqb a b) eqn:E; [|reflexivity].
    apply eqb_eq in E. contradiction.
Qed.

Lemma eqb_refl (a : K) : eqb a a = true.
Proof. now apply eqb_eq. Qed.

Lemma dict_get_elem_of (d : list (K * V)) (k : K) (v : V) :
  dict_get eqb d k = Some v -> (k, v) ∈ d.
Proof.
  induction d as [|[k' v'] d IH]; cbn [dict_get]; [discriminate|].
  destruct (eqb k k') eqn:E.
  - apply eqb_eq in E. subst. intros [= ->]. left.
  - intros H. right. now apply IH.
Qed.

Lemma dict_get_None (d : list (K * V)) (k : K) :
  dict_get eqb d k = None -> k ∉ fst <$> d.
Proof.
  induction d as [|[k' v'] d IH]; cbn [dict_get].
  - intros _. rewrite fmap_nil. apply not_elem_of_nil.
  - destruct (eqb k k') eqn:E; [discriminate|].
    apply eqb_neq in E. intros H. rewrite fmap_cons, elem_of_cons.
    cbn [fst]. intros [H'|H']; [congruence|]. now apply IH.
Qed.

Lemma elem_of_dict_get (d : list (K * V)) (k : K) (v : V) :
  NoDup (fst <$> d) -> (k, v) ∈ d -> dict_get eqb d k = Some v.
Proof.
  induction d as [|[k' v'] d IH]; cbn [dict_get].
  - intros _ H. now apply elem_of_nil in H.
  - rewrite fmap_cons, NoDup_cons, elem_of_cons. cbn [fst].
    intros [Hnotin Hnd] [H|H].
    + injection H as -> ->. now rewrite eqb_refl.
    + destruct (eqb k k') eqn:E.
      * apply eqb_eq in E. subst. exfalso. apply Hnotin.
        apply list_elem_of_fmap. now exists (k', v).
      * now apply IH.
Qed.

Lemma dict_set_keys (d : list (K * V)) (k : K) (v : V) (k' : K) :
  k' ∈ fst <$> dict_set eqb d k v <-> k' = k \/ k' ∈ fst <$> d.
Proof.
  induction d as [|[k0 v0] d IH]; cbn [dict_set].
  - rewrite fmap_cons, fmap_nil, list_elem_of_singleton, elem_of_nil.
    cbn [fst]. tauto.
  - destruct (eqb k k0) eqn:E; rewrite !fmap_cons; cbn [fst].
    + apply eqb_eq in E. subst. rewrite elem_of_cons. tauto.
    + rewrite !elem_of_cons, IH. tauto.
Qed.

Lemma dict_set_NoDup (d : list (K * V)) (k : K) (v : V) :
  NoDup (fst <$> d) -> NoDup (fst <$> dict_set eqb d k v).
Proof.
  induction d as [|[k0 v0] d IH]; cbn [dict_set].
  - intros _. rewrite fmap_cons, fmap_nil. apply NoDup_singleton.
  - rewrite fmap_cons, NoDup_cons. cbn [fst]. intros [Hnotin Hnd].
    destruct (eqb k k0) eqn:E; rewrite fmap_cons, NoDup_cons; cbn [fst].
    + now split.
    + split; [|now apply IH].
      rewrite dict_set_keys. apply eqb_neq in E.
      intros [H|H]; [congruence|contradiction].
Qed.

Lemma dict_set_elem_of (d : list (K * V)) (k : K) (v : V) (k' : K) (v' : V) :
  NoDup (fst <$> d) ->
  (k', v') ∈ dict_set eqb d k v ->
  (k' = k /\ v' = v) \/ (k' <> k /\ (k', v') ∈ d).
Proof.
  induction d as [|[k0 v0] d IH]; cbn [dict_set].
  - intros _ H. apply list_elem_of_singleton in H. injection H as -> ->.
    now left.
  - rewrite fmap_cons, NoDup_cons. cbn [fst]. intros [Hnotin Hnd].
    destruct (eqb k k0) eqn:E; rewrite !elem_of_cons.
    + apply eqb_eq in E. subst k0. intros [[= -> ->]|H]; [now left|].
      right. split; [|now right].
      intros ->. apply Hnotin. apply list_elem_of_fmap. now exists (k, v').
    + intros [[= -> ->]|H].
      * right. apply eqb_neq in E. split; [congruence|now left].
      * destruct (IH Hnd H) as [?|[? ?]]; [now left|].
        right. split; [assumption|now right].
Qed.

Lemma dict_set_elem_of_same (d : list (K * V)) (k : K) (v : V) :
  (k, v) ∈ dict_set eqb d k v.
Proof.
  induction d as [|[k0 v0] d IH]; cbn [dict_set]; [left|].
  destruct (eqb k k0) eqn:E.
  - apply eqb_eq in E. subst. left.
  - now right.
Qed.

Lemma dict_set_elem_of_other (d : list (K * V)) (k : K) (v : V)
    (k' : K) (v' : V) :
  k' <> k -> (k', v') ∈ d -> (k', v') ∈ dict_set eqb d k v.
Proof.
  intros Hne. induction d as [|[k0 v0] d IH]; cbn [dict_set].
  - intros H. now apply elem_of_nil in H.
  - rewrite elem_of_cons. intros [[= <- <-]|H].
    + destruct (eqb k k') eqn:E.
      * apply eqb_eq in E. congruence.
      * left.
    + destruct (eqb k k0) eqn:E; right; [assumption|now apply IH].
Qed.

Lemma dict_get_set (d : list (K * V)) (k : K) (v : V) (k' : K) :
  dict_get eqb (dict_set eqb d k v) k' =
  if eqb k' k then Some v else dict_get eqb d k'.
Proof.
  induction d as [|[k0 v0] d IH]; cbn [dict_set dict_get].
  - reflexivity.
  - destruct (eqb k k0) eqn:E; cbn [dict_get].
    + apply eqb_eq in E. subst k0. now destruct (eqb k' k).
    + destruct (eqb k' k0) eqn:E0.
      * apply eqb_eq in E0. subst k0.
        destruct (eqb k' k) eqn:E1; [|reflexivity].
        apply eqb_eq in E1. subst k'. rewrite eqb_refl in E. discriminate.
      * exact IH.
Qed.

End DictFacts.

End Py.

(** ** Python floats with their non-finite values *)

Module PyFloat.

(** A [float]: a finite value, an infinity, or NaN. *)
Inductive t :=
| Finite (q : Q)
| PosInf
| NegInf
| NaN.

(** [a + b]. *)
Definition add (a b : t) : t :=
  match a, b with
  | NaN, _ | _, NaN => NaN
  | PosInf, NegInf | NegInf, PosInf => NaN
  | PosInf, _ | _, PosInf => PosInf
  | NegInf, _ | _, NegInf => NegInf
  | Finite x, Finite y => Finite (x + y)
  end.

(** [a / d] for a finite divisor [d > 0]. *)
Definition div_pos (a : t) (d : Q) : t :=
  match a with
  | Finite x => Finite (x / d)
  | other => other
  end.

(** [math.isfinite(a)]. *)
Definition is_finite (a : t) : bool :=
  match a with Finite _ => true | _ => false end.

(** [a > 0]; false for NaN. *)
Definition gt0 (a : t) : bool :=
  match a with
  | Finite x => negb (Qle_bool x 0)
  | PosInf => true
  | NegInf | NaN => false
  end.

(** [sum(values)], starting from the int [0]. *)
Definition sum (l : list t) : t := fold_left add l (Finite 0).

(** [a == 0]. *)
Definition is_zero (a : t) : bool :=
  match a with Finite x => Qeq_bool x 0 | _ => false end.

(** [a <= b]; false when either side is NaN. *)
Definition leb (a b : t) : bool :=
  match a, b with
  | NaN, _ | _, NaN => false
  | NegInf, _ | _, PosInf => true
  | Finite x, Finite y => Qle_bool x y
  | _, _ => false
  end.

(** The same float: equal finite values, or the same non-finite one. *)
Definition equiv (a b : t) : Prop :=
  match a, b with
  | Finite x, Finite y => (x == y)%Q
  | PosInf, PosInf | NegInf, NegInf | NaN, NaN => True
  | _, _ => False
  end.

End PyFloat.

(** ** Cosine distance to score *)

Module CosineScore.

(** [chain_search.py], [dense_rerank_cascade_search]:
    [score = max(0.0, 1.0 - distance)]. *)
Definition dense_rerank_score (distance : Q) : Q :=
  Py.max 0 (1 - distance).

(** [hybrid_search.py], [_search_vector_centralized]:
    [scores = [1.0 - d for d in distances]]. *)
Definition centralized_scores (distances : list Q) : list Q :=
  List.map (fun d => 1 - d)%Q distances.

Lemma dense_rerank_score_nonneg (d : Q) : (0 <= dense_rerank_score d)%Q.
Proof. apply Py.max_ge_l. Qed.

Lemma dense_rerank_score_le_1 (d : Q) :
  (0 <= d)%Q -> (dense_rerank_score d <= 1)%Q.
Proof.
  intros Hd. unfold dense_rerank_score.
  destruct (Py.max_cases 0 (1 - d)) as [[-> _]|[-> _]].
  - discriminate.
  - unfold Qle, Qminus, Qplus, Qopp in *. simpl in *. lia.
Qed.

Lemma dense_rerank_score_clamped (d : Q) :
  (1 < d)%Q -> dense_rerank_score d = 0%Q.
Proof.
  intros Hd. unfold dense_rerank_score.
  destruct (Py.max_cases 0 (1 - d)) as [[-> _]|[_ H]]; [reflexivity|].
  exfalso. unfold Qlt, Qminus, Qplus, Qopp in *. simpl in *. lia.
Qed.

(** C1 (evaluation at the failing input).  The centralized vector path of
    the hybrid engine converts a cosine distance of 3/2 to the score -1/2:
    it is negative and differs from [max(0, 1 - d)], the value the dense
    rerank cascade computes for the same distance. *)
Theorem centralized_score_negative :
  exists s, centralized_scores [3 # 2]%Q = [s] /\
            (s < 0)%Q /\
            dense_rerank_score (3 # 2) = 0%Q /\
            ~ (s == dense_rerank_score (3 # 2))%Q.
Proof.
  exists (1 - (3 # 2))%Q. repeat split.
  intros H. vm_compute in H. discriminate.
Qed.

End CosineScore.

(** ** Entities exchanged by the engines *)

Module Entities.

Definition Path := string.

(** [codexlens.entities.SearchResult], restricted to the fields the chain
    engine sets when it builds results itself. *)
Record SearchResult := {
  path : string;
  score : Q;
  excerpt : string;
  content : option string
}.

(** [SearchOptions] dataclass of [chain_search.py]. *)
Record SearchOptions := {
  depth : Z;
  max_workers : Z;
  limit_per_dir : Z;
  total_limit : Z;
  offset : Z;
  include_symbols : bool;
  files_only : bool;
  include_semantic : bool;
  code_only : bool;
  exclude_extensions : option (list string);
  hybrid_mode : bool;
  enable_fuzzy : bool;
  enable_vector : bool;
  pure_vector : bool;
  enable_splade : bool;
  enable_cascade : bool;
  hybrid_weights : option (list (string * Q));
  group_results : bool;
  grouping_threshold : Q
}.

(** [SearchOptions()] with the dataclass defaults. *)
Definition default_options : SearchOptions := {|
  depth := -1; max_workers := 8; limit_per_dir := 10; total_limit := 100;
  offset := 0; include_symbols := false; files_only := false;
  include_semantic := false; code_only := false;
  exclude_extensions := None; hybrid_mode := false; enable_fuzzy := true;
  enable_vector := false; pure_vector := false; enable_splade := false;
  enable_cascade := false; hybrid_weights := None; group_results := false;
  grouping_threshold := 1 # 100
|}.

(** [SearchStats]; the wall-clock field [time_ms] is left out. *)
Record SearchStats := {
  dirs_searched : Z;
  files_matched : Z;
  errors : list string
}.

Definition new_stats : SearchStats :=
  {| dirs_searched := 0; files_matched := 0; errors := [] |}.

(** [ChainSearchResult]; [symbols] is always the empty list on the cascade
    paths and is left out together with [related_results]. *)
Record ChainSearchResult := {
  query : string;
  results : list SearchResult;
  stats : SearchStats
}.

(** The attributes of the engine's [Config] object read by the cascade
    code.  A field is [None] when [hasattr] fails (or, for
    [cascade_strategy], when [getattr(..., None)] yields no string). *)
Record Config := {
  cascade_strategy : option string;
  cascade_coarse_k : option Z;
  cascade_fine_k : option Z;
  embedding_use_gpu : option bool
}.

End Entities.

(** ** The chain engine: cascade entry point, binary cascade, merge *)

Module ChainSearch.
Import Entities.

(** The four methods [cascade_search] can return through. *)
Inductive Callee :=
| to_binary_cascade_search
| to_binary_rerank_cascade_search
| to_dense_rerank_cascade_search
| to_hybrid_cascade_search.

(** A call [self.<callee>(query, source_path, k, coarse_k, options)]. *)
Record CascadeCall := {
  callee : Callee;
  call_query : string;
  call_source_path : Path;
  call_k : Z;
  call_coarse_k : Z;
  call_options : option SearchOptions
}.

Definition valid_strategies : list string :=
  ["binary"; "hybrid"; "binary_rerank"; "dense_rerank"].

(** [x in valid_strategies], where [None] is Python's [None]. *)
Definition in_valid_strategies (x : option string) : bool :=
  match x with
  | Some s => existsb (String.eqb s) valid_strategies
  | None => false
  end.

(** The first half of [cascade_search]: the value of
    [effective_strategy] when the dispatch starts. *)
Definition effective_strategy (config : option Config)
    (strategy : option string) : string :=
  let effective := strategy in
  let effective :=
    match effective with
    | None =>
        match config with
        | Some c =>
            let config_strategy := cascade_strategy c in
            if in_valid_strategies config_strategy
            then config_strategy else effective
        | None => effective
        end
    | Some _ => effective
    end in
  match effective with
  | Some s => if in_valid_strategies effective then s else "binary"
  | None => "binary"
  end.

(** The [if]/[elif] chain that ends [cascade_search]. *)
Definition dispatch (effective : string) : Callee :=
  if String.eqb effective "binary" then to_binary_cascade_search
  else if String.eqb effective "binary_rerank"
       then to_binary_rerank_cascade_search
  else if String.eqb effective "dense_rerank"
       then to_dense_rerank_cascade_search
  else to_hybrid_cascade_search.

Definition cascade_search (config : option Config) (query : string)
    (source_path : Path) (k coarse_k : Z) (options : option SearchOptions)
    (strategy : option string) : CascadeCall :=
  {| callee := dispatch (effective_strategy config strategy);
     call_query := query; call_source_path := source_path;
     call_k := k; call_coarse_k := coarse_k; call_options := options |}.

(** The method each strategy name stands for. *)
Definition method_of (s : string) : option Callee :=
  if String.eqb s "binary" then Some to_binary_cascade_search
  else if String.eqb s "binary_rerank"
       then Some to_binary_rerank_cascade_search
  else if String.eqb s "dense_rerank"
       then Some to_dense_rerank_cascade_search
  else if String.eqb s "hybrid" then Some to_hybrid_cascade_search
  else None.

(** [config.py], [Config.load_settings], the "cascade" block: the value
    found under ["strategy"] replaces the configured strategy only when it
    is one of the four names ([None]: the key is absent or holds no
    string). *)
Definition load_cascade_strategy (current : string)
    (settings_strategy : option string) : string :=
  match settings_strategy with
  | Some strategy =>
      if in_valid_strategies (Some strategy) then strategy else current
  | None => current
  end.

(** The block "Use config defaults if available" that opens each of the
    four cascade methods; returns the rebound [(k, coarse_k)]. *)
Definition config_defaults (config : option Config) (k coarse_k : Z)
    : Z * Z :=
  match config with
  | None => (k, coarse_k)
  | Some c =>
      let coarse_k :=
        match cascade_coarse_k c with
        | Some v => Py.or_int coarse_k v
        | None => coarse_k
        end in
      let k :=
        match cascade_fine_k c with
        | Some v => Py.or_int k v
        | None => k
        end in
      (k, coarse_k)
  end.

(** *** Collaborators of the cascade methods

    Everything the binary cascade obtains from outside the engine is read
    from a record of oracles; [Exc] stands for a raised exception. *)

Inductive Try (A : Type) :=
| Ok (a : A)
| Exc (msg : string).
Arguments Ok {A} a.
Arguments Exc {A} msg.

(** A candidate [(chunk_id, distance, index_path)]. *)
Definition Candidate := (Z * Z * Path)%type.

(** What the centralized [BinarySearcher] branch does: no searcher is
    available; or an exception leaves the [try] after the hits [appended]
    were added to [all_candidates] (none when the embedder or the search
    itself raises), which the [except] does not take back; or the loop
    over the hits completes and [used_centralized] is set. *)
Inductive CentralOutcome :=
| CentralUnavailable
| CentralFailed (appended : list (Z * Z))
| CentralHits (hits : list (Z * Z)).

(** What one iteration of the per-directory loop does: the index is
    missing or empty; or an exception leaves the [try] after the pairs
    [appended] were added to [all_candidates] (none when loading or
    searching the index raises); or the loop over [zip(ids, distances)]
    completes. *)
Inductive LegacyOutcome :=
| LegacySkip
| LegacyFailed (appended : list (Z * Z)) (exc : string)
| LegacyHits (ids distances : list Z).

(** A text column of a chunk row: key absent, [None], or a string. *)
Inductive Field :=
| Missing
| Null
| Str (s : string).

Record ChunkRow := {
  row_id : option Z;
  row_file_path : Field;
  row_content : Field
}.

Record Collaborators := {
  NUMPY_AVAILABLE : bool;
  find_start_index : Path -> Try (option Path);
  collect_index_paths : Path -> Z -> list Path;
  embedding_imports : bool;
  embed_packed : bool -> string -> Try (list Z);
  parent : Path -> Path;
  centralized_search : Path -> string -> Z -> CentralOutcome;
  legacy_search : Path -> list Z -> Z -> LegacyOutcome;
  dense_embed : bool -> string -> Try (list Q);
  meta_db_exists : Path -> bool;
  meta_get_chunks : Path -> list Z -> Try (list ChunkRow);
  sqlite_get_chunks : Path -> list Z -> Try (list ChunkRow);
  (** field validation run by [SearchResult(...)]; a rejected value raises *)
  validate : SearchResult -> bool;
  (** [_search_parallel], which absorbs the failures of its searches *)
  search_parallel :
    list Path -> string -> SearchOptions -> list SearchResult * SearchStats;
  (** whether the [try] block of [_cross_encoder_rerank] ends with a
      reranker: its imports succeed, the backend is available and
      [get_reranker] returns *)
  reranker_created : bool;
  (** [codexlens.search.ranking.cross_encoder_rerank] with the reranker *)
  ranking_cross_encoder_rerank :
    string -> list SearchResult -> Z -> Try (list SearchResult);
  (** [codexlens.search.ranking.group_similar_results] *)
  group_similar_results :
    list SearchResult -> Q -> Try (list SearchResult)
}.

(** The state with which the binary cascade enters its dense stage. *)
Record DenseStageInput := {
  ds_query_dense : list Q;
  ds_coarse_candidates : list Candidate;
  ds_used_centralized : bool;
  ds_k : Z;
  ds_options : SearchOptions;
  ds_stats : SearchStats
}.

Inductive Outcome :=
| Returned (r : ChainSearchResult)
| FellBack (c : CascadeCall)
| DenseStage (i : DenseStageInput)
| Raised (exc : string).

Definition hybrid_call (query : string) (source_path : Path)
    (k coarse_k : Z) (options : option SearchOptions) : CascadeCall :=
  {| callee := to_hybrid_cascade_search;
     call_query := query; call_source_path := source_path;
     call_k := k; call_coarse_k := coarse_k; call_options := options |}.

Definition empty_result (query : string) (stats : SearchStats)
    : ChainSearchResult :=
  {| query := query; results := []; stats := stats |}.

Definition set_dirs_searched (stats : SearchStats) (n : Z) : SearchStats :=
  {| dirs_searched := n; files_matched := files_matched stats;
     errors := errors stats |}.

Definition set_files_matched (stats : SearchStats) (n : Z) : SearchStats :=
  {| dirs_searched := dirs_searched stats; files_matched := n;
     errors := errors stats |}.

Definition append_error (stats : SearchStats) (msg : string) : SearchStats :=
  {| dirs_searched := dirs_searched stats;
     files_matched := files_matched stats;
     errors := (errors stats ++ [msg])%list |}.

Definition set_errors (stats : SearchStats) (errs : list string)
    : SearchStats :=
  {| dirs_searched := dirs_searched stats;
     files_matched := files_matched stats;
     errors := errs |}.

(** *** The opening of the four cascade methods

    The same statements open [hybrid_cascade_search],
    [binary_cascade_search], [binary_rerank_cascade_search] and
    [dense_rerank_cascade_search]; only the hybrid one lacks the NumPy
    guard. *)

Inductive Prelude :=
| Finished (o : Outcome)
| Proceed (k coarse_k : Z) (options : SearchOptions)
          (start_index : Path) (index_paths : list Path)
          (stats : SearchStats).

Definition prelude (env : Collaborators) (numpy_guard : bool)
    (config : option Config) (query : string) (source_path : Path)
    (k coarse_k : Z) (options : option SearchOptions) : Prelude :=
  if numpy_guard && negb (NUMPY_AVAILABLE env)
  then Finished (FellBack (hybrid_call query source_path k coarse_k options))
  else
    let options := match options with Some o => o | None => default_options end in
    let stats := new_stats in
    let '(k, coarse_k) := config_defaults config k coarse_k in
    match find_start_index env source_path with
    | Exc e => Finished (Raised e)
    | Ok None => Finished (Returned (empty_result query stats))
    | Ok (Some start_index) =>
        let index_paths :=
          collect_index_paths env start_index (depth options) in
        let stats :=
          set_dirs_searched stats (Z.of_nat (length index_paths)) in
        match index_paths with
        | [] => Finished (Returned (empty_result query stats))
        | _ :: _ =>
            Proceed k coarse_k options start_index index_paths stats
        end
    end.

Definition prelude_of (m : Callee) (env : Collaborators) :=
  match m with
  | to_hybrid_cascade_search => prelude env false
  | _ => prelude env true
  end.

(** *** The stages of [binary_cascade_search] *)

(** [use_gpu = getattr(self._config, "embedding_use_gpu", True)]. *)
Definition use_gpu_of (config : option Config) : bool :=
  match config with
  | Some c => match embedding_use_gpu c with Some b => b | None => true end
  | None => true
  end.

(** One iteration of the per-directory loop of stage 1. *)
Definition legacy_step (env : Collaborators) (query_binary_packed : list Z)
    (coarse_k : Z) (acc : list Candidate * SearchStats) (index_path : Path)
    : list Candidate * SearchStats :=
  let '(all_candidates, stats) := acc in
  let at_index :=
    List.map (fun '(chunk_id, dist) => (chunk_id, dist, index_path)) in
  match legacy_search env index_path query_binary_packed coarse_k with
  | LegacySkip => (all_candidates, stats)
  | LegacyHits ids distances =>
      ((all_candidates ++ at_index (combine ids distances))%list, stats)
  | LegacyFailed appended exc =>
      ((all_candidates ++ at_index appended)%list,
       append_error stats
         ("Binary search failed for " ++ index_path ++ ": " ++ exc)%string)
  end.

(** Stage 1: the centralized searcher first, the per-directory indexes
    when [used_centralized] was not set; the per-directory loop goes on
    from the candidates a failed centralized search left behind.  Returns
    [(all_candidates, used_centralized, stats)]. *)
Definition stage1 (env : Collaborators) (query : string)
    (query_binary_packed : list Z) (index_paths : list Path)
    (coarse_k : Z) (stats : SearchStats)
    : list Candidate * bool * SearchStats :=
  let per_directory (all_candidates : list Candidate) :=
    let '(all_candidates, stats) :=
      fold_left (legacy_step env query_binary_packed coarse_k)
                index_paths (all_candidates, stats) in
    (all_candidates, false, stats) in
  match index_paths with
  | [] => per_directory []
  | first :: _ =>
      let index_root := parent env first in
      let at_root :=
        List.map (fun '(chunk_id, dist) => (chunk_id, dist, index_root)) in
      match centralized_search env index_root query coarse_k with
      | CentralUnavailable => per_directory []
      | CentralFailed appended => per_directory (at_root appended)
      | CentralHits hits => (at_root hits, true, stats)
      end
  end.

(** [all_candidates.sort(key=lambda x: x[1])]: stable, ascending. *)
Fixpoint insert_by_distance (c : Candidate) (l : list Candidate)
    : list Candidate :=
  match l with
  | [] => [c]
  | c' :: l' =>
      if snd (fst c') <=? snd (fst c)
      then c' :: insert_by_distance c l'
      else c :: c' :: l'
  end.

Definition sort_by_distance (l : list Candidate) : list Candidate :=
  fold_left (fun acc c => insert_by_distance c acc) l [].

(** [score = 1.0 - (distance / 256.0)]. *)
Definition hamming_score (distance : Z) : Q :=
  (1 - inject_Z distance / 256)%Q.

(** Grouping of candidates by index path, in first-seen order: the body
    of the loop, then the loop. *)
Definition group_step (d : list (Path * list (Z * Z))) (c : Candidate)
    : list (Path * list (Z * Z)) :=
  let '(chunk_id, distance, index_path) := c in
  let old := match Py.dict_get String.eqb d index_path with
             | Some l => l
             | None => []
             end in
  Py.dict_set String.eqb d index_path (old ++ [(chunk_id, distance)])%list.

Definition group_by_index (candidates : list Candidate)
    : list (Path * list (Z * Z)) :=
  fold_left group_step candidates [].

(** [{c["id"]: c for c in chunks_data}]; [None] when a row has no ["id"]
    key (the comprehension raises [KeyError]). *)
Fixpoint chunk_content_of (rows : list ChunkRow) (d : list (Z * ChunkRow))
    : option (list (Z * ChunkRow)) :=
  match rows with
  | [] => Some d
  | c :: rows' =>
      match row_id c with
      | Some i => chunk_content_of rows' (Py.dict_set Z.eqb d i c)
      | None => None
      end
  end.

(** The body of the inner loop for one candidate whose chunk was found;
    [None] when one of its statements raises: slicing a [None] content,
    or building a [SearchResult] from a [None] path or from values its
    validation rejects. *)
Definition result_of_chunk (env : Collaborators) (chunk_info : ChunkRow)
    (distance : Z) : option SearchResult :=
  let score := hamming_score distance in
  match row_content chunk_info with
  | Null => None
  | (Missing | Str _) as c =>
      let excerpt :=
        Py.str_prefix 500 (match c with Str s => s | _ => "" end) in
      match row_file_path chunk_info with
      | Null => None
      | (Missing | Str _) as p =>
          let r := {| path := match p with Str s => s | _ => "" end;
                      score := score; excerpt := excerpt;
                      content := None |} in
          if validate env r then Some r else None
      end
  end.

(** The inner loop over [chunk_tuples]; an exception leaves the loop and
    is absorbed by the [except] of the enclosing iteration, keeping what
    was appended before. *)
Fixpoint results_of_tuples (env : Collaborators)
    (chunk_content : list (Z * ChunkRow)) (chunk_tuples : list (Z * Z))
    : list SearchResult :=
  match chunk_tuples with
  | [] => []
  | (chunk_id, distance) :: rest =>
      match Py.dict_get Z.eqb chunk_content chunk_id with
      | None => results_of_tuples env chunk_content rest
      | Some chunk_info =>
          match result_of_chunk env chunk_info distance with
          | None => []
          | Some r => r :: results_of_tuples env chunk_content rest
          end
      end
  end.

(** The first half of an iteration over [candidates_by_index]: the
    dictionary [chunk_content], or [None] when the iteration ends before
    the inner loop (no metadata store, a retrieval that raises, a row
    without ["id"]). *)
Definition chunk_content_for (env : Collaborators) (use_centralized : bool)
    (index_path : Path) (chunk_ids : list Z) : option (list (Z * ChunkRow)) :=
  if use_centralized && negb (meta_db_exists env index_path) then None
  else
    let chunks_data :=
      if use_centralized
      then meta_get_chunks env index_path chunk_ids
      else sqlite_get_chunks env index_path chunk_ids in
    match chunks_data with
    | Exc _ => None
    | Ok rows => chunk_content_of rows []
    end.

(** One iteration of the loop over [candidates_by_index]. *)
Definition results_of_index (env : Collaborators) (use_centralized : bool)
    (index_path : Path) (chunk_tuples : list (Z * Z)) : list SearchResult :=
  let chunk_ids := List.map fst chunk_tuples in
  match chunk_content_for env use_centralized index_path chunk_ids with
  | None => []
  | Some chunk_content => results_of_tuples env chunk_content chunk_tuples
  end.

(** The path-keyed deduplication loop that several methods inline:
    a later result replaces the stored one only with a strictly higher
    score. *)
Definition dedupe_step (d : list (string * SearchResult)) (r : SearchResult)
    : list (string * SearchResult) :=
  match Py.dict_get String.eqb d (path r) with
  | None => Py.dict_set String.eqb d (path r) r
  | Some old =>
      if Qle_bool (score r) (score old) then d
      else Py.dict_set String.eqb d (path r) r
  end.

Definition dedupe_by_path (rs : list SearchResult)
    : list (string * SearchResult) :=
  fold_left dedupe_step rs [].

(** [sort(key=lambda r: r.score, reverse=True)]: stable, descending. *)
Fixpoint insert_by_score (r : SearchResult) (l : list SearchResult)
    : list SearchResult :=
  match l with
  | [] => [r]
  | r' :: l' =>
      if Qle_bool (score r) (score r')
      then r' :: insert_by_score r l'
      else r :: r' :: l'
  end.

Definition sort_by_score (l : list SearchResult) : list SearchResult :=
  fold_left (fun acc r => insert_by_score r acc) l [].

Definition build_results_from_candidates (env : Collaborators)
    (candidates : list Candidate) (stats : SearchStats) (query : string)
    (use_centralized : bool) : ChainSearchResult :=
  let candidates_by_index := group_by_index candidates in
  let results :=
    flat_map (fun '(index_path, chunk_tuples) =>
                results_of_index env use_centralized index_path chunk_tuples)
             candidates_by_index in
  let path_to_result := dedupe_by_path results in
  let final_results := sort_by_score (snd <$> path_to_result) in
  {| query := query; results := final_results;
     stats := set_files_matched stats (Z.of_nat (length final_results)) |}.

(** *** [_merge_and_rank] *)

Definition merge_and_rank (results : list SearchResult) (limit offset : Z)
    : list SearchResult :=
  let path_to_result := dedupe_by_path results in
  let unique_results := sort_by_score (snd <$> path_to_result) in
  Py.slice unique_results offset (offset + limit).

(** *** [hybrid_cascade_search] *)

(** [_cross_encoder_rerank]. *)
Definition cross_encoder_rerank (env : Collaborators) (query : string)
    (results : list SearchResult) (top_k : Z) : Try (list SearchResult) :=
  match results with
  | [] => Ok []
  | _ :: _ =>
      if reranker_created env
      then ranking_cross_encoder_rerank env query results top_k
      else Ok (Py.slice results 0 top_k)
  end.

(** The [SearchOptions] of the coarse retrieval, for [n_paths] index
    paths. *)
Definition coarse_options (options : SearchOptions) (coarse_k n_paths : Z)
    : SearchOptions :=
  {| depth := depth options;
     max_workers := 1;
     limit_per_dir := Z.max (coarse_k / n_paths) 20;
     total_limit := coarse_k;
     offset := offset default_options;
     include_symbols := include_symbols default_options;
     files_only := files_only default_options;
     include_semantic := include_semantic default_options;
     code_only := code_only default_options;
     exclude_extensions := exclude_extensions default_options;
     hybrid_mode := true;
     enable_fuzzy := enable_fuzzy options;
     enable_vector := true;
     pure_vector := false;
     enable_splade := enable_splade default_options;
     enable_cascade := enable_cascade default_options;
     hybrid_weights := hybrid_weights options;
     group_results := group_results default_options;
     grouping_threshold := grouping_threshold default_options |}.

(** The two stages of [hybrid_cascade_search], entered with the rebound
    limits and options, the collected index paths and the statistics. *)
Definition hybrid_stages (env : Collaborators) (query : string)
    (k coarse_k : Z) (options : SearchOptions) (index_paths : list Path)
    (stats : SearchStats) : Outcome :=
  let '(coarse_results, search_stats) :=
    search_parallel env index_paths query
      (coarse_options options coarse_k (Z.of_nat (length index_paths))) in
  let stats := set_errors stats (errors search_stats) in
  let coarse_merged := merge_and_rank coarse_results coarse_k 0 in
  match coarse_merged with
  | [] => Returned (empty_result query stats)
  | _ :: _ =>
      match cross_encoder_rerank env query coarse_merged k with
      | Exc exc => Raised exc
      | Ok final_results =>
          let grouped :=
            if group_results options
            then group_similar_results env final_results
                   (grouping_threshold options)
            else Ok final_results in
          match grouped with
          | Exc exc => Raised exc
          | Ok final_results =>
              Returned
                {| query := query; results := final_results;
                   stats :=
                     set_files_matched stats
                       (Z.of_nat (length final_results)) |}
          end
      end
  end.

Definition hybrid_cascade_search (env : Collaborators)
    (config : option Config) (query : string) (source_path : Path)
    (k coarse_k : Z) (options : option SearchOptions) : Outcome :=
  match prelude env false config query source_path k coarse_k options with
  | Finished o => o
  | Proceed k coarse_k options start_index index_paths stats =>
      hybrid_stages env query k coarse_k options index_paths stats
  end.

(** *** [binary_cascade_search] up to its dense stage *)

Definition binary_cascade_search (env : Collaborators)
    (config : option Config) (query : string) (source_path : Path)
    (k coarse_k : Z) (options : option SearchOptions) : Outcome :=
  match prelude env true config query source_path k coarse_k options with
  | Finished o => o
  | Proceed k coarse_k options start_index index_paths stats =>
      if negb (embedding_imports env)
      then FellBack (hybrid_call query source_path k coarse_k (Some options))
      else
        let use_gpu := use_gpu_of config in
        match embed_packed env use_gpu query with
        | Exc _ =>
            FellBack (hybrid_call query source_path k coarse_k (Some options))
        | Ok query_binary_packed =>
            let '(all_candidates, used_centralized, stats) :=
              stage1 env query query_binary_packed index_paths coarse_k
                     stats in
            match all_candidates with
            | [] =>
                FellBack
                  (hybrid_call query source_path k coarse_k (Some options))
            | _ :: _ =>
                let all_candidates := sort_by_distance all_candidates in
                let coarse_candidates := Py.slice all_candidates 0 coarse_k in
                match dense_embed env use_gpu query with
                | Exc _ =>
                    Returned
                      (build_results_from_candidates env
                         (Py.slice coarse_candidates 0 k) stats query
                         used_centralized)
                | Ok query_dense =>
                    DenseStage
                      {| ds_query_dense := query_dense;
                         ds_coarse_candidates := coarse_candidates;
                         ds_used_centralized := used_centralized;
                         ds_k := k; ds_options := options;
                         ds_stats := stats |}
                end
            end
        end
  end.

(** [return self.hybrid_cascade_search(...)]: the value of the call an
    outcome hands over to. *)
Definition tail_call (env : Collaborators) (config : option Config)
    (o : Outcome) : Outcome :=
  match o with
  | FellBack c =>
      hybrid_cascade_search env config (call_query c) (call_source_path c)
        (call_k c) (call_coarse_k c) (call_options c)
  | other => other
  end.

(** *** Vocabulary of the statements below *)

(** Descending by score. *)
Definition desc (a b : SearchResult) : Prop := (score b <= score a)%Q.

(** What holds of the dictionary after the results [seen] went through
    the loop. *)
Definition dedupe_inv (seen : list SearchResult)
    (d : list (string * SearchResult)) : Prop :=
  NoDup (fst <$> d) /\
  (forall p r, (p, r) ∈ d ->
     path r = p /\ r ∈ seen /\
     forall r', r' ∈ seen -> path r' = p -> (score r' <= score r)%Q) /\
  (forall r, r ∈ seen -> path r ∈ fst <$> d).




(** The limits [(k, coarse_k)] a cascade method works with. *)
Definition fine_k_of (config : option Config) (k coarse_k : Z) : Z :=
  fst (config_defaults config k coarse_k).

Definition coarse_k_of (config : option Config) (k coarse_k : Z) : Z :=
  snd (config_defaults config k coarse_k).

(** [options or SearchOptions()]. *)
Definition options_or_default (options : option SearchOptions)
    : SearchOptions :=
  match options with Some o => o | None => default_options end.

(** The statistics with which a cascade method leaves its opening. *)
Definition opening_stats (index_paths : list Path) : SearchStats :=
  set_dirs_searched new_stats (Z.of_nat (length index_paths)).

(** The methods that open with the NumPy guard. *)
Definition numpy_guarded (m : Callee) : bool :=
  match m with
  | to_hybrid_cascade_search => false
  | _ => true
  end.

(** *** Sample inputs used to exercise the statements below *)

Definition sample_result (p : string) (s : Q) (e : string) : SearchResult :=
  {| path := p; score := s; excerpt := e; content := None |}.

Definition sample_results : list SearchResult :=
  [sample_result "a.py" 1 "first"; sample_result "b.py" 3 "second";
   sample_result "a.py" 2 "third"; sample_result "c.py" 3 "fourth";
   sample_result "b.py" 3 "fifth"].

(** A project with one index directory, a centralized binary searcher
    that finds two chunks, and no dense embedding backend. *)
Definition sample_env : Collaborators := {|
  NUMPY_AVAILABLE := true;
  find_start_index := fun _ => Ok (Some "/idx/src/_index.db");
  collect_index_paths := fun start _ => [start];
  embedding_imports := true;
  embed_packed := fun _ _ => Ok [170; 85];
  parent := fun _ => "/idx/src";
  centralized_search := fun _ _ _ => CentralHits [(7, 64); (9, 32)];
  legacy_search := fun _ _ _ => LegacySkip;
  dense_embed := fun _ _ => Exc "model not installed";
  meta_db_exists := fun _ => true;
  meta_get_chunks := fun _ _ =>
    Ok [{| row_id := Some 7; row_file_path := Str "auth.py";
           row_content := Str "def login(): ..." |};
        {| row_id := Some 9; row_file_path := Str "user.py";
           row_content := Str "class User: ..." |}];
  sqlite_get_chunks := fun _ _ => Ok [];
  validate := fun r => Qle_bool 0 (score r);
  search_parallel := fun _ _ _ =>
    ([{| path := "auth.py"; score := 12; excerpt := "def login";
         content := None |}], new_stats);
  reranker_created := false;
  ranking_cross_encoder_rerank := fun _ _ _ => Exc "no reranker";
  group_similar_results := fun rs _ => Ok rs
|}.

(** The same project when the binary indexes hold no vector. *)
Definition sample_env_no_candidates : Collaborators := {|
  NUMPY_AVAILABLE := true;
  find_start_index := find_start_index sample_env;
  collect_index_paths := collect_index_paths sample_env;
  embedding_imports := true;
  embed_packed := embed_packed sample_env;
  parent := parent sample_env;
  centralized_search := fun _ _ _ => CentralUnavailable;
  legacy_search := fun _ _ _ => LegacySkip;
  dense_embed := dense_embed sample_env;
  meta_db_exists := meta_db_exists sample_env;
  meta_get_chunks := meta_get_chunks sample_env;
  sqlite_get_chunks := sqlite_get_chunks sample_env;
  validate := validate sample_env;
  search_parallel := search_parallel sample_env;
  reranker_created := false;
  ranking_cross_encoder_rerank := ranking_cross_encoder_rerank sample_env;
  group_similar_results := group_similar_results sample_env
|}.

(** Configurations whose [cascade_fine_k] differs from the signature
    default 10 of [k]. *)
Definition sample_config (fine_k : Z) : Config :=
  {| cascade_strategy := Some "binary"; cascade_coarse_k := Some 100;
     cascade_fine_k := Some fine_k; embedding_use_gpu := Some true |}.


Definition sample_stats : SearchStats :=
  {| dirs_searched := 1; files_matched := 0; errors := [] |}.

(** *** Facts about the deduplication loop and the score sort *)

Lemma Qle_bool_false (a b : Q) : Qle_bool a b = false -> (b < a)%Q.
Proof.
  intros E. destruct (Qlt_le_dec b a) as [H|H]; [exact H|].
  apply Qle_bool_iff in H. congruence.
Qed.

Lemma string_eqb_eq (a b : string) : String.eqb a b = true <-> a = b.
Proof. apply String.eqb_eq. Qed.

Lemma dedupe_inv_nil : dedupe_inv [] [].
Proof.
  repeat split.
  - rewrite fmap_nil. apply NoDup_nil_2.
  - now apply elem_of_nil in H.
  - now apply elem_of_nil in H.
  - now apply elem_of_nil in H.
  - intros r H. now apply elem_of_nil in H.
Qed.

Lemma dedupe_step_inv (seen : list SearchResult)
    (d : list (string * SearchResult)) (r : SearchResult) :
  dedupe_inv seen d -> dedupe_inv (seen ++ [r]) (dedupe_step d r).
Proof.
  intros (Hnd & Hbest & Hcov). unfold dedupe_step.
  destruct (Py.dict_get String.eqb d (path r)) as [old|] eqn:Hget.
  - pose proof (Py.dict_get_elem_of _ string_eqb_eq _ _ _ Hget) as Hold.
    destruct (Hbest _ _ Hold) as (Hpold & Hinold & Hmaxold).
    destruct (Qle_bool (score r) (score old)) eqn:Hcmp.
    + (* the stored result stays *)
      apply Qle_bool_iff in Hcmp. split; [exact Hnd|]. split.
      * intros p x Hx. destruct (Hbest _ _ Hx) as (Hp & Hin & Hmax).
        split; [exact Hp|]. split; [apply elem_of_app; now left|].
        intros r' Hr' Hpr'. apply elem_of_app in Hr' as [Hr'|Hr'].
        -- now apply Hmax.
        -- apply list_elem_of_singleton in Hr'. subst r'.
           assert (x = old) as ->.
           { rewrite <- Hpr' in Hx.
             pose proof (Py.elem_of_dict_get _ string_eqb_eq _ _ _ Hnd Hx).
             congruence. }
           exact Hcmp.
      * intros r' Hr'. apply elem_of_app in Hr' as [Hr'|Hr'].
        -- now apply Hcov.
        -- apply list_elem_of_singleton in Hr'. subst r'.
           apply list_elem_of_fmap. now exists (path r, old).
    + (* the new result replaces it *)
      apply Qle_bool_false in Hcmp. split.
      { now apply (Py.dict_set_NoDup _ string_eqb_eq). } split.
      * intros p x Hx.
        destruct (Py.dict_set_elem_of _ string_eqb_eq _ _ _ _ _ Hnd Hx)
          as [[-> ->]|[Hne Hx']]; clear Hx; [|rename Hx' into Hx].
        -- split; [reflexivity|]. split.
           { apply elem_of_app. right. now apply list_elem_of_singleton. }
           intros r' Hr' Hpr'. apply elem_of_app in Hr' as [Hr'|Hr'].
           ++ apply Qle_trans with (score old).
              ** apply Hmaxold; [exact Hr'|congruence].
              ** now apply Qlt_le_weak.
           ++ apply list_elem_of_singleton in Hr'. subst r'. apply Qle_refl.
        -- destruct (Hbest _ _ Hx) as (Hp & Hin & Hmax).
           split; [exact Hp|]. split; [apply elem_of_app; now left|].
           intros r' Hr' Hpr'. apply elem_of_app in Hr' as [Hr'|Hr'].
           ++ now apply Hmax.
           ++ apply list_elem_of_singleton in Hr'. subst r'. congruence.
      * intros r' Hr'. apply (Py.dict_set_keys _ string_eqb_eq).
        apply elem_of_app in Hr' as [Hr'|Hr'].
        -- right. now apply Hcov.
        -- apply list_elem_of_singleton in Hr'. subst r'. now left.
  - (* a path not seen before *)
    pose proof (Py.dict_get_None _ string_eqb_eq _ _ Hget) as Hfresh.
    split. { now apply (Py.dict_set_NoDup _ string_eqb_eq). } split.
    + intros p x Hx.
      destruct (Py.dict_set_elem_of _ string_eqb_eq _ _ _ _ _ Hnd Hx)
        as [[-> ->]|[Hne Hx']]; clear Hx; [|rename Hx' into Hx].
      * split; [reflexivity|]. split.
        { apply elem_of_app. right. now apply list_elem_of_singleton. }
        intros r' Hr' Hpr'. apply elem_of_app in Hr' as [Hr'|Hr'].
        -- exfalso. apply Hfresh. rewrite <- Hpr'. now apply Hcov.
        -- apply list_elem_of_singleton in Hr'. subst r'. apply Qle_refl.
      * destruct (Hbest _ _ Hx) as (Hp & Hin & Hmax).
        split; [exact Hp|]. split; [apply elem_of_app; now left|].
        intros r' Hr' Hpr'. apply elem_of_app in Hr' as [Hr'|Hr'].
        -- now apply Hmax.
        -- apply list_elem_of_singleton in Hr'. subst r'. congruence.
    + intros r' Hr'. apply (Py.dict_set_keys _ string_eqb_eq).
      apply elem_of_app in Hr' as [Hr'|Hr'].
      * right. now apply Hcov.
      * apply list_elem_of_singleton in Hr'. subst r'. now left.
Qed.

Lemma dedupe_fold_inv (rs seen : list SearchResult)
    (d : list (string * SearchResult)) :
  dedupe_inv seen d -> dedupe_inv (seen ++ rs) (fold_left dedupe_step rs d).
Proof.
  revert seen d. induction rs as [|r rs IH]; intros seen d H; simpl.
  - now rewrite app_nil_r.
  - replace (seen ++ r :: rs)%list with ((seen ++ [r]) ++ rs)%list
      by now rewrite <- app_assoc.
    apply IH. now apply dedupe_step_inv.
Qed.

Lemma dedupe_by_path_inv (rs : list SearchResult) :
  dedupe_inv rs (dedupe_by_path rs).
Proof. apply (dedupe_fold_inv rs [] []). apply dedupe_inv_nil. Qed.

Lemma dedupe_values_NoDup (rs : list SearchResult) :
  NoDup (path <$> (snd <$> dedupe_by_path rs)).
Proof.
  destruct (dedupe_by_path_inv rs) as (Hnd & Hbest & _).
  replace (path <$> (snd <$> dedupe_by_path rs))
    with (fst <$> dedupe_by_path rs); [exact Hnd|].
  rewrite <- list_fmap_compose. apply list_fmap_ext.
  intros i [p r] Hi. simpl. symmetry. apply (Hbest p r).
  apply list_elem_of_lookup. now exists i.
Qed.

Lemma insert_by_score_perm (r : SearchResult) (l : list SearchResult) :
  insert_by_score r l ≡ₚ r :: l.
Proof.
  induction l as [|r' l IH]; simpl; [reflexivity|].
  destruct (Qle_bool (score r) (score r')); [|reflexivity].
  rewrite IH. apply Permutation_swap.
Qed.

Lemma sort_fold_perm (l acc : list SearchResult) :
  fold_left (fun acc r => insert_by_score r acc) l acc ≡ₚ (acc ++ l)%list.
Proof.
  revert acc. induction l as [|r l IH]; intros acc; simpl.
  - now rewrite app_nil_r.
  - rewrite IH, insert_by_score_perm. simpl. apply Permutation_middle.
Qed.

Lemma sort_by_score_perm (l : list SearchResult) : sort_by_score l ≡ₚ l.
Proof. unfold sort_by_score. now rewrite sort_fold_perm. Qed.

Lemma insert_by_score_sorted (r : SearchResult) (l : list SearchResult) :
  StronglySorted desc l -> StronglySorted desc (insert_by_score r l).
Proof.
  induction l as [|r' l IH]; simpl; intros Hs.
  - repeat constructor.
  - apply StronglySorted_inv in Hs as [Hs Hall].
    destruct (Qle_bool (score r) (score r')) eqn:Hcmp.
    + apply Qle_bool_iff in Hcmp. constructor; [now apply IH|].
      apply Forall_forall. intros x Hx.
      rewrite insert_by_score_perm in Hx.
      apply elem_of_cons in Hx as [->|Hx]; [exact Hcmp|].
      rewrite Forall_forall in Hall. now apply Hall.
    + apply Qle_bool_false in Hcmp.
      constructor; [now constructor|].
      apply Forall_forall. intros x Hx.
      apply elem_of_cons in Hx as [->|Hx].
      * now apply Qlt_le_weak.
      * rewrite Forall_forall in Hall. unfold desc.
        apply Qle_trans with (score r'); [now apply Hall|].
        now apply Qlt_le_weak.
Qed.

Lemma sort_fold_sorted (l acc : list SearchResult) :
  StronglySorted desc acc ->
  StronglySorted desc (fold_left (fun acc r => insert_by_score r acc) l acc).
Proof.
  revert acc. induction l as [|r l IH]; intros acc H; simpl; [exact H|].
  apply IH. now apply insert_by_score_sorted.
Qed.

Lemma sort_by_score_sorted (l : list SearchResult) :
  StronglySorted desc (sort_by_score l).
Proof. apply sort_fold_sorted. constructor. Qed.

Lemma dedupe_values_best (rs : list SearchResult) (u : SearchResult) :
  u ∈ snd <$> dedupe_by_path rs ->
  u ∈ rs /\
  forall r', r' ∈ rs -> path r' = path u -> (score r' <= score u)%Q.
Proof.
  destruct (dedupe_by_path_inv rs) as (_ & Hbest & _).
  intros Hu. apply list_elem_of_fmap in Hu as ([p x] & -> & Hx). simpl.
  destruct (Hbest p x Hx) as (Hp & Hin & Hmax).
  split; [exact Hin|]. intros r' Hr' Hpr'. apply Hmax; congruence.
Qed.

Lemma dedupe_values_cover (rs : list SearchResult) (r : SearchResult) :
  r ∈ rs ->
  exists u, u ∈ snd <$> dedupe_by_path rs /\ path u = path r /\
            (score r <= score u)%Q.
Proof.
  destruct (dedupe_by_path_inv rs) as (_ & Hbest & Hcov).
  intros Hr. pose proof (Hcov r Hr) as Hk.
  apply list_elem_of_fmap in Hk as ([p u] & Hp & Hu). simpl in Hp.
  destruct (Hbest p u Hu) as (Hpu & _ & Hmax).
  exists u. split; [|split].
  - apply list_elem_of_fmap. now exists (p, u).
  - congruence.
  - apply Hmax; [exact Hr|congruence].
Qed.

(** C4.  [_merge_and_rank] keeps one result per path, namely one with the
    highest score among the inputs of that path, orders the survivors by
    score descending and returns the window that starts at [offset] and
    has at most [limit] elements: the output is duplicate-free by path,
    sorted, and no longer than [limit]. *)
Theorem merge_and_rank_spec (results : list SearchResult) (limit offset : Z) :
  0 <= limit -> 0 <= offset ->
  let unique := sort_by_score (snd <$> dedupe_by_path results) in
  let out := merge_and_rank results limit offset in
  NoDup (path <$> unique) /\
  (forall r, r ∈ results ->
     exists u, u ∈ unique /\ path u = path r /\ (score r <= score u)%Q) /\
  StronglySorted desc unique /\
  out = take (Z.to_nat limit) (drop (Z.to_nat offset) unique) /\
  Z.of_nat (length out) <= limit /\
  NoDup (path <$> out) /\
  StronglySorted desc out /\
  (forall r, r ∈ out ->
     r ∈ results /\
     forall r', r' ∈ results -> path r' = path r ->
                (score r' <= score r)%Q).
Proof.
  intros Hlimit Hoffset unique out.
  assert (Hperm : unique ≡ₚ snd <$> dedupe_by_path results)
    by apply sort_by_score_perm.
  assert (Hnd : NoDup (path <$> unique)).
  { rewrite Hperm. apply dedupe_values_NoDup. }
  assert (Hsorted : StronglySorted desc unique)
    by apply sort_by_score_sorted.
  destruct (Py.slice_decompose unique offset (offset + limit))
    as (pre & post & Hdec).
  fold (merge_and_rank results limit offset) in Hdec. fold out in Hdec.
  split; [exact Hnd|]. split.
  { intros r Hr. destruct (dedupe_values_cover results r Hr)
      as (u & Hu & Hpu & Hsu).
    exists u. split; [now rewrite Hperm|]. now split. }
  split; [exact Hsorted|]. split.
  { unfold out, merge_and_rank. fold unique.
    rewrite Py.slice_nonneg by lia.
    now replace (offset + limit - offset) with limit by lia. }
  split.
  { unfold out, merge_and_rank. now apply Py.slice_length_le. }
  split.
  { rewrite Hdec, !fmap_app in Hnd.
    apply NoDup_app in Hnd as (_ & _ & Hnd).
    now apply NoDup_app in Hnd as (Hnd & _ & _). }
  split.
  { rewrite Hdec in Hsorted.
    apply StronglySorted_app_1_r in Hsorted.
    now apply StronglySorted_app_1_l in Hsorted. }
  intros r Hr. apply dedupe_values_best. rewrite <- Hperm.
  rewrite Hdec. apply elem_of_app. right. apply elem_of_app. now left.
Qed.

(** *** Facts about the Hamming-only result builder *)















Lemma merge_and_rank_spec_witness :
  0 <= 2 /\ 0 <= 1 /\
  Z.of_nat (length (merge_and_rank sample_results 2 1)) <= 2 /\
  NoDup (path <$> merge_and_rank sample_results 2 1) /\
  StronglySorted desc (merge_and_rank sample_results 2 1).
Proof.
  assert (H0 : 0 <= 2) by lia. assert (H1 : 0 <= 1) by lia.
  destruct (merge_and_rank_spec sample_results 2 1 H0 H1)
    as (_ & _ & _ & _ & Hlen & Hnd & Hsorted & _).
  repeat split; assumption.
Defined.

(** A negative [limit] is an end index counted from the back, so the
    window is then not bounded by [limit]. *)
Example merge_and_rank_negative_limit :
  path <$> merge_and_rank sample_results (-1) 0 = ["b.py"; "c.py"].
Proof. reflexivity. Qed.

Lemma in_valid_strategies_spec (s : string) :
  in_valid_strategies (Some s) = true <->
  s = "binary" \/ s = "hybrid" \/ s = "binary_rerank" \/ s = "dense_rerank".
Proof.
  unfold in_valid_strategies, valid_strategies. simpl.
  rewrite !orb_true_iff, !String.eqb_eq. intuition congruence.
Qed.

Lemma method_of_valid (s : string) :
  in_valid_strategies (Some s) = true <-> exists m, method_of s = Some m.
Proof.
  rewrite in_valid_strategies_spec. unfold method_of. split.
  - intros [-> | [-> | [-> | ->]]]; simpl; eauto.
  - intros [m Hm].
    destruct (String.eqb_spec s "binary"); [tauto|].
    destruct (String.eqb_spec s "binary_rerank"); [tauto|].
    destruct (String.eqb_spec s "dense_rerank"); [tauto|].
    destruct (String.eqb_spec s "hybrid"); [tauto|discriminate].
Qed.

Lemma dispatch_method_of (s : string) (m : Callee) :
  method_of s = Some m -> dispatch s = m.
Proof.
  unfold method_of, dispatch.
  destruct (String.eqb s "binary"); [congruence|].
  destruct (String.eqb s "binary_rerank"); [congruence|].
  destruct (String.eqb s "dense_rerank"); [congruence|].
  destruct (String.eqb s "hybrid"); congruence.
Qed.

Lemma load_cascade_strategy_valid (current : string)
    (settings_strategy : option string) :
  in_valid_strategies (Some current) = true ->
  in_valid_strategies
    (Some (load_cascade_strategy current settings_strategy)) = true.
Proof.
  intros Hc. unfold load_cascade_strategy.
  destruct settings_strategy as [s|]; [|exact Hc].
  destruct (in_valid_strategies (Some s)) eqn:E; [exact E|exact Hc].
Qed.

(** *** The cascade entry point *)

(** C5.  [cascade_search] picks its strategy from the explicit argument
    when that names a strategy, otherwise from the configuration's
    [cascade_strategy] when the argument is absent and the configured value
    names one, otherwise "binary"; the choice selects
    [binary_cascade_search], [binary_rerank_cascade_search],
    [dense_rerank_cascade_search] or [hybrid_cascade_search], which
    receives the caller's arguments unchanged. *)
Theorem cascade_search_precedence (config : option Config) (query : string)
    (source_path : Path) (k coarse_k : Z) (options : option SearchOptions)
    (strategy : option string) :
  let call :=
    cascade_search config query source_path k coarse_k options strategy in
  (forall s m, strategy = Some s -> method_of s = Some m ->
               callee call = m) /\
  (forall c s m, strategy = None -> config = Some c ->
                 cascade_strategy c = Some s -> method_of s = Some m ->
                 callee call = m) /\
  (strategy = None ->
   (forall c, config = Some c ->
              in_valid_strategies (cascade_strategy c) = false) ->
   callee call = to_binary_cascade_search) /\
  method_of "binary" = Some to_binary_cascade_search /\
  method_of "binary_rerank" = Some to_binary_rerank_cascade_search /\
  method_of "dense_rerank" = Some to_dense_rerank_cascade_search /\
  method_of "hybrid" = Some to_hybrid_cascade_search /\
  call = {| callee := callee call; call_query := query;
            call_source_path := source_path; call_k := k;
            call_coarse_k := coarse_k; call_options := options |}.
Proof.
  intros call. subst call. unfold cascade_search. cbn [callee].
  repeat split.
  - intros s m -> Hm. apply dispatch_method_of.
    unfold effective_strategy.
    assert (Hv : in_valid_strategies (Some s) = true)
      by (apply method_of_valid; eauto).
    now rewrite Hv.
  - intros c s m -> -> Hs Hm. apply dispatch_method_of.
    unfold effective_strategy.
    assert (Hv : in_valid_strategies (Some s) = true)
      by (apply method_of_valid; eauto).
    rewrite Hs, Hv. now rewrite Hv.
  - intros -> Hc. unfold effective_strategy.
    destruct config as [c|]; [|reflexivity].
    now rewrite (Hc c eq_refl).
Qed.

(** C9.  An explicit strategy that names none of the four strategies
    raises nothing and runs the binary cascade, whatever the
    configuration says: the configured strategy is only read when the
    argument is absent. *)
Theorem cascade_search_unknown_strategy (config : option Config)
    (query : string) (source_path : Path) (k coarse_k : Z)
    (options : option SearchOptions) (s : string) :
  in_valid_strategies (Some s) = false ->
  cascade_search config query source_path k coarse_k options (Some s) =
  {| callee := to_binary_cascade_search; call_query := query;
     call_source_path := source_path; call_k := k;
     call_coarse_k := coarse_k; call_options := options |}.
Proof.
  intros Hs. unfold cascade_search, effective_strategy. now rewrite Hs.
Qed.

Lemma cascade_search_unknown_strategy_witness :
  in_valid_strategies (Some "fastest") = false /\
  cascade_search
    (Some {| cascade_strategy := Some "hybrid"; cascade_coarse_k := Some 100;
             cascade_fine_k := Some 10; embedding_use_gpu := Some true |})
    "auth" "/project" 10 100 None (Some "fastest") =
  {| callee := to_binary_cascade_search; call_query := "auth";
     call_source_path := "/project"; call_k := 10; call_coarse_k := 100;
     call_options := None |}.
Proof.
  split; [reflexivity|].
  apply (cascade_search_unknown_strategy _ "auth" "/project" 10 100 None
           "fastest").
  reflexivity.
Defined.

(** *** The opening of the cascade methods and their limits *)





Lemma limits_of_config (c : Config) (k coarse_k : Z) :
  (k <> 0 -> fine_k_of (Some c) k coarse_k = k) /\
  (coarse_k <> 0 -> coarse_k_of (Some c) k coarse_k = coarse_k) /\
  (forall v, k = 0 -> cascade_fine_k c = Some v ->
             fine_k_of (Some c) k coarse_k = v) /\
  (forall v, coarse_k = 0 -> cascade_coarse_k c = Some v ->
             coarse_k_of (Some c) k coarse_k = v) /\
  (cascade_fine_k c = None -> fine_k_of (Some c) k coarse_k = k) /\
  (cascade_coarse_k c = None -> coarse_k_of (Some c) k coarse_k = coarse_k).
Proof.
  unfold fine_k_of, coarse_k_of, config_defaults, Py.or_int. cbn [fst snd].
  repeat split.
  - intros Hk. destruct (cascade_fine_k c); [|reflexivity].
    now destruct (Z.eqb_spec k 0).
  - intros Hk. destruct (cascade_coarse_k c); [|reflexivity].
    now destruct (Z.eqb_spec coarse_k 0).
  - now intros v -> ->.
  - now intros v -> ->.
  - now intros ->.
  - now intros ->.
Qed.

(** With NumPy where it is needed, a start index and at least one index
    path, the opening statements go on to the method's stages. *)
Lemma prelude_proceeds (env : Collaborators) (guard : bool)
    (config : option Config) (q : string) (source_path : Path)
    (k coarse_k : Z) (options : option SearchOptions) (start : Path) :
  guard && negb (NUMPY_AVAILABLE env) = false ->
  find_start_index env source_path = Ok (Some start) ->
  collect_index_paths env start (depth (options_or_default options)) <> [] ->
  prelude env guard config q source_path k coarse_k options =
  Proceed (fine_k_of config k coarse_k) (coarse_k_of config k coarse_k)
    (options_or_default options) start
    (collect_index_paths env start (depth (options_or_default options)))
    (opening_stats
       (collect_index_paths env start (depth (options_or_default options)))).
Proof.
  intros Hg Hs Hne.
  unfold prelude, fine_k_of, coarse_k_of, opening_stats. rewrite Hg.
  fold (options_or_default options).
  destruct (config_defaults config k coarse_k) as [k0 c0]. cbn [fst snd].
  rewrite Hs.
  destruct (collect_index_paths env start
              (depth (options_or_default options))) eqn:E;
    [contradiction|reflexivity].
Qed.



(** C10 (amended).  In each of the four cascade methods that finds a start
    index and index paths, the limits the method goes on with are the
    arguments with a zero [k] replaced by the configuration's
    [cascade_fine_k] and a zero [coarse_k] by its [cascade_coarse_k],
    whatever value the configuration holds; a non-zero argument is kept,
    and so is an argument whose configuration attribute is missing.  A
    method that hands over to the hybrid cascade because NumPy is missing
    passes both arguments on untouched, and the hybrid cascade makes the
    same replacement.  The hybrid cascade runs its two stages with these
    limits.  Zero and the 10 (or 100) that an omitted argument binds give
    the same limit exactly when the configured value is 10 (or 100). *)
Theorem zero_limits_replaced_by_config (env : Collaborators) (m : Callee)
    (c : Config) (q : string) (source_path : Path) (k coarse_k : Z)
    (options : option SearchOptions) (start : Path) :
  let opts := options_or_default options in
  let index_paths := collect_index_paths env start (depth opts) in
  let k' := fine_k_of (Some c) k coarse_k in
  let coarse_k' := coarse_k_of (Some c) k coarse_k in
  find_start_index env source_path = Ok (Some start) ->
  index_paths <> [] ->
  ((k <> 0 -> k' = k) /\
   (coarse_k <> 0 -> coarse_k' = coarse_k) /\
   (forall v, k = 0 -> cascade_fine_k c = Some v -> k' = v) /\
   (forall v, coarse_k = 0 -> cascade_coarse_k c = Some v ->
              coarse_k' = v) /\
   (cascade_fine_k c = None -> k' = k) /\
   (cascade_coarse_k c = None -> coarse_k' = coarse_k)) /\
  (numpy_guarded m && negb (NUMPY_AVAILABLE env) = false ->
   prelude_of m env (Some c) q source_path k coarse_k options =
     Proceed k' coarse_k' opts start index_paths
       (opening_stats index_paths)) /\
  (numpy_guarded m && negb (NUMPY_AVAILABLE env) = true ->
   prelude_of m env (Some c) q source_path k coarse_k options =
     Finished (FellBack (hybrid_call q source_path k coarse_k options)) /\
   prelude_of to_hybrid_cascade_search env (Some c) q source_path k
     coarse_k options =
     Proceed k' coarse_k' opts start index_paths
       (opening_stats index_paths)) /\
  hybrid_cascade_search env (Some c) q source_path k coarse_k options =
    hybrid_stages env q k' coarse_k' opts index_paths
      (opening_stats index_paths) /\
  (forall v, cascade_fine_k c = Some v ->
     (fine_k_of (Some c) 0 coarse_k = fine_k_of (Some c) 10 coarse_k <->
      v = 10)) /\
  (forall v, cascade_coarse_k c = Some v ->
     (coarse_k_of (Some c) k 0 = coarse_k_of (Some c) k 100 <-> v = 100)).
Proof.
  intros opts index_paths k' coarse_k' Hstart Hpaths.
  split; [apply limits_of_config|].
  assert (Hhybrid :
    prelude env false (Some c) q source_path k coarse_k options =
    Proceed k' coarse_k' opts start index_paths (opening_stats index_paths))
    by now apply prelude_proceeds.
  split; [|split; [|split; [|split]]].
  - intros Hguard. destruct m; cbn [prelude_of numpy_guarded] in *;
      try exact Hhybrid; now apply prelude_proceeds.
  - intros Hguard. split; [|exact Hhybrid].
    destruct m; cbn [prelude_of numpy_guarded] in *; try discriminate;
      unfold prelude; now rewrite Hguard.
  - unfold hybrid_cascade_search. now rewrite Hhybrid.
  - intros v Hv. unfold fine_k_of, config_defaults, Py.or_int.
    cbn [fst]. rewrite Hv. cbn. split; congruence.
  - intros v Hv. unfold coarse_k_of, config_defaults, Py.or_int.
    cbn [snd]. rewrite Hv. cbn.
    destruct (cascade_fine_k c); cbn [snd]; split; congruence.
Qed.

Lemma zero_limits_replaced_by_config_witness :
  find_start_index sample_env "/src" = Ok (Some "/idx/src/_index.db") /\
  prelude_of to_binary_cascade_search sample_env (Some (sample_config 7))
    "auth" "/src" 0 100 None =
    Proceed 7 100 default_options "/idx/src/_index.db"
      ["/idx/src/_index.db"] sample_stats /\
  prelude_of to_dense_rerank_cascade_search sample_env
    (Some (sample_config 7)) "auth" "/src" 3 0 None =
    Proceed 3 100 default_options "/idx/src/_index.db"
      ["/idx/src/_index.db"] sample_stats.
Proof.
  split; [reflexivity|].
  assert (Hne : collect_index_paths sample_env "/idx/src/_index.db"
                  (depth (options_or_default None)) <> []) by discriminate.
  split.
  - destruct (zero_limits_replaced_by_config sample_env
                to_binary_cascade_search (sample_config 7) "auth" "/src"
                0 100 None "/idx/src/_index.db" eq_refl Hne)
      as (_ & H & _).
    exact (H eq_refl).
  - destruct (zero_limits_replaced_by_config sample_env
                to_dense_rerank_cascade_search (sample_config 7) "auth"
                "/src" 3 0 None "/idx/src/_index.db" eq_refl Hne)
      as (_ & H & _).
    exact (H eq_refl).
Defined.

(** C10 (the claim as worded fails).  With [cascade_fine_k = 7] a zero [k]
    becomes 7 while the 10 an omitted [k] binds stays 10, so zero is not
    treated as an absent argument; and with [cascade_fine_k = 0] a zero [k]
    stays zero and the binary cascade returns no result, where [k = 10]
    returns two. *)
Lemma zero_limit_is_not_an_absent_argument :
  prelude_of to_binary_cascade_search sample_env (Some (sample_config 7))
    "auth" "/src" 0 100 None =
    Proceed 7 100 default_options "/idx/src/_index.db"
      ["/idx/src/_index.db"] sample_stats /\
  prelude_of to_binary_cascade_search sample_env (Some (sample_config 7))
    "auth" "/src" 10 100 None =
    Proceed 10 100 default_options "/idx/src/_index.db"
      ["/idx/src/_index.db"] sample_stats /\
  (exists r,
     binary_cascade_search sample_env (Some (sample_config 0)) "auth" "/src"
       0 100 None = Returned r /\
     results r = []) /\
  (exists r,
     binary_cascade_search sample_env (Some (sample_config 0)) "auth" "/src"
       10 100 None = Returned r /\
     path <$> results r = ["user.py"; "auth.py"]).
Proof.
  split; [reflexivity|]. split; [reflexivity|].
  split; eexists; split; reflexivity.
Qed.

(** *** Fallbacks of the binary cascade *)



(** With no binary candidate the sample project is searched by the hybrid
    cascade, which here has no reranker and returns the first [k] coarse
    results. *)
Example binary_cascade_sample_fallback :
  binary_cascade_search sample_env_no_candidates None "auth" "/src" 10 100
    None =
    FellBack (hybrid_call "auth" "/src" 10 100 (Some default_options)) /\
  match tail_call sample_env_no_candidates None
          (binary_cascade_search sample_env_no_candidates None "auth" "/src"
             10 100 None) with
  | Returned r => (fun x => (path x, score x)) <$> results r
  | _ => []
  end = [("auth.py", 12%Q)].
Proof. split; reflexivity. Qed.

(** Candidates that a failing centralized search had already appended are
    kept: they are joined by those of the per-directory indexes and the
    result is not marked as centralized. *)
Example stage1_keeps_appended_candidates :
  stage1
    {| NUMPY_AVAILABLE := true;
       find_start_index := find_start_index sample_env;
       collect_index_paths := collect_index_paths sample_env;
       embedding_imports := true;
       embed_packed := embed_packed sample_env;
       parent := parent sample_env;
       centralized_search := fun _ _ _ => CentralFailed [(7, 64)];
       legacy_search := fun _ _ _ => LegacyHits [3] [16];
       dense_embed := dense_embed sample_env;
       meta_db_exists := meta_db_exists sample_env;
       meta_get_chunks := meta_get_chunks sample_env;
       sqlite_get_chunks := sqlite_get_chunks sample_env;
       validate := validate sample_env;
       search_parallel := search_parallel sample_env;
       reranker_created := false;
       ranking_cross_encoder_rerank :=
         ranking_cross_encoder_rerank sample_env;
       group_similar_results := group_similar_results sample_env |}
    "auth" [170; 85] ["/idx/src/_index.db"] 100 sample_stats =
  ([(7, 64, "/idx/src"); (3, 16, "/idx/src/_index.db")], false,
   sample_stats).
Proof. reflexivity. Qed.

Example binary_cascade_sample_scores :
  (fun r => (path r, score r)) <$>
  match binary_cascade_search sample_env None "auth" "/src" 10 100 None with
  | Returned r => results r
  | _ => []
  end = [("user.py", (1 - inject_Z 32 / 256)%Q);
         ("auth.py", (1 - inject_Z 64 / 256)%Q)].
Proof. reflexivity. Qed.

End ChainSearch.

(** ** The descendant collector [_collect_index_paths] *)

Module Collect.
Import Entities.
Import ChainSearch (Try, Ok, Exc).

(** The file system and the per-directory index stores, as the collector
    sees them. *)
Record FileSystem := {
  (** [Path.resolve()] *)
  resolve : Path -> Path;
  (** [Path.exists()] *)
  path_exists : Path -> bool;
  (** the [index_path] of each row of [DirIndexStore(p).get_subdirs()];
      [Exc] when opening or reading the store raises *)
  get_subdirs : Path -> Try (list Path)
}.

(** The two variables the nested function closes over. *)
Record State := {
  collected : list Path;
  visited : gset Path
}.

Definition mark_visited (st : State) (p : Path) : State :=
  {| collected := collected st; visited := {[p]} ∪ visited st |}.

Definition collect (st : State) (p : Path) : State :=
  {| collected := (collected st ++ [p])%list; visited := visited st |}.

(** [for subdir in subdirs: step(subdir)], threading the state. *)
Fixpoint for_each (step : Path -> State -> option State)
    (subdirs : list Path) (st : State) : option State :=
  match subdirs with
  | [] => Some st
  | subdir :: rest =>
      match step subdir st with
      | Some st' => for_each step rest st'
      | None => None
      end
  end.

(** [_collect_recursive]; [fuel] bounds the nesting of calls and [None]
    means it ran out. *)
Fixpoint collect_recursive (fs : FileSystem) (depth : Z) (fuel : nat)
    (index_path : Path) (current_depth : Z) (st : State) : option State :=
  match fuel with
  | O => None
  | S fuel' =>
      let normalized := resolve fs index_path in
      if decide (normalized ∈ visited st) then Some st
      else
        let st := mark_visited st normalized in
        if path_exists fs normalized then
          let st := collect st normalized in
          if (depth >=? 0) && (current_depth >=? depth) then Some st
          else
            match get_subdirs fs normalized with
            | Ok subdirs =>
                for_each
                  (fun subdir =>
                     collect_recursive fs depth fuel' subdir
                                       (current_depth + 1))
                  subdirs st
            | Exc _ => Some st
            end
        else Some st
  end.

Definition initial : State := {| collected := []; visited := ∅ |}.

Definition collect_index_paths (fs : FileSystem) (start_index : Path)
    (depth : Z) (fuel : nat) : option (list Path) :=
  collected <$> collect_recursive fs depth fuel start_index 0 initial.

(** One subdirectory link between resolved index paths: [n] exists, its
    store can be read, and [m] is the resolved path of one of its rows. *)
Definition link (fs : FileSystem) (n m : Path) : Prop :=
  path_exists fs n = true /\
  exists subdirs s, get_subdirs fs n = Ok subdirs /\ s ∈ subdirs /\
                    m = resolve fs s.

(** [m] is at most [k] links away from [n]. *)
Inductive within (fs : FileSystem) : nat -> Path -> Path -> Prop :=
| within_here k n : within fs k n n
| within_link k n x m :
    link fs n x -> within fs k x m -> within fs (S k) n m.

Definition reachable (fs : FileSystem) (n m : Path) : Prop :=
  exists k, within fs k n m.

(** A finite set of resolved paths that contains every link target it can
    lead to. *)
Definition closed_under_links (fs : FileSystem) (U : gset Path) : Prop :=
  forall n subdirs s,
    n ∈ U -> get_subdirs fs n = Ok subdirs -> s ∈ subdirs ->
    resolve fs s ∈ U.

(** A small tree with a link back to its root:
    root -> {a, b}, a -> {c, root}, b missing on disk. *)
Definition sample_fs : FileSystem := {|
  resolve := fun p => p;
  path_exists := fun p => negb (String.eqb p "/r/b/_index.db");
  get_subdirs := fun p =>
    if String.eqb p "/r/_index.db"
    then Ok ["/r/a/_index.db"; "/r/b/_index.db"]
    else if String.eqb p "/r/a/_index.db"
    then Ok ["/r/a/c/_index.db"; "/r/_index.db"]
    else if String.eqb p "/r/a/c/_index.db" then Ok []
    else Exc "unable to open database file"
|}.

Definition sample_universe : gset Path :=
  {["/r/_index.db"; "/r/a/_index.db"; "/r/b/_index.db"; "/r/a/c/_index.db"]}.

(** *** What one call of [_collect_recursive] adds *)

Section CollectFacts.
Variable fs : FileSystem.
Variable depth : Z.

(** The effect of a call (or of a run of calls) started from the resolved
    paths [roots] at depth [cd]: the visited set grows and contains the
    roots; the paths appended to [collected] are exactly the newly
    visited ones that exist, without repetition; whatever is newly visited
    is linked to a root, within the remaining depth when there is a limit;
    and without a limit every newly visited path has all its link targets
    visited. *)
Definition post (roots : Path -> Prop) (cd : Z) (st st' : State) : Prop :=
  visited st ⊆ visited st' /\
  (forall r, roots r -> r ∈ visited st') /\
  (exists new,
     collected st' = (collected st ++ new)%list /\ NoDup new /\
     forall x, x ∈ new <->
       (x ∈ visited st' /\ (x ∉ visited st) /\
        path_exists fs x = true)) /\
  (forall x, x ∈ visited st' -> x ∉ visited st ->
     exists r, roots r /\ reachable fs r x /\
       (0 <= depth -> cd <= depth ->
        within fs (Z.to_nat (depth - cd)) r x)) /\
  (depth < 0 ->
   forall x, x ∈ visited st' -> x ∉ visited st ->
   forall m, link fs x m -> m ∈ visited st').

Lemma post_weaken (R R' : Path -> Prop) (cd : Z) (st st' : State) :
  (forall r, R r -> R' r) ->
  (forall r, R' r -> r ∈ visited st') ->
  post R cd st st' -> post R' cd st st'.
Proof.
  intros HR HR' (Hsub & _ & Hnew & Hreach & Hclo).
  split; [exact Hsub|]. split; [exact HR'|]. split; [exact Hnew|].
  split; [|exact Hclo].
  intros x Hx Hnx. destruct (Hreach x Hx Hnx) as (r & Hr & H).
  exists r. split; [now apply HR|exact H].
Qed.

Lemma post_skip (R : Path -> Prop) (cd : Z) (st : State) :
  (forall r, R r -> r ∈ visited st) -> post R cd st st.
Proof.
  intros HR. split; [reflexivity|]. split; [exact HR|]. split.
  - exists []. split; [now rewrite app_nil_r|]. split; [apply NoDup_nil_2|].
    intros x. split.
    + intros H. now apply elem_of_nil in H.
    + intros (H1 & H2 & _). contradiction.
  - split; [|intros _]; intros x H1 H2; contradiction.
Qed.

Lemma post_compose (R1 R2 : Path -> Prop) (cd : Z) (st st1 st2 : State) :
  post R1 cd st st1 -> post R2 cd st1 st2 ->
  post (fun r => R1 r \/ R2 r) cd st st2.
Proof.
  intros (Hsub1 & Hroot1 & (new1 & Hc1 & Hnd1 & Hnew1) & Hreach1 & Hclo1)
         (Hsub2 & Hroot2 & (new2 & Hc2 & Hnd2 & Hnew2) & Hreach2 & Hclo2).
  split; [set_solver|]. split.
  { intros r [Hr|Hr]; [apply Hsub2; now apply Hroot1|now apply Hroot2]. }
  split.
  { exists (new1 ++ new2)%list. split.
    { now rewrite Hc2, Hc1, app_assoc. }
    split.
    { apply NoDup_app. split; [exact Hnd1|]. split; [|exact Hnd2].
      intros x Hx1 Hx2. apply Hnew1 in Hx1 as (Hv1 & _).
      apply Hnew2 in Hx2 as (_ & Hv2 & _). contradiction. }
    intros x. rewrite elem_of_app, Hnew1, Hnew2. split.
    - intros [(H1 & H2 & H3)|(H1 & H2 & H3)].
      + split; [now apply Hsub2|]. now split.
      + split; [exact H1|]. split; [|exact H3].
        intros Hx. apply H2. now apply Hsub1.
    - intros (H1 & H2 & H3).
      destruct (decide (x ∈ visited st1)) as [Hin|Hout].
      + left. now repeat split.
      + right. now repeat split. }
  split.
  - intros x Hx Hnx. destruct (decide (x ∈ visited st1)) as [Hin|Hout].
    + destruct (Hreach1 x Hin Hnx) as (r & Hr & H).
      exists r. split; [now left|exact H].
    + destruct (Hreach2 x Hx Hout) as (r & Hr & H).
      exists r. split; [now right|exact H].
  - intros Hd x Hx Hnx m Hm.
    destruct (decide (x ∈ visited st1)) as [Hin|Hout].
    + apply Hsub2. now apply (Hclo1 Hd x Hin Hnx).
    + now apply (Hclo2 Hd x Hx Hout).
Qed.

Lemma for_each_post (step : Path -> State -> option State) (cd : Z)
    (subdirs : list Path) :
  (forall s st st', step s st = Some st' ->
                    post (eq (resolve fs s)) cd st st') ->
  forall st st',
    for_each step subdirs st = Some st' ->
    post (fun r => exists s, s ∈ subdirs /\ r = resolve fs s) cd st st'.
Proof.
  intros Hstep. induction subdirs as [|s rest IH]; intros st st'; simpl.
  - intros [= <-]. apply post_skip. intros r (s & Hs & _).
    now apply elem_of_nil in Hs.
  - destruct (step s st) as [st1|] eqn:H1; [|discriminate]. intros H2.
    pose proof (post_compose _ _ _ _ _ _ (Hstep _ _ _ H1) (IH _ _ H2))
      as Hpost.
    destruct Hpost as (Ha & Hb & Hc).
    apply (post_weaken
             (fun r => resolve fs s = r \/
                       exists s0, s0 ∈ rest /\ r = resolve fs s0)).
    + intros r [<-|(s0 & Hs0 & ->)].
      * exists s. split; [left|reflexivity].
      * exists s0. split; [now right|reflexivity].
    + intros r (s0 & Hs0 & ->). apply Hb.
      apply elem_of_cons in Hs0 as [->|Hs0]; [now left|].
      right. now exists s0.
    + now split.
Qed.

Lemma within_reachable (k : nat) (n m : Path) :
  within fs k n m -> reachable fs n m.
Proof. intros H. now exists k. Qed.

Lemma reachable_link (n x m : Path) :
  link fs n x -> reachable fs x m -> reachable fs n m.
Proof. intros Hl (k & Hk). exists (S k). now apply within_link with x. Qed.

Lemma collect_recursive_post (fuel : nat) :
  forall index_path cd st st',
    collect_recursive fs depth fuel index_path cd st = Some st' ->
    post (eq (resolve fs index_path)) cd st st'.
Proof.
  induction fuel as [|fuel IH]; intros p cd st st'; simpl; [discriminate|].
  set (n := resolve fs p).
  destruct (decide (n ∈ visited st)) as [Hvis|Hfresh].
  { intros [= <-]. apply post_skip. now intros r <-. }
  assert (Hbase : forall st0,
    st0 = (if path_exists fs n then collect (mark_visited st n) n
           else mark_visited st n) ->
    (path_exists fs n = true -> depth < 0 ->
     forall m, link fs n m -> False) ->
    post (eq n) cd st st0).
  { intros st0 -> Hleaf.
    assert (Hv : visited (if path_exists fs n
                          then collect (mark_visited st n) n
                          else mark_visited st n) = {[n]} ∪ visited st)
      by now destruct (path_exists fs n).
    split; [rewrite Hv; set_solver|].
    split; [intros r <-; rewrite Hv; set_solver|]. split.
    - exists (if path_exists fs n then [n] else []). split.
      { destruct (path_exists fs n); simpl; [reflexivity|].
        now rewrite app_nil_r. }
      split.
      { destruct (path_exists fs n);
          [apply NoDup_singleton|apply NoDup_nil_2]. }
      intros x. rewrite Hv. destruct (path_exists fs n) eqn:He.
      + rewrite list_elem_of_singleton. split.
        * intros ->. split; [set_solver|]. now split.
        * intros (H1 & H2 & _). set_solver.
      + split.
        * intros H. now apply elem_of_nil in H.
        * intros (H1 & H2 & H3). assert (x = n) as -> by set_solver.
          congruence.
    - rewrite Hv. split.
      + intros x Hx Hnx. assert (x = n) as -> by set_solver.
        exists n. split; [reflexivity|].
        split; [exists 0%nat|intros _ _]; apply within_here.
      + intros Hd x Hx Hnx m Hm. assert (x = n) as -> by set_solver.
        exfalso. destruct Hm as (He & Hm').
        apply (Hleaf He Hd m). now split. }
  destruct (path_exists fs n) eqn:Hex.
  2:{ intros [= <-]. apply Hbase; [reflexivity|]. discriminate. }
  destruct ((depth >=? 0) && (cd >=? depth)) eqn:Hlim.
  { intros [= <-]. apply Hbase; [reflexivity|].
    intros _ Hd. apply andb_true_iff in Hlim as [H0 _]. lia. }
  destruct (get_subdirs fs n) as [subdirs|msg] eqn:Hsub.
  2:{ intros [= <-]. apply Hbase; [reflexivity|].
      intros _ _ m (_ & subs & s & Hs & _). congruence. }
  intros Hloop.
  set (st_a := collect (mark_visited st n) n) in *.
  apply (for_each_post _ (cd + 1)) in Hloop; [|intros s0 s1 s2; apply IH].
  destruct Hloop as (Hsub2 & Hroot2 & (new2 & Hc2 & Hnd2 & Hnew2)
                     & Hreach2 & Hclo2).
  assert (Hva : visited st_a = {[n]} ∪ visited st) by reflexivity.
  assert (Hlink : forall s, s ∈ subdirs -> link fs n (resolve fs s)).
  { intros s Hs. split; [exact Hex|]. now exists subdirs, s. }
  split; [rewrite Hva in Hsub2; set_solver|].
  split; [intros r <-; apply Hsub2; rewrite Hva; set_solver|]. split.
  - exists (n :: new2). split.
    { rewrite Hc2. subst st_a. simpl. now rewrite <- app_assoc. }
    split.
    { apply NoDup_cons. split; [|exact Hnd2].
      intros Hin. apply Hnew2 in Hin as (_ & Hout & _).
      apply Hout. rewrite Hva. set_solver. }
    intros x. rewrite elem_of_cons, Hnew2, Hva. split.
    + intros [->|(H1 & H2 & H3)].
      * split; [apply Hsub2; rewrite Hva; set_solver|]. now split.
      * split; [exact H1|]. split; [set_solver|exact H3].
    + intros (H1 & H2 & H3). destruct (decide (x = n)) as [->|Hne].
      * now left.
      * right. split; [exact H1|]. split; [set_solver|exact H3].
  - split.
    + intros x Hx Hnx. exists n. split; [reflexivity|].
      destruct (decide (x = n)) as [->|Hne].
      { split; [exists 0%nat|intros _ _]; apply within_here. }
      assert (Hout : x ∉ visited st_a) by (rewrite Hva; set_solver).
      destruct (Hreach2 x Hx Hout) as (r & (s & Hs & ->) & Hr & Hw).
      split; [now apply reachable_link with (resolve fs s); auto|].
      intros H0 Hcd.
      assert (Hlt : cd < depth).
      { apply andb_false_iff in Hlim as [H|H]; lia. }
      replace (Z.to_nat (depth - cd))
        with (S (Z.to_nat (depth - (cd + 1)))) by lia.
      apply within_link with (resolve fs s); [now apply Hlink|].
      apply Hw; lia.
    + intros Hd x Hx Hnx m Hm. destruct (decide (x = n)) as [->|Hne].
      * destruct Hm as (_ & subs & s & Hs & Hin & ->).
        apply Hroot2. exists s. split; [congruence|reflexivity].
      * apply (Hclo2 Hd x Hx); [rewrite Hva; set_solver|exact Hm].
Qed.

(** *** Enough fuel *)

Lemma size_difference_grow (U V : gset Path) (n : Path) :
  n ∈ U -> n ∉ V -> (size (U ∖ ({[n]} ∪ V)) < size (U ∖ V))%nat.
Proof.
  intros Hu Hv. apply subset_size. split; [set_solver|].
  intros H. assert (n ∈ U ∖ V) as Hn by set_solver.
  apply H in Hn. set_solver.
Qed.

Lemma collect_recursive_total (U : gset Path) :
  closed_under_links fs U ->
  forall fuel index_path cd st,
    resolve fs index_path ∈ U ->
    (size (U ∖ visited st) < fuel)%nat ->
    is_Some (collect_recursive fs depth fuel index_path cd st).
Proof.
  intros Hclosed. induction fuel as [|fuel IH]; intros p cd st Hp Hsize;
    simpl; [lia|].
  set (n := resolve fs p) in *.
  destruct (decide (n ∈ visited st)) as [Hvis|Hfresh]; [eauto|].
  destruct (path_exists fs n) eqn:Hex; [|eauto].
  destruct ((depth >=? 0) && (cd >=? depth)); [eauto|].
  destruct (get_subdirs fs n) as [subdirs|msg] eqn:Hsub; [|eauto].
  set (st_a := collect (mark_visited st n) n).
  assert (Hsize_a : (size (U ∖ visited st_a) < fuel)%nat).
  { pose proof (size_difference_grow U (visited st) n Hp Hfresh).
    change (visited st_a) with ({[n]} ∪ visited st). lia. }
  assert (Hall : forall s, s ∈ subdirs -> resolve fs s ∈ U).
  { intros s Hs. now apply (Hclosed n subdirs s). }
  clearbody st_a. clear Hsub. revert st_a Hsize_a.
  induction subdirs as [|s rest IHl]; intros st0 Hsize0; simpl; [eauto|].
  destruct (IH s (cd + 1) st0) as [st1 H1];
    [apply Hall; left|exact Hsize0|].
  rewrite H1. apply IHl.
  - intros s0 Hs0. apply Hall. now right.
  - apply collect_recursive_post in H1 as (Hgrow & _).
    assert (size (U ∖ visited st1) <= size (U ∖ visited st0))%nat
      by (apply subseteq_size; set_solver).
    lia.
Qed.

Lemma closed_reachable (V : gset Path) (n : Path) :
  n ∈ V ->
  (forall x, x ∈ V -> forall m, link fs x m -> m ∈ V) ->
  forall m, reachable fs n m -> m ∈ V.
Proof.
  intros Hn Hclo m (k & Hk). induction Hk as [k n|k n x m Hl Hk IH].
  - exact Hn.
  - apply IH. now apply (Hclo n).
Qed.

End CollectFacts.

Lemma collect_recursive_visited (fs : FileSystem) (depth : Z) (fuel : nat)
    (index_path : Path) (cd : Z) (st : State) :
  resolve fs index_path ∈ visited st ->
  collect_recursive fs depth (S fuel) index_path cd st = Some st.
Proof.
  intros H. simpl.
  destruct (decide (resolve fs index_path ∈ visited st)); [reflexivity|].
  contradiction.
Qed.

(** C8.  Given enough fuel for the finitely many index paths involved,
    the collector returns a list without repetition of existing index
    paths, each linked to the start.  With [depth >= 0] every collected
    path is at most [depth] links from the start, and [depth = 0] yields
    the start alone; with a negative [depth] (such as -1) every existing
    path linked to the start is collected.  A path whose resolved form is
    already in the visited set is left alone. *)
Theorem collect_index_paths_spec (fs : FileSystem) (start_index : Path)
    (depth : Z) (U : gset Path) (fuel : nat) :
  resolve fs start_index ∈ U ->
  closed_under_links fs U ->
  (size U < fuel)%nat ->
  exists c,
    collect_index_paths fs start_index depth fuel = Some c /\
    NoDup c /\
    (forall p, p ∈ c ->
       path_exists fs p = true /\
       reachable fs (resolve fs start_index) p) /\
    (0 <= depth ->
     forall p, p ∈ c ->
       within fs (Z.to_nat depth) (resolve fs start_index) p) /\
    (depth = 0 ->
     c = if path_exists fs (resolve fs start_index)
         then [resolve fs start_index] else []) /\
    (depth < 0 ->
     forall p, reachable fs (resolve fs start_index) p ->
               path_exists fs p = true -> p ∈ c) /\
    (forall f index_path cd st,
       resolve fs index_path ∈ visited st ->
       collect_recursive fs depth (S f) index_path cd st = Some st).
Proof.
  intros Hstart Hclosed Hfuel.
  destruct (collect_recursive_total fs depth U Hclosed fuel start_index 0
              initial Hstart) as [st Hst].
  { assert (size (U ∖ visited initial) <= size U)%nat
      by (apply subseteq_size; set_solver).
    lia. }
  pose proof (collect_recursive_post fs depth fuel _ _ _ _ Hst)
    as (_ & Hroot & (new & Hc & Hnd & Hnew) & Hreach & Hclo).
  simpl in Hc. exists (collected st).
  unfold collect_index_paths. rewrite Hst. split; [reflexivity|].
  rewrite Hc.
  assert (Hempty : forall x : Path, x ∉ visited initial)
    by (intros x; simpl; set_solver).
  split; [exact Hnd|]. split.
  { intros p Hp. apply Hnew in Hp as (Hv & Hn & He). split; [exact He|].
    destruct (Hreach p Hv Hn) as (r & <- & Hr & _). exact Hr. }
  split.
  { intros Hd p Hp. apply Hnew in Hp as (Hv & Hn & He).
    destruct (Hreach p Hv Hn) as (r & <- & _ & Hw).
    replace (Z.to_nat depth) with (Z.to_nat (depth - 0)) by (f_equal; lia).
    apply Hw; lia. }
  split.
  { intros ->. rewrite <- Hc. clear -Hst.
    destruct fuel as [|f]; [discriminate|]. simpl in Hst.
    destruct (decide (resolve fs start_index ∈ visited initial))
      as [Hin|_]; [simpl in Hin; set_solver|].
    destruct (path_exists fs (resolve fs start_index));
      now injection Hst as <-. }
  split.
  { intros Hd p Hp He. apply Hnew. split; [|split; [apply Hempty|exact He]].
    apply (closed_reachable fs (visited st) (resolve fs start_index)).
    - now apply Hroot.
    - intros x Hx m Hm. now apply (Hclo Hd x Hx (Hempty x)).
    - exact Hp. }
  intros f p cd st0. apply collect_recursive_visited.
Qed.

Lemma sample_universe_closed : closed_under_links sample_fs sample_universe.
Proof.
  intros n subdirs s Hn Hsub Hs. unfold sample_universe in *.
  rewrite !elem_of_union, !elem_of_singleton in Hn.
  destruct Hn as [[[-> | ->] | ->] | ->]; simpl in Hsub;
    try discriminate; injection Hsub as <-;
    repeat (apply elem_of_cons in Hs as [-> | Hs]);
    try (now apply elem_of_nil in Hs); simpl; set_solver.
Qed.

Lemma collect_index_paths_spec_witness :
  (size sample_universe < 5)%nat /\
  exists c,
    collect_index_paths sample_fs "/r/_index.db" 1 5 = Some c /\
    NoDup c /\
    forall p, p ∈ c -> within sample_fs 1 "/r/_index.db" p.
Proof.
  assert (Hsize : (size sample_universe < 5)%nat) by (vm_compute; lia).
  split; [exact Hsize|].
  assert (Hstart : resolve sample_fs "/r/_index.db" ∈ sample_universe)
    by (simpl; unfold sample_universe; set_solver).
  destruct (collect_index_paths_spec sample_fs "/r/_index.db" 1
              sample_universe 5 Hstart sample_universe_closed Hsize)
    as (c & Hc & Hnd & _ & Hw & _).
  exists c. split; [exact Hc|]. split; [exact Hnd|].
  apply Hw. lia.
Defined.

Example collect_sample_unlimited :
  collect_index_paths sample_fs "/r/_index.db" (-1) 5 =
  Some ["/r/_index.db"; "/r/a/_index.db"; "/r/a/c/_index.db"].
Proof. vm_compute. reflexivity. Qed.

Example collect_sample_depth_one :
  collect_index_paths sample_fs "/r/_index.db" 1 5 =
  Some ["/r/_index.db"; "/r/a/_index.db"].
Proof. vm_compute. reflexivity. Qed.

End Collect.

(** ** The HTTP reranker's request loop *)

Module Reranker.
Import ChainSearch (Try, Ok, Exc).

(** A Python [str] as its sequence of code points, so that [len] and
    slicing count characters. *)
Definition pystr := list N.

(** The one-character string "…" (U+2026). *)
Definition ellipsis : pystr := [8230%N].

(** ["<empty>"]. *)
Definition empty_marker : pystr :=
  [60; 101; 109; 112; 116; 121; 62]%N.

(** [c.isspace()] for a single character. *)
Definition isspace (c : N) : bool :=
  ((9 <=? c) && (c <=? 13) || (28 <=? c) && (c <=? 32) ||
   (c =? 133) || (c =? 160) || (c =? 5760) ||
   (8192 <=? c) && (c <=? 8202) || (c =? 8232) || (c =? 8233) ||
   (c =? 8239) || (c =? 8287) || (c =? 12288))%N.

(** [s.lstrip()], [s.rstrip()], [s.strip()]. *)
Fixpoint lstrip (s : pystr) : pystr :=
  match s with
  | c :: s' => if isspace c then lstrip s' else s
  | [] => []
  end.

Definition rstrip (s : pystr) : pystr := rev (lstrip (rev s)).

Definition strip (s : pystr) : pystr := rstrip (lstrip s).

(** The constructor's normalisation of its retry arguments. *)
Record Settings := {
  max_retries : Z;
  backoff_base_s : Q;
  backoff_max_s : Q
}.

Definition init (max_retries_arg : Z) (backoff_base_arg backoff_max_arg : Q)
    : Settings :=
  {| max_retries :=
       if negb (max_retries_arg =? 0) && (max_retries_arg >=? 0)
       then max_retries_arg else 3;
     backoff_base_s :=
       if negb (Qeq_bool backoff_base_arg 0) &&
          negb (Qle_bool backoff_base_arg 0)
       then backoff_base_arg else 1 # 2;
     backoff_max_s :=
       if negb (Qeq_bool backoff_max_arg 0) &&
          negb (Qle_bool backoff_max_arg 0)
       then backoff_max_arg else 8 |}.

(** The keyword defaults [max_retries=3, backoff_base_s=0.5,
    backoff_max_s=8.0]. *)
Definition default_settings : Settings := init 3 (1 # 2) 8.

(** What the loop reads from an [httpx] response. *)
Inductive JsonBody :=
| JsonObject (data : string)
| JsonOther (type_name : string).

Record Response := {
  (** [int(getattr(response, "status_code", 0) or 0)] *)
  status_code : Z;
  (** [response.text or ""]; [Exc] when the property raises *)
  text : Try pystr;
  (** [response.headers.get("Retry-After")] *)
  retry_after_header : option pystr;
  (** [response.json()] *)
  json : Try JsonBody
}.

Inductive PostOutcome :=
| PostRaised (exc : string)
| PostResponse (r : Response).

(** The surroundings of one call of [_request_json]: what the
    [attempt]-th POST yields, what [random.uniform] draws before the
    [attempt]-th sleep, and the built-in [float(...)] on header values
    ([None] for [ValueError]). *)
Record World := {
  post : nat -> PostOutcome;
  jitter : nat -> Q;
  float_of_str : pystr -> option PyFloat.t
}.

(** The exceptions that leave [_request_json]: its [RuntimeError]s, and
    the [OverflowError] of [_sleep_backoff]. *)
Inductive Error :=
| RequestFailed (attempts : Z) (exc : string)
| Unauthorized (status : Z)
| HttpError (status : Z) (response_text : pystr)
| InvalidJson (exc : string)
| NotAnObject (type_name : string)
| LoopExhausted
| BackoffOverflow.

Inductive Event :=
| Posted (attempt : nat)
| Slept (seconds : Q).

(** [_should_retry_status]. *)
Definition should_retry_status (status_code : Z) : bool :=
  (status_code =? 429) || ((500 <=? status_code) && (status_code <=? 599)).

(** [_parse_retry_after_seconds]. *)
Definition parse_retry_after_seconds (w : World) (header : option pystr)
    : option PyFloat.t :=
  let value := strip (match header with Some v => v | None => [] end) in
  match value with
  | [] => None
  | _ :: _ => float_of_str w value
  end.

(** [_sleep_backoff]: the number of seconds it sleeps.  In
    [backoff_base_s * (2**attempt)] the integer [2**attempt] is converted
    to a float, which raises [OverflowError] from [2**1024] on. *)
Definition sleep_backoff (cfg : Settings) (w : World) (attempt : nat)
    (retry_after_s : option PyFloat.t) : Try Q :=
  let exponential :=
    if 1024 <=? Z.of_nat attempt then Exc "OverflowError"
    else
      let exp := (backoff_base_s cfg * inject_Z (2 ^ Z.of_nat attempt))%Q in
      Ok (Py.min (backoff_max_s cfg) (exp + jitter w attempt)) in
  match retry_after_s with
  | Some ra =>
      if PyFloat.gt0 ra then
        Ok match ra with
           | PyFloat.Finite v => Py.min v (backoff_max_s cfg)
           | _ => backoff_max_s cfg
           end
      else exponential
  | None => exponential
  end.

(** The [body_preview] computed for a status [>= 400]. *)
Definition body_preview (r : Response) : pystr :=
  let preview := match text r with Ok t => strip t | Exc _ => [] end in
  if (300 <? length preview)%nat then (take 300 preview ++ ellipsis)%list
  else preview.

(** The iterations of the [for attempt in range(max_retries + 1)] loop
    from [attempt] on, [remaining] of them; returns the result and the
    POSTs and sleeps in the order they happen. *)
Fixpoint request_loop (cfg : Settings) (w : World) (remaining : nat)
    (attempt : nat) : (string + Error) * list Event :=
  match remaining with
  | O => (inr LoopExhausted, [])
  | S remaining' =>
      let retry retry_after_s :=
        match sleep_backoff cfg w attempt retry_after_s with
        | Exc _ => (inr BackoffOverflow, [Posted attempt])
        | Ok seconds =>
            let '(result, events) :=
              request_loop cfg w remaining' (S attempt) in
            (result, Posted attempt :: Slept seconds :: events)
        end in
      let stop (result : string + Error) := (result, [Posted attempt]) in
      match post w attempt with
      | PostRaised exc =>
          if Z.of_nat attempt <? max_retries cfg then retry None
          else stop (inr (RequestFailed (max_retries cfg + 1) exc))
      | PostResponse response =>
          let status := status_code response in
          if status >=? 400 then
            let preview := body_preview response in
            if should_retry_status status &&
               (Z.of_nat attempt <? max_retries cfg)
            then retry (parse_retry_after_seconds w
                          (retry_after_header response))
            else if (status =? 401) || (status =? 403)
            then stop (inr (Unauthorized status))
            else stop (inr (HttpError status
                              (match preview with
                               | [] => empty_marker
                               | _ :: _ => preview
                               end)))
          else
            match json response with
            | Exc exc => stop (inr (InvalidJson exc))
            | Ok (JsonOther type_name) => stop (inr (NotAnObject type_name))
            | Ok (JsonObject data) => stop (inl data)
            end
      end
  end.

Definition request_json (cfg : Settings) (w : World)
    : (string + Error) * list Event :=
  request_loop cfg w (Z.to_nat (max_retries cfg + 1)) 0.


(** A server that answers 503 with [Retry-After: 2], then 429 without the
    header, then 404 with a long body. *)
Definition sample_world : World := {|
  post := fun attempt =>
    PostResponse
      match attempt with
      | 0%nat => {| status_code := 503; text := Ok [];
                    retry_after_header := Some [32; 50]%N;
                    json := Exc "no body" |}
      | 1%nat => {| status_code := 429; text := Ok [];
                    retry_after_header := None; json := Exc "no body" |}
      | _ => {| status_code := 404; text := Ok (repeat 120%N 400);
                retry_after_header := None; json := Exc "no body" |}
      end;
  jitter := fun _ => 1 # 4;
  float_of_str := fun v =>
    match v with
    | [50%N] => Some (PyFloat.Finite 2)
    | _ => None
    end
|}.





Lemma py_min_le_l (a b : Q) : (Py.min a b <= a)%Q.
Proof.
  destruct (Py.min_cases a b) as [[-> _]|[-> H]];
    [apply Qle_refl|now apply Qlt_le_weak].
Qed.

Lemma py_min_le_r (a b : Q) : (Py.min a b <= b)%Q.
Proof.
  destruct (Py.min_cases a b) as [[-> H]|[-> _]];
    [exact H|apply Qle_refl].
Qed.

Lemma sleep_backoff_capped (cfg : Settings) (w : World) (attempt : nat)
    (retry_after_s : option PyFloat.t) (seconds : Q) :
  sleep_backoff cfg w attempt retry_after_s = Ok seconds ->
  (seconds <= backoff_max_s cfg)%Q.
Proof.
  unfold sleep_backoff. cbv zeta.
  set (exponential :=
         if 1024 <=? Z.of_nat attempt then Exc "OverflowError" else _).
  assert (Hexp : exponential = Ok seconds ->
                 (seconds <= backoff_max_s cfg)%Q).
  { subst exponential. destruct (1024 <=? Z.of_nat attempt); [discriminate|].
    intros [= <-]. apply py_min_le_l. }
  destruct retry_after_s as [ra|]; [|exact Hexp].
  destruct (PyFloat.gt0 ra); [|exact Hexp].
  intros [= <-]. destruct ra; try apply Qle_refl. apply py_min_le_r.
Qed.












Example request_json_sample :
  snd (request_json default_settings sample_world) =
  [Posted 0; Slept 2; Posted 1; Slept (10 # 8); Posted 2].
Proof. reflexivity. Qed.

End Reranker.

(** ** The fusion kernel: weight normalisation and reciprocal-rank fusion *)

Module Fusion.
Import Entities.

(** A mapping source -> weight, and a mapping source -> ranked results. *)
Definition Weights := list (string * PyFloat.t).
Definition BackendResults := list (string * list SearchResult).

(** Modelled from the spec: [normalize_weights] of
    [codexlens/search/ranking.py], which is not among the sources; section
    4.2, "Weight normalization": compute the total; if it is not finite or
    not strictly positive return the mapping unchanged, otherwise divide
    each weight by the total. *)
Definition normalize_weights (weights : Weights) : Weights :=
  match PyFloat.sum (snd <$> weights) with
  | PyFloat.Finite total =>
      if PyFloat.gt0 (PyFloat.Finite total)
      then (fun '(source, w) => (source, PyFloat.div_pos w total)) <$> weights
      else weights
  | _ => weights
  end.

(** Modelled from the spec: the per-source deduplication of
    [reciprocal_rank_fusion] ("if a path appears twice, the first
    occurrence wins (deduplicate before accumulating)"); [seen] holds the
    paths met so far. *)
Fixpoint first_occurrences (seen : list string) (rs : list SearchResult)
    : list SearchResult :=
  match rs with
  | [] => []
  | r :: rs' =>
      if existsb (String.eqb (path r)) seen
      then first_occurrences seen rs'
      else r :: first_occurrences (path r :: seen) rs'
  end.

(** Modelled from the spec: "for each result at 1-based rank r,
    contribute w_s / (k + r) to the accumulator keyed by path", for one
    source whose next rank is [rank]. *)
Fixpoint add_source (w : PyFloat.t) (k rank : Z) (rs : list SearchResult)
    (scores : list (string * PyFloat.t)) : list (string * PyFloat.t) :=
  match rs with
  | [] => scores
  | r :: rs' =>
      let old := match Py.dict_get String.eqb scores (path r) with
                 | Some x => x
                 | None => PyFloat.Finite 0
                 end in
      add_source w k (rank + 1) rs'
        (Py.dict_set String.eqb scores (path r)
           (PyFloat.add old (PyFloat.div_pos w (inject_Z (k + rank)))))
  end.

(** Modelled from the spec: the accumulation over the sources; "a source
    with weight 0 contributes no scores and is effectively ignored", and
    so is a source the weights do not mention. *)
Definition accumulate_step (weights : Weights) (k : Z)
    (scores : list (string * PyFloat.t))
    (entry : string * list SearchResult) : list (string * PyFloat.t) :=
  let '(source, rs) := entry in
  match Py.dict_get String.eqb weights source with
  | None => scores
  | Some w =>
      if PyFloat.is_zero w then scores
      else add_source w k 1 (first_occurrences [] rs) scores
  end.

Definition accumulate (results_map : BackendResults) (weights : Weights)
    (k : Z) : list (string * PyFloat.t) :=
  fold_left (accumulate_step weights k) results_map [].

(** Modelled from the spec: "sorted by accumulated score descending",
    ties in insertion order. *)
Fixpoint insert_fused (x : string * PyFloat.t)
    (l : list (string * PyFloat.t)) : list (string * PyFloat.t) :=
  match l with
  | [] => [x]
  | y :: l' =>
      if PyFloat.leb (snd x) (snd y) then y :: insert_fused x l'
      else x :: y :: l'
  end.

Definition sort_fused (l : list (string * PyFloat.t))
    : list (string * PyFloat.t) :=
  fold_left (fun acc x => insert_fused x acc) l [].

(** Modelled from the spec: [reciprocal_rank_fusion] of
    [codexlens/search/ranking.py], which is not among the sources; section
    4.2, "Reciprocal-rank fusion", with the weights normalised first
    (section 8).  The output is the list of (path, fused score); the
    choice of the representative result and its metadata are left out. *)
Definition reciprocal_rank_fusion (results_map : BackendResults)
    (weights : Weights) (k : Z) : list (string * PyFloat.t) :=
  sort_fused (accumulate results_map (normalize_weights weights) k).

(** The 1-based rank of path [p] among the results [rs], counting from
    [rank]. *)
Fixpoint rank_from (rank : Z) (p : string) (rs : list SearchResult)
    : option Z :=
  match rs with
  | [] => None
  | r :: rs' =>
      if String.eqb p (path r) then Some rank
      else rank_from (rank + 1) p rs'
  end.

(** The terms [w_s / (k + r)] of path [p], one for each source that ranks
    it and has a non-zero weight, in the order of the sources. *)
Definition contribution (weights : Weights) (k : Z) (p : string)
    (entry : string * list SearchResult) : list PyFloat.t :=
  let '(source, rs) := entry in
  match Py.dict_get String.eqb weights source with
  | None => []
  | Some w =>
      if PyFloat.is_zero w then []
      else match rank_from 1 p (first_occurrences [] rs) with
           | Some r => [PyFloat.div_pos w (inject_Z (k + r))]
           | None => []
           end
  end.

Definition contributions (results_map : BackendResults) (weights : Weights)
    (k : Z) (p : string) : list PyFloat.t :=
  flat_map (contribution weights k p) results_map.

(** The sum the specification writes as
    [score(p) = sum over s of w_s / (k + rank_s(p))]. *)
Definition rrf_sum (results_map : BackendResults) (weights : Weights)
    (k : Z) (p : string) : PyFloat.t :=
  PyFloat.sum (contributions results_map weights k p).

(** The same sum taken over every source that ranks [p], the sources of
    weight zero included. *)
Definition contribution_all (weights : Weights) (k : Z) (p : string)
    (entry : string * list SearchResult) : list PyFloat.t :=
  let '(source, rs) := entry in
  match Py.dict_get String.eqb weights source with
  | None => []
  | Some w =>
      match rank_from 1 p (first_occurrences [] rs) with
      | Some r => [PyFloat.div_pos w (inject_Z (k + r))]
      | None => []
      end
  end.

Definition rrf_sum_all (results_map : BackendResults) (weights : Weights)
    (k : Z) (p : string) : PyFloat.t :=
  PyFloat.sum (flat_map (contribution_all weights k p) results_map).

(** [scores.get(path, 0)]. *)
Definition or_zero (x : option PyFloat.t) : PyFloat.t :=
  match x with Some v => v | None => PyFloat.Finite 0 end.

(** The accumulator entry that a list of contributions amounts to. *)
Definition entry_of (cs : list PyFloat.t) : option PyFloat.t :=
  match cs with
  | [] => None
  | _ :: _ => Some (PyFloat.sum cs)
  end.

Definition sample_exact : list SearchResult :=
  [ChainSearch.sample_result "a.py" 10 "..."; ChainSearch.sample_result "b.py" 8 "...";
   ChainSearch.sample_result "a.py" 7 "..."].

Definition sample_fuzzy : list SearchResult :=
  [ChainSearch.sample_result "b.py" 9 "..."; ChainSearch.sample_result "c.py" 5 "..."].

(** *** Facts about the accumulation *)

Lemma first_occurrences_fresh (seen : list string) (rs : list SearchResult)
    (r : SearchResult) :
  r ∈ first_occurrences seen rs -> path r ∉ seen.
Proof.
  revert seen. induction rs as [|r0 rs IH]; intros seen; simpl.
  - intros H. now apply elem_of_nil in H.
  - destruct (existsb (String.eqb (path r0)) seen) eqn:E; [apply IH|].
    intros H. apply elem_of_cons in H as [->|H].
    + intros Hin. apply list_elem_of_In in Hin.
      assert (existsb (String.eqb (path r0)) seen = true); [|congruence].
      apply existsb_exists. exists (path r0).
      split; [exact Hin|apply String.eqb_refl].
    + intros Hin. apply (IH _ H). now right.
Qed.

Lemma first_occurrences_NoDup (seen : list string) (rs : list SearchResult) :
  NoDup (path <$> first_occurrences seen rs).
Proof.
  revert seen. induction rs as [|r0 rs IH]; intros seen; simpl.
  - apply NoDup_nil_2.
  - destruct (existsb (String.eqb (path r0)) seen); [apply IH|].
    rewrite fmap_cons. apply NoDup_cons. split; [|apply IH].
    intros Hin. apply list_elem_of_fmap in Hin as (r & Hp & Hr).
    apply first_occurrences_fresh in Hr. apply Hr. rewrite Hp. left.
Qed.

Lemma rank_from_None (rank : Z) (p : string) (rs : list SearchResult) :
  p ∉ path <$> rs -> rank_from rank p rs = None.
Proof.
  revert rank. induction rs as [|r rs IH]; intros rank Hp; simpl;
    [reflexivity|].
  rewrite fmap_cons in Hp.
  destruct (String.eqb_spec p (path r)) as [->|Hne].
  - exfalso. apply Hp. left.
  - apply IH. intros H. apply Hp. now right.
Qed.

Lemma add_source_get (w : PyFloat.t) (k : Z) (rs : list SearchResult) :
  forall rank scores p,
    NoDup (path <$> rs) ->
    Py.dict_get String.eqb (add_source w k rank rs scores) p =
    match rank_from rank p rs with
    | Some r =>
        Some (PyFloat.add (or_zero (Py.dict_get String.eqb scores p))
                          (PyFloat.div_pos w (inject_Z (k + r))))
    | None => Py.dict_get String.eqb scores p
    end.
Proof.
  induction rs as [|r rs IH]; intros rank scores p Hnd; simpl;
    [reflexivity|].
  rewrite fmap_cons in Hnd. apply NoDup_cons in Hnd as [Hfresh Hnd].
  rewrite (IH _ _ _ Hnd), (Py.dict_get_set _ ChainSearch.string_eqb_eq).
  destruct (String.eqb_spec p (path r)) as [->|Hne].
  - now rewrite (rank_from_None _ _ _ Hfresh).
  - reflexivity.
Qed.

Lemma add_source_NoDup (w : PyFloat.t) (k : Z) (rs : list SearchResult) :
  forall rank scores,
    NoDup (fst <$> scores) ->
    NoDup (fst <$> add_source w k rank rs scores).
Proof.
  induction rs as [|r rs IH]; intros rank scores Hnd; simpl; [exact Hnd|].
  apply IH. now apply (Py.dict_set_NoDup _ ChainSearch.string_eqb_eq).
Qed.

Lemma sum_snoc (cs : list PyFloat.t) (c : PyFloat.t) :
  PyFloat.sum (cs ++ [c]) = PyFloat.add (PyFloat.sum cs) c.
Proof. unfold PyFloat.sum. now rewrite fold_left_app. Qed.

Lemma entry_of_snoc (cs : list PyFloat.t) (c : PyFloat.t) :
  entry_of (cs ++ [c]) = Some (PyFloat.add (or_zero (entry_of cs)) c).
Proof.
  destruct cs as [|c0 cs]; [reflexivity|].
  change (entry_of ((c0 :: cs) ++ [c]))
    with (Some (PyFloat.sum ((c0 :: cs) ++ [c]))).
  now rewrite sum_snoc.
Qed.

Lemma accumulate_step_get (weights : Weights) (k : Z)
    (scores : list (string * PyFloat.t))
    (entry : string * list SearchResult) (p : string)
    (cs : list PyFloat.t) :
  Py.dict_get String.eqb scores p = entry_of cs ->
  Py.dict_get String.eqb (accumulate_step weights k scores entry) p =
  entry_of (cs ++ contribution weights k p entry).
Proof.
  intros Hget. destruct entry as [source rs].
  unfold accumulate_step, contribution.
  destruct (Py.dict_get String.eqb weights source) as [w|];
    [|now rewrite app_nil_r].
  destruct (PyFloat.is_zero w); [now rewrite app_nil_r|].
  rewrite add_source_get by apply first_occurrences_NoDup.
  destruct (rank_from 1 p (first_occurrences [] rs)) as [r|].
  - now rewrite entry_of_snoc, Hget.
  - now rewrite app_nil_r.
Qed.

Lemma accumulate_step_NoDup (weights : Weights) (k : Z)
    (scores : list (string * PyFloat.t))
    (entry : string * list SearchResult) :
  NoDup (fst <$> scores) ->
  NoDup (fst <$> accumulate_step weights k scores entry).
Proof.
  intros Hnd. destruct entry as [source rs]. unfold accumulate_step.
  destruct (Py.dict_get String.eqb weights source) as [w|]; [|exact Hnd].
  destruct (PyFloat.is_zero w); [exact Hnd|]. now apply add_source_NoDup.
Qed.

Lemma accumulate_fold (weights : Weights) (k : Z) (p : string)
    (results_map : BackendResults) :
  forall scores cs,
    NoDup (fst <$> scores) ->
    Py.dict_get String.eqb scores p = entry_of cs ->
    let scores' := fold_left (accumulate_step weights k) results_map scores in
    NoDup (fst <$> scores') /\
    Py.dict_get String.eqb scores' p =
    entry_of (cs ++ flat_map (contribution weights k p) results_map).
Proof.
  induction results_map as [|entry rest IH]; intros scores cs Hnd Hget;
    simpl.
  - rewrite app_nil_r. now split.
  - rewrite app_assoc. apply IH.
    + now apply accumulate_step_NoDup.
    + now apply accumulate_step_get.
Qed.

Lemma accumulate_get (results_map : BackendResults) (weights : Weights)
    (k : Z) (p : string) :
  NoDup (fst <$> accumulate results_map weights k) /\
  Py.dict_get String.eqb (accumulate results_map weights k) p =
  entry_of (contributions results_map weights k p).
Proof.
  apply (accumulate_fold weights k p results_map [] []).
  - rewrite fmap_nil. apply NoDup_nil_2.
  - reflexivity.
Qed.

Lemma insert_fused_perm (x : string * PyFloat.t)
    (l : list (string * PyFloat.t)) :
  insert_fused x l ≡ₚ x :: l.
Proof.
  induction l as [|y l IH]; simpl; [reflexivity|].
  destruct (PyFloat.leb (snd x) (snd y)); [|reflexivity].
  rewrite IH. apply Permutation_swap.
Qed.

Lemma sort_fused_perm (l : list (string * PyFloat.t)) : sort_fused l ≡ₚ l.
Proof.
  unfold sort_fused.
  enough (forall acc,
    fold_left (fun acc x => insert_fused x acc) l acc ≡ₚ (acc ++ l)%list)
    as H by now rewrite H.
  induction l as [|x l IH]; intros acc; simpl.
  - now rewrite app_nil_r.
  - rewrite IH, insert_fused_perm. simpl. apply Permutation_middle.
Qed.

Lemma add_zero_equiv (c : PyFloat.t) :
  PyFloat.equiv (PyFloat.add (PyFloat.Finite 0) c) c.
Proof. destruct c; simpl; try exact I. apply Qplus_0_l. Qed.

(** *** Facts about the normalisation *)

Lemma fold_add_nonfinite (l : list PyFloat.t) :
  forall a, PyFloat.is_finite a = false ->
            PyFloat.is_finite (fold_left PyFloat.add l a) = false.
Proof.
  induction l as [|x l IH]; intros a Ha; simpl; [exact Ha|].
  apply IH. destruct a, x; simpl in *; congruence.
Qed.

Lemma sum_finite_inv (l : list PyFloat.t) :
  forall a t,
    fold_left PyFloat.add l (PyFloat.Finite a) = PyFloat.Finite t ->
    exists qs, l = PyFloat.Finite <$> qs /\ t = fold_left Qplus qs a.
Proof.
  induction l as [|x l IH]; intros a t; simpl.
  - intros [= <-]. now exists [].
  - destruct x as [q| | |]; simpl.
    + intros H. destruct (IH _ _ H) as (qs & -> & ->). now exists (q :: qs).
    + intros H. pose proof (fold_add_nonfinite l PyFloat.PosInf eq_refl) as F.
      rewrite H in F. discriminate.
    + intros H. pose proof (fold_add_nonfinite l PyFloat.NegInf eq_refl) as F.
      rewrite H in F. discriminate.
    + intros H. pose proof (fold_add_nonfinite l PyFloat.NaN eq_refl) as F.
      rewrite H in F. discriminate.
Qed.

Lemma fold_Qplus_div (qs : list Q) (t : Q) :
  forall a b, (b == a / t)%Q ->
    (fold_left Qplus ((fun x => x / t)%Q <$> qs) b ==
     fold_left Qplus qs a / t)%Q.
Proof.
  induction qs as [|q qs IH]; intros a b Hab; simpl; [exact Hab|].
  apply IH. rewrite Hab. unfold Qdiv. now rewrite Qmult_plus_distr_l.
Qed.

Lemma equiv_refl (a : PyFloat.t) : PyFloat.equiv a a.
Proof. destruct a; simpl; try exact I. reflexivity. Qed.

Lemma add_equiv (a b c : PyFloat.t) :
  PyFloat.equiv a b -> PyFloat.equiv (PyFloat.add a c) (PyFloat.add b c).
Proof.
  destruct a, b, c; simpl; try tauto. intros H. now rewrite H.
Qed.

Lemma add_zero_r_equiv (a b : PyFloat.t) (z : Q) :
  (z == 0)%Q -> PyFloat.equiv a b ->
  PyFloat.equiv a (PyFloat.add b (PyFloat.Finite z)).
Proof.
  destruct a, b; simpl; try tauto. intros Hz H.
  now rewrite Hz, Qplus_0_r.
Qed.

Lemma fold_add_equiv (cs : list PyFloat.t) :
  forall a b, PyFloat.equiv a b ->
    PyFloat.equiv (fold_left PyFloat.add cs a) (fold_left PyFloat.add cs b).
Proof.
  induction cs as [|c cs IH]; intros a b H; simpl; [exact H|].
  apply IH. now apply add_equiv.
Qed.

Lemma is_zero_div (w : PyFloat.t) (d : Q) :
  PyFloat.is_zero w = true ->
  exists z, PyFloat.div_pos w d = PyFloat.Finite z /\ (z == 0)%Q.
Proof.
  destruct w as [x| | |]; simpl; try discriminate. intros H.
  apply Qeq_bool_iff in H. exists (x / d)%Q. split; [reflexivity|].
  rewrite H. unfold Qdiv. apply Qmult_0_l.
Qed.

Lemma rrf_sum_all_equiv (results_map : BackendResults) (weights : Weights)
    (k : Z) (p : string) :
  PyFloat.equiv (rrf_sum results_map weights k p)
                (rrf_sum_all results_map weights k p).
Proof.
  unfold rrf_sum, rrf_sum_all, contributions, PyFloat.sum.
  generalize (equiv_refl (PyFloat.Finite 0)).
  generalize (PyFloat.Finite 0) at 1 3.
  generalize (PyFloat.Finite 0).
  induction results_map as [|[source rs] rest IH]; intros b a Hab; simpl;
    [exact Hab|].
  rewrite !fold_left_app. apply IH.
  destruct (Py.dict_get String.eqb weights source) as [w|]; [|exact Hab].
  destruct (rank_from 1 p (first_occurrences [] rs)) as [r|].
  - destruct (PyFloat.is_zero w) eqn:Hz; simpl.
    + destruct (is_zero_div w (inject_Z (k + r)) Hz) as (z & -> & Hz0).
      now apply add_zero_r_equiv.
    + now apply add_equiv.
  - now destruct (PyFloat.is_zero w).
Qed.

Lemma fold_add_finite (qs : list Q) :
  forall a,
    fold_left PyFloat.add (PyFloat.Finite <$> qs) (PyFloat.Finite a) =
    PyFloat.Finite (fold_left Qplus qs a).
Proof. induction qs as [|q qs IH]; intros a; simpl; [reflexivity|apply IH]. Qed.

Lemma normalized_values (weights : Weights) (t : Q) :
  snd <$> ((fun '(source, w) => (source, PyFloat.div_pos w t)) <$> weights)
  = (fun w => PyFloat.div_pos w t) <$> (snd <$> weights).
Proof.
  induction weights as [|[source w] weights IH]; [reflexivity|].
  rewrite !fmap_cons. simpl. now rewrite IH.
Qed.

(** C3.  When the total of the weights is NaN, infinite, zero or
    negative, [normalize_weights] returns its argument as it is, and
    fusion runs on exactly those weights; when the total is finite and
    strictly positive, each weight is divided by it and the normalised
    weights add up to 1. *)
Theorem normalize_weights_spec (weights : Weights) :
  let total := PyFloat.sum (snd <$> weights) in
  ((total = PyFloat.NaN \/ total = PyFloat.PosInf \/
    total = PyFloat.NegInf \/
    exists t, total = PyFloat.Finite t /\ (t <= 0)%Q) ->
   normalize_weights weights = weights /\
   forall results_map k,
     reciprocal_rank_fusion results_map weights k =
     sort_fused (accumulate results_map weights k)) /\
  (forall t, total = PyFloat.Finite t -> (0 < t)%Q ->
     normalize_weights weights =
       (fun '(source, w) => (source, PyFloat.div_pos w t)) <$> weights /\
     (exists qs, snd <$> weights = PyFloat.Finite <$> qs /\
                 snd <$> normalize_weights weights =
                 PyFloat.Finite <$> ((fun q => q / t)%Q <$> qs)) /\
     PyFloat.equiv (PyFloat.sum (snd <$> normalize_weights weights))
                   (PyFloat.Finite 1)).
Proof.
  intros total. split.
  - intros Hbad.
    assert (Hsame : normalize_weights weights = weights).
    { unfold normalize_weights. fold total.
      destruct Hbad as [-> | [-> | [-> | (t & -> & Ht)]]];
        try reflexivity.
      simpl. apply Qle_bool_iff in Ht. now rewrite Ht. }
    split; [exact Hsame|]. intros results_map k.
    unfold reciprocal_rank_fusion. now rewrite Hsame.
  - intros t Htotal Ht.
    assert (Hnorm : normalize_weights weights =
      (fun '(source, w) => (source, PyFloat.div_pos w t)) <$> weights).
    { unfold normalize_weights. fold total. rewrite Htotal. simpl.
      destruct (Qle_bool t 0) eqn:E; [|reflexivity].
      apply Qle_bool_iff in E. exfalso.
      apply (Qlt_irrefl 0). now apply Qlt_le_trans with t. }
    split; [exact Hnorm|].
    destruct (sum_finite_inv (snd <$> weights) 0 t Htotal)
      as (qs & Hqs & Hsum).
    assert (Hvals : snd <$> normalize_weights weights =
                    PyFloat.Finite <$> ((fun q => q / t)%Q <$> qs)).
    { rewrite Hnorm, normalized_values, Hqs.
      rewrite <- !list_fmap_compose. reflexivity. }
    split; [now exists qs|].
    rewrite Hvals. unfold PyFloat.sum. rewrite fold_add_finite. simpl.
    rewrite (fold_Qplus_div qs t 0 0) by (unfold Qdiv; now rewrite Qmult_0_l).
    rewrite <- Hsum. unfold Qdiv. apply Qmult_inv_r.
    intros H0. rewrite H0 in Ht. now apply (Qlt_irrefl 0).
Qed.

(** C2.  For [k >= 0], the fused list has one entry per path that some
    source with a non-zero normalised weight ranks, and the score of that
    entry is the sum over those sources of [w_s / (k + r)], [r] being the
    1-based rank of the path in the source; it is the same number as the
    sum over all sources that rank the path.  Every divisor [k + r] is
    positive.  With a single source, the result ranked first in it gets
    the score [w / (k + 1)] for the normalised weight [w]. *)
Theorem rrf_scores (results_map : BackendResults) (weights : Weights)
    (k : Z) :
  0 <= k ->
  let w := normalize_weights weights in
  let fused := reciprocal_rank_fusion results_map weights k in
  NoDup (fst <$> fused) /\
  (forall p sc,
     (p, sc) ∈ fused <->
     (contributions results_map w k p <> [] /\
      sc = rrf_sum results_map w k p)) /\
  (forall p sc,
     (p, sc) ∈ fused ->
     PyFloat.equiv sc (rrf_sum_all results_map w k p)) /\
  (forall r, 1 <= r -> (0 < inject_Z (k + r))%Q) /\
  (forall s x rest w1,
     results_map = [(s, x :: rest)] ->
     Py.dict_get String.eqb w s = Some w1 ->
     PyFloat.is_zero w1 = false ->
     exists sc,
       (path x, sc) ∈ fused /\
       PyFloat.equiv sc (PyFloat.div_pos w1 (inject_Z (k + 1)))).
Proof.
  intros Hk w fused.
  assert (Hperm : fused ≡ₚ accumulate results_map w k)
    by apply sort_fused_perm.
  assert (Hnd : NoDup (fst <$> fused)).
  { rewrite Hperm. apply (accumulate_get results_map w k ""). }
  assert (Hiff : forall p sc,
    (p, sc) ∈ fused <->
    (contributions results_map w k p <> [] /\
     sc = rrf_sum results_map w k p)).
  { intros p sc. rewrite Hperm.
    destruct (accumulate_get results_map w k p) as (Hnd' & Hget).
    unfold rrf_sum. split.
    - intros Hin.
      apply (Py.elem_of_dict_get _ ChainSearch.string_eqb_eq) in Hin;
        [|exact Hnd'].
      rewrite Hget in Hin.
      destruct (contributions results_map w k p); [discriminate|].
      injection Hin as <-. split; [discriminate|reflexivity].
    - intros (Hne & ->).
      apply (Py.dict_get_elem_of _ ChainSearch.string_eqb_eq).
      rewrite Hget.
      destruct (contributions results_map w k p); [contradiction|].
      reflexivity. }
  split; [exact Hnd|]. split; [exact Hiff|]. split.
  { intros p sc Hin. apply Hiff in Hin as (_ & ->).
    apply rrf_sum_all_equiv. }
  split.
  { intros r Hr. unfold Qlt. simpl. lia. }
  intros s x rest w1 -> Hw Hnz.
  assert (Hcs : contributions [(s, x :: rest)] w k (path x) =
                [PyFloat.div_pos w1 (inject_Z (k + 1))]).
  { unfold contributions. simpl. rewrite Hw, Hnz.
    now rewrite String.eqb_refl. }
  exists (rrf_sum [(s, x :: rest)] w k (path x)). split.
  - apply Hiff. split; [|reflexivity]. now rewrite Hcs.
  - unfold rrf_sum. rewrite Hcs. apply add_zero_equiv.
Qed.

Lemma rrf_scores_witness :
  0 <= 60 /\
  exists sc,
    ("a.py", sc) ∈
      reciprocal_rank_fusion [("exact", sample_exact)]
                             [("exact", PyFloat.Finite 2)] 60 /\
    PyFloat.equiv sc (PyFloat.Finite (1 # 61)).
Proof.
  assert (H60 : 0 <= 60) by lia. split; [exact H60|].
  destruct (rrf_scores [("exact", sample_exact)]
              [("exact", PyFloat.Finite 2)] 60 H60)
    as (_ & _ & _ & _ & Hfirst).
  destruct (Hfirst "exact" (ChainSearch.sample_result "a.py" 10 "...")
              [ChainSearch.sample_result "b.py" 8 "...";
               ChainSearch.sample_result "a.py" 7 "..."]
              (PyFloat.Finite (2 / 2)) eq_refl eq_refl eq_refl)
    as (sc & Hin & Heq).
  exists sc. split; [exact Hin|].
  destruct sc as [q| | |]; simpl in Heq |- *; try contradiction.
  rewrite Heq. reflexivity.
Defined.

Example rrf_sample_two_sources :
  fst <$> reciprocal_rank_fusion
            [("exact", sample_exact); ("fuzzy", sample_fuzzy)]
            [("exact", PyFloat.Finite (7 # 10));
             ("fuzzy", PyFloat.Finite (3 # 10))] 60 =
  ["b.py"; "a.py"; "c.py"].
Proof. reflexivity. Qed.

Example normalize_weights_sample :
  normalize_weights [("exact", PyFloat.Finite 2); ("fuzzy", PyFloat.Finite 1)]
  = [("exact", PyFloat.Finite (2 / 3)); ("fuzzy", PyFloat.Finite (1 / 3))] /\
  normalize_weights [("exact", PyFloat.NaN); ("fuzzy", PyFloat.Finite 1)]
  = [("exact", PyFloat.NaN); ("fuzzy", PyFloat.Finite 1)].
Proof. split; reflexivity. Qed.

End Fusion.

(** ** Token-aware batching and score extraction of the API reranker
    ([codexlens/semantic/reranker/api_reranker.py]) *)

Module ApiReranker.
Import ChainSearch (Try, Ok, Exc).
Import Reranker (pystr).
Local Open Scope list_scope.
Local Open Scope Z_scope.

(** [enumerate(l)], counting from [start]. *)
Fixpoint enumerate_from {A} (start : Z) (l : list A) : list (Z * A) :=
  match l with
  | [] => []
  | x :: l' => (start, x) :: enumerate_from (start + 1) l'
  end.

Definition enumerate {A} (l : list A) : list (Z * A) := enumerate_from 0 l.

(** [bool(l)] for a list. *)
Definition nonempty {A} (l : list A) : bool :=
  match l with [] => false | _ :: _ => true end.

(** [_estimate_tokens]: [len(text) // 4]. *)
Definition estimate_tokens (text : pystr) : Z := Z.of_nat (length text) / 4.

Definition Batch := list (Z * pystr).

(** The three loop variables of [_create_token_aware_batches]. *)
Record BatchState := {
  batches : list Batch;
  current_batch : Batch;
  current_tokens : Z
}.

(** One iteration of [for idx, doc in enumerate(documents)] (the warning
    it logs for an oversized document has no effect on the result). *)
Definition batch_step (max_tokens query_tokens : Z) (st : BatchState)
    (item : Z * pystr) : BatchState :=
  let doc_tokens := estimate_tokens (snd item) in
  let st' :=
    if (current_tokens st + doc_tokens >? max_tokens) &&
       nonempty (current_batch st)
    then {| batches := batches st ++ [current_batch st];
            current_batch := [];
            current_tokens := query_tokens |}
    else st in
  {| batches := batches st';
     current_batch := current_batch st' ++ [item];
     current_tokens := current_tokens st' + doc_tokens |}.

Definition batch_loop (max_tokens query_tokens : Z)
    (items : list (Z * pystr)) : BatchState :=
  fold_left (batch_step max_tokens query_tokens) items
    {| batches := []; current_batch := []; current_tokens := query_tokens |}.

Definition finish_batches (st : BatchState) : list Batch :=
  if nonempty (current_batch st) then batches st ++ [current_batch st]
  else batches st.

(** [_create_token_aware_batches]; [max_tokens] is the value of
    [int(self._max_input_tokens * 0.9)]. *)
Definition create_token_aware_batches (max_tokens : Z) (query : pystr)
    (documents : list pystr) : list Batch :=
  finish_batches
    (batch_loop max_tokens (estimate_tokens query) (enumerate documents)).

(** An element of the response's [results], by what the loop of
    [_extract_scores_from_results] makes of it: [Unusable] is an item
    the loop skips (not a dict; ["index"] or the score missing or null;
    [int(idx)] or [float(score)] raising [TypeError] or [ValueError]),
    [Usable idx score] carries the converted values, and [Raising] is an
    item whose conversion raises an exception the loop does not catch
    ([OverflowError] for an infinite index). *)
Inductive ResultItem :=
| Unusable
| Usable (idx : Z) (score : PyFloat.t)
| Raising (exc : string).

Definition zero_score : PyFloat.t := PyFloat.Finite 0.

(** The loop [for item in results] over [scores] and [filled]. *)
Fixpoint extract_loop (expected : Z) (results : list ResultItem)
    (scores : list PyFloat.t) (filled : Z) : Try (list PyFloat.t * Z) :=
  match results with
  | [] => Ok (scores, filled)
  | Unusable :: rest => extract_loop expected rest scores filled
  | Raising exc :: _ => Exc exc
  | Usable idx score :: rest =>
      if (0 <=? idx) && (idx <? expected)
      then extract_loop expected rest (<[Z.to_nat idx := score]> scores)
             (filled + 1)
      else extract_loop expected rest scores filled
  end.

(** [_extract_scores_from_results]; [results] is [None] when the value is
    not a list. *)
Definition extract_scores_from_results (results : option (list ResultItem))
    (expected : Z) : Try (list PyFloat.t) :=
  match results with
  | None => Exc "RuntimeError"
  | Some items =>
      match extract_loop expected items
              (replicate (Z.to_nat expected) zero_score) 0 with
      | Exc exc => Exc exc
      | Ok (scores, filled) =>
          if filled =? expected then Ok scores else Exc "RuntimeError"
      end
  end.

(** Vocabulary: the [(index, score)] pairs the loop stores, in order, and
    a response without an item of the third kind. *)
Fixpoint placed (expected : Z) (results : list ResultItem)
    : list (Z * PyFloat.t) :=
  match results with
  | [] => []
  | Usable idx score :: rest =>
      if (0 <=? idx) && (idx <? expected)
      then (idx, score) :: placed expected rest
      else placed expected rest
  | _ :: rest => placed expected rest
  end.

Definition no_raising (results : list ResultItem) : Prop :=
  forall exc, Raising exc ∉ results.

(** The HTTP side of a reranker instance: [max_tokens] is
    [int(self._max_input_tokens * 0.9)], and [request_results n query docs]
    is what the [n]-th call of [_request_json], made with the payload
    [_build_payload(query, docs)], yields as [data.get("results")]
    ([Exc] when the call raises, [None] when the value is not a list). *)
Record Api := {
  max_tokens : Z;
  request_results :
    nat -> pystr -> list pystr -> Try (option (list ResultItem))
}.

(** [for (orig_idx, _), score in zip(items, item_scores):
       scores[orig_idx] = score]. *)
Definition write_back_step (scores : list PyFloat.t)
    (p : (Z * pystr) * PyFloat.t) : list PyFloat.t :=
  <[Z.to_nat (fst (fst p)) := snd p]> scores.

Definition write_back (scores : list PyFloat.t) (items : list (Z * pystr))
    (item_scores : list PyFloat.t) : list PyFloat.t :=
  fold_left write_back_step (zip items item_scores) scores.

(** The loop [for batch in batches] of [_rerank_one_query]; the second
    component counts the requests made so far. *)
Fixpoint rerank_batches (api : Api) (n : nat) (query : pystr)
    (batches : list Batch) (all_scores : list PyFloat.t)
    : Try (list PyFloat.t) * nat :=
  match batches with
  | [] => (Ok all_scores, n)
  | batch :: rest =>
      let batch_docs := snd <$> batch in
      match request_results api n query batch_docs with
      | Exc exc => (Exc exc, S n)
      | Ok results =>
          match extract_scores_from_results results
                  (Z.of_nat (length batch_docs)) with
          | Exc exc => (Exc exc, S n)
          | Ok batch_scores =>
              rerank_batches api (S n) query rest
                (write_back all_scores batch batch_scores)
          end
      end
  end.

(** [_rerank_one_query]. *)
Definition rerank_one_query (api : Api) (n : nat) (query : pystr)
    (documents : list pystr) : Try (list PyFloat.t) * nat :=
  if nonempty documents then
    let batches :=
      create_token_aware_batches (max_tokens api) query documents in
    if (length batches =? 1)%nat then
      match request_results api n query documents with
      | Exc exc => (Exc exc, S n)
      | Ok results =>
          (extract_scores_from_results results
             (Z.of_nat (length documents)), S n)
      end
    else
      rerank_batches api n query batches
        (replicate (length documents) zero_score)
  else (Ok [], n).

Definition pystr_eqb (a b : pystr) : bool := bool_decide (a = b).

(** [grouped.setdefault(str(query), []).append((idx, str(doc)))]. *)
Definition group_pair (grouped : list (pystr * list (Z * pystr)))
    (item : Z * (pystr * pystr)) : list (pystr * list (Z * pystr)) :=
  let idx := fst item in
  let query := fst (snd item) in
  let doc := snd (snd item) in
  match Py.dict_get pystr_eqb grouped query with
  | Some items => Py.dict_set pystr_eqb grouped query (items ++ [(idx, doc)])
  | None => Py.dict_set pystr_eqb grouped query [(idx, doc)]
  end.

Definition group_pairs (pairs : list (pystr * pystr))
    : list (pystr * list (Z * pystr)) :=
  fold_left group_pair (enumerate pairs) [].

(** The loop [for query, items in grouped.items()] of [score_pairs]. *)
Fixpoint score_groups (api : Api) (n : nat)
    (grouped : list (pystr * list (Z * pystr))) (scores : list PyFloat.t)
    : Try (list PyFloat.t) * nat :=
  match grouped with
  | [] => (Ok scores, n)
  | (query, items) :: rest =>
      match rerank_one_query api n query (snd <$> items) with
      | (Exc exc, n') => (Exc exc, n')
      | (Ok query_scores, n') =>
          score_groups api n' rest (write_back scores items query_scores)
      end
  end.

(** [score_pairs]. *)
Definition score_pairs (api : Api) (n : nat) (pairs : list (pystr * pystr))
    : Try (list PyFloat.t) * nat :=
  if nonempty pairs then
    score_groups api n (group_pairs pairs)
      (replicate (length pairs) zero_score)
  else (Ok [], n).

(** Vocabulary: the indexed documents paired with [query], in input
    order. *)
Definition docs_of_query (query : pystr) (items : list (Z * (pystr * pystr)))
    : list (Z * pystr) :=
  omap (fun item =>
          if pystr_eqb (fst (snd item)) query
          then Some (fst item, snd (snd item)) else None) items.

(** Vocabulary of the statements: the estimated tokens of a batch's
    documents, a batch that respects the limit, and a list whose
    neighbours are related. *)
Definition batch_tokens (b : Batch) : Z :=
  foldr (fun item acc => estimate_tokens (snd item) + acc) 0 b.

Definition fits (max_tokens query_tokens : Z) (b : Batch) : Prop :=
  (length b <= 1)%nat \/ query_tokens + batch_tokens b <= max_tokens.

Definition next_overflows (max_tokens query_tokens : Z) (b1 b2 : Batch)
    : Prop :=
  match b2 with
  | [] => False
  | item :: _ =>
      max_tokens < query_tokens + batch_tokens b1 + estimate_tokens (snd item)
  end.

Inductive chain {A} (P : A -> A -> Prop) : list A -> Prop :=
| chain_nil : chain P []
| chain_one x : chain P [x]
| chain_cons x y l : P x y -> chain P (y :: l) -> chain P (x :: y :: l).

(** Sample data: documents of four characters (one estimated token
    each), and a service that scores every document of its [n]-th request
    with [n + 1]. *)
Definition sample_doc : pystr := [100; 111; 99; 115]%N.

Definition sample_api : Api :=
  {| max_tokens := 2;
     request_results := fun n _ docs =>
       Ok (Some (imap (fun i (_ : pystr) =>
                         Usable (Z.of_nat i)
                           (PyFloat.Finite (inject_Z (Z.of_nat n + 1))))
                      docs)) |}.

(** *** Facts *)

Lemma enumerate_from_app {A} (l1 l2 : list A) start :
  enumerate_from start (l1 ++ l2) =
  (enumerate_from start l1 ++
   enumerate_from (start + Z.of_nat (length l1)) l2)%list.
Proof.
  revert start. induction l1 as [|x l1 IH]; intros start.
  - cbn. f_equal. lia.
  - change ((x :: l1) ++ l2) with (x :: (l1 ++ l2)).
    cbn [enumerate_from]. rewrite IH. cbn [app]. do 3 f_equal.
    cbn [length]. lia.
Qed.

Lemma enumerate_from_length {A} (l : list A) start :
  length (enumerate_from start l) = length l.
Proof.
  revert start. induction l as [|x l IH]; intros start; cbn; [|rewrite IH];
    reflexivity.
Qed.

Lemma enumerate_from_snd {A} (l : list A) start :
  snd <$> enumerate_from start l = l.
Proof.
  revert start. induction l as [|x l IH]; intros start; cbn; [|rewrite IH];
    reflexivity.
Qed.

Lemma enumerate_from_lookup {A} (l : list A) start (i : nat) :
  enumerate_from start l !! i = (fun x => (start + Z.of_nat i, x)) <$> l !! i.
Proof.
  revert start i. induction l as [|x l IH]; intros start [|i]; cbn;
    try reflexivity.
  - do 2 f_equal. lia.
  - rewrite IH. destruct (l !! i); cbn; [|reflexivity]. do 2 f_equal. lia.
Qed.

Lemma batch_tokens_app b1 b2 :
  batch_tokens (b1 ++ b2) = batch_tokens b1 + batch_tokens b2.
Proof.
  induction b1 as [|x b1 IH]; [reflexivity|].
  change (batch_tokens ((x :: b1) ++ b2))
    with (estimate_tokens (snd x) + batch_tokens (b1 ++ b2)).
  change (batch_tokens (x :: b1))
    with (estimate_tokens (snd x) + batch_tokens b1).
  rewrite IH. lia.
Qed.

Lemma chain_snoc {A} (P : A -> A -> Prop) l x y :
  chain P (l ++ [x]) -> P x y -> chain P (l ++ [x; y]).
Proof.
  induction l as [|a l IH]; cbn; intros Hc Hp.
  - constructor; [exact Hp|constructor].
  - destruct l as [|b l]; cbn in *.
    + inversion Hc; subst. constructor; [assumption|].
      constructor; [exact Hp|constructor].
    + inversion Hc; subst. constructor; [assumption|]. apply IH; assumption.
Qed.

Lemma chain_replace_last {A} (P : A -> A -> Prop) l x x' :
  chain P (l ++ [x]) -> (forall z, P z x -> P z x') -> chain P (l ++ [x']).
Proof.
  induction l as [|a l IH]; cbn; intros Hc Hp.
  - constructor.
  - destruct l as [|b l]; cbn in *.
    + inversion Hc; subst. constructor; [auto|constructor].
    + inversion Hc; subst. constructor; [assumption|]. apply IH; assumption.
Qed.

Lemma chain_init {A} (P : A -> A -> Prop) l x :
  chain P (l ++ [x]) -> chain P l.
Proof.
  induction l as [|a l IH]; cbn; intros Hc; [constructor|].
  destruct l as [|b l]; cbn in *; [constructor|].
  inversion Hc; subst. constructor; [assumption|]. apply IH; assumption.
Qed.

Lemma chain_lookup {A} (P : A -> A -> Prop) l (i : nat) x y :
  chain P l -> l !! i = Some x -> l !! S i = Some y -> P x y.
Proof.
  intros Hc. revert i. induction Hc as [|a|a b l Hab Hc IH]; intros i Hx Hy.
  - discriminate.
  - destruct i; discriminate.
  - destruct i as [|i]; cbn in Hx, Hy.
    + congruence.
    + eapply IH; eassumption.
Qed.

(** The loop invariant after the items [done]. *)
Record batch_inv (max_tokens query_tokens : Z) (done : list (Z * pystr))
    (st : BatchState) : Prop := {
  inv_concat : (concat (batches st) ++ current_batch st)%list = done;
  inv_nonempty : Forall (fun b => b <> []) (batches st);
  inv_tokens :
    current_tokens st = query_tokens + batch_tokens (current_batch st);
  inv_fits : Forall (fits max_tokens query_tokens) (batches st);
  inv_fits_current : fits max_tokens query_tokens (current_batch st);
  inv_first : current_batch st = [] -> batches st = [];
  inv_chain :
    chain (next_overflows max_tokens query_tokens)
      (batches st ++ [current_batch st])
}.

Lemma batch_inv_init mt qt :
  batch_inv mt qt []
    {| batches := []; current_batch := []; current_tokens := qt |}.
Proof.
  split; cbn.
  - reflexivity.
  - constructor.
  - lia.
  - constructor.
  - left. cbn. lia.
  - reflexivity.
  - constructor.
Qed.

Lemma batch_step_cases mt qt st item :
  (mt < current_tokens st + estimate_tokens (snd item) /\
   current_batch st <> [] /\
   batch_step mt qt st item =
     {| batches := batches st ++ [current_batch st];
        current_batch := [item];
        current_tokens := qt + estimate_tokens (snd item) |}) \/
  ((current_tokens st + estimate_tokens (snd item) <= mt \/
    current_batch st = []) /\
   batch_step mt qt st item =
     {| batches := batches st;
        current_batch := current_batch st ++ [item];
        current_tokens := current_tokens st + estimate_tokens (snd item) |}).
Proof.
  unfold batch_step.
  destruct (Z.gtb_spec (current_tokens st + estimate_tokens (snd item)) mt)
    as [Hover|Hover]; cbn [andb].
  - destruct (current_batch st) as [|c cur] eqn:Hcur; cbn [nonempty].
    + right. split; [right; reflexivity|]. rewrite Hcur. reflexivity.
    + left. split; [lia|]. split; [discriminate|]. reflexivity.
  - right. split; [left; lia|]. reflexivity.
Qed.

Lemma batch_inv_step mt qt done st item :
  batch_inv mt qt done st ->
  batch_inv mt qt (done ++ [item]) (batch_step mt qt st item).
Proof.
  intros [Hc Hne Ht Hf Hfc Hfirst Hch].
  destruct (batch_step_cases mt qt st item)
    as [(Hover & Hcur & ->)|(Hkeep & ->)]; split; cbn.
  - rewrite concat_app. cbn. rewrite app_nil_r, Hc. reflexivity.
  - apply Forall_app. split; [assumption|]. constructor; [assumption|].
    constructor.
  - lia.
  - apply Forall_app. split; [assumption|]. constructor; [assumption|].
    constructor.
  - left. cbn. lia.
  - discriminate.
  - rewrite <- app_assoc. cbn. apply chain_snoc; [assumption|].
    cbn. rewrite Ht in Hover. lia.
  - rewrite app_assoc, Hc. reflexivity.
  - assumption.
  - rewrite batch_tokens_app, Ht. cbn. lia.
  - assumption.
  - destruct Hkeep as [Hle|Hnil].
    + right. rewrite batch_tokens_app. cbn. rewrite Ht in Hle. lia.
    + left. rewrite Hnil. cbn. lia.
  - intros Habs. apply app_eq_nil in Habs as [_ Habs]. discriminate.
  - destruct (current_batch st) as [|c cur] eqn:Hcur.
    + rewrite (Hfirst eq_refl). cbn. constructor.
    + eapply chain_replace_last; [exact Hch|]. intros z Hz. exact Hz.
Qed.

Lemma batch_inv_fold mt qt items : forall done st,
  batch_inv mt qt done st ->
  batch_inv mt qt (done ++ items) (fold_left (batch_step mt qt) items st).
Proof.
  induction items as [|item items IH]; intros done st Hinv; cbn.
  - rewrite app_nil_r. assumption.
  - replace (done ++ item :: items)%list with ((done ++ [item]) ++ items)%list
      by (rewrite <- app_assoc; reflexivity).
    apply IH, batch_inv_step, Hinv.
Qed.

Lemma batch_loop_inv mt qt items :
  batch_inv mt qt items (batch_loop mt qt items).
Proof. apply (batch_inv_fold mt qt items []), batch_inv_init. Qed.

Lemma finish_batches_cases st :
  (current_batch st = [] /\ finish_batches st = batches st) \/
  (current_batch st <> [] /\
   finish_batches st = (batches st ++ [current_batch st])%list).
Proof.
  unfold finish_batches. destruct (current_batch st); cbn; [left|right];
    split; congruence.
Qed.

Lemma batches_concat (max_tokens : Z) (query : pystr)
    (documents : list pystr) :
  concat (create_token_aware_batches max_tokens query documents) =
  enumerate documents.
Proof.
  unfold create_token_aware_batches.
  destruct (batch_loop_inv max_tokens (estimate_tokens query)
              (enumerate documents)) as [Hc _ _ _ _ _ _].
  destruct (finish_batches_cases
              (batch_loop max_tokens (estimate_tokens query)
                 (enumerate documents))) as [[Hcur ->]|[Hcur ->]].
  - rewrite Hcur, app_nil_r in Hc. exact Hc.
  - rewrite concat_app. cbn. rewrite app_nil_r. exact Hc.
Qed.

(** X1.  [_create_token_aware_batches] splits [enumerate(documents)] into
    consecutive pieces: the batches, joined in order, are exactly the
    indexed documents (none lost, repeated or reordered), and no batch is
    empty. *)
Theorem batches_partition_documents (max_tokens : Z) (query : pystr)
    (documents : list pystr) :
  concat (create_token_aware_batches max_tokens query documents) =
    enumerate documents /\
  Forall (fun b => b <> []) (create_token_aware_batches max_tokens query documents).
Proof.
  unfold create_token_aware_batches.
  destruct (batch_loop_inv max_tokens (estimate_tokens query)
              (enumerate documents)) as [Hc Hne _ _ _ _ _].
  destruct (finish_batches_cases
              (batch_loop max_tokens (estimate_tokens query)
                 (enumerate documents))) as [[Hcur ->]|[Hcur ->]].
  - rewrite Hcur, app_nil_r in Hc. split; assumption.
  - split.
    + rewrite concat_app. cbn. rewrite app_nil_r. exact Hc.
    + apply Forall_app. split; [assumption|]. constructor; [assumption|].
      constructor.
Qed.

(** X2.  Every batch that holds more than one document stays within the
    limit: the query's tokens plus the tokens of its documents do not
    exceed [max_tokens].  Only a batch of a single document can exceed
    it. *)
Theorem batches_within_limit (max_tokens : Z) (query : pystr)
    (documents : list pystr) (b : Batch) :
  b ∈ create_token_aware_batches max_tokens query documents ->
  (1 < length b)%nat ->
  estimate_tokens query + batch_tokens b <= max_tokens.
Proof.
  unfold create_token_aware_batches. intros Hin Hlen.
  destruct (batch_loop_inv max_tokens (estimate_tokens query)
              (enumerate documents)) as [_ _ _ Hf Hfc _ _].
  assert (Hfit : fits max_tokens (estimate_tokens query) b).
  { destruct (finish_batches_cases
                (batch_loop max_tokens (estimate_tokens query)
                   (enumerate documents))) as [[_ Heq]|[_ Heq]];
      rewrite Heq in Hin.
    - rewrite Forall_forall in Hf. apply Hf, Hin.
    - apply elem_of_app in Hin as [Hin|Hin].
      + rewrite Forall_forall in Hf. apply Hf, Hin.
      + apply list_elem_of_singleton in Hin. subst b. exact Hfc. }
  destruct Hfit as [Hsmall|Hfit]; [lia|exact Hfit].
Qed.

Lemma batches_within_limit_witness :
  [(0, sample_doc); (1, sample_doc)] ∈
    create_token_aware_batches 2 [] [sample_doc; sample_doc; sample_doc] /\
  (1 < length [(0, sample_doc); (1, sample_doc)])%nat /\
  estimate_tokens [] + batch_tokens [(0, sample_doc); (1, sample_doc)] <= 2.
Proof.
  assert (Hin : [(0, sample_doc); (1, sample_doc)] ∈
                create_token_aware_batches 2 []
                  [sample_doc; sample_doc; sample_doc])
    by (vm_compute; constructor).
  assert (Hlen : (1 < length [(0, sample_doc); (1, sample_doc)])%nat)
    by (cbn; lia).
  split; [exact Hin|]. split; [exact Hlen|].
  exact (batches_within_limit 2 [] [sample_doc; sample_doc; sample_doc]
           _ Hin Hlen).
Defined.


(** X3.  Batches are filled greedily: a batch is closed only when the
    first document of the next batch would have pushed it over
    [max_tokens]. *)
Theorem batches_greedy (max_tokens : Z) (query : pystr)
    (documents : list pystr) (i : nat) (b1 b2 : Batch) :
  create_token_aware_batches max_tokens query documents !! i = Some b1 ->
  create_token_aware_batches max_tokens query documents !! S i = Some b2 ->
  exists item rest,
    b2 = item :: rest /\
    max_tokens <
      estimate_tokens query + batch_tokens b1 + estimate_tokens (snd item).
Proof.
  unfold create_token_aware_batches. intros H1 H2.
  destruct (batch_loop_inv max_tokens (estimate_tokens query)
              (enumerate documents)) as [_ _ _ _ _ _ Hch].
  assert (Hc : chain (next_overflows max_tokens (estimate_tokens query))
                 (finish_batches
                    (batch_loop max_tokens (estimate_tokens query)
                       (enumerate documents)))).
  { destruct (finish_batches_cases
                (batch_loop max_tokens (estimate_tokens query)
                   (enumerate documents))) as [[_ ->]|[_ ->]].
    - eapply chain_init, Hch.
    - exact Hch. }
  pose proof (chain_lookup _ _ _ _ _ Hc H1 H2) as Hp.
  destruct b2 as [|item rest]; [contradiction|].
  exists item, rest. split; [reflexivity|exact Hp].
Qed.

Lemma batches_greedy_witness :
  create_token_aware_batches 2 [] [sample_doc; sample_doc; sample_doc] !! 0%nat
    = Some [(0, sample_doc); (1, sample_doc)] /\
  create_token_aware_batches 2 [] [sample_doc; sample_doc; sample_doc] !! 1%nat
    = Some [(2, sample_doc)] /\
  exists item rest,
    [(2, sample_doc)] = item :: rest /\
    2 < estimate_tokens [] + batch_tokens [(0, sample_doc); (1, sample_doc)]
        + estimate_tokens (snd item).
Proof.
  split; [reflexivity|]. split; [reflexivity|].
  exact (batches_greedy 2 [] [sample_doc; sample_doc; sample_doc] 0
           [(0, sample_doc); (1, sample_doc)] [(2, sample_doc)]
           eq_refl eq_refl).
Defined.


(** *** Score extraction *)

Lemma placed_elem_of expected items i sc :
  (i, sc) ∈ placed expected items <->
  Usable i sc ∈ items /\ 0 <= i < expected.
Proof.
  induction items as [|[|idx score|exc] items IH]; cbn [placed].
  - split; [intros H; inversion H|intros [H _]; inversion H].
  - rewrite IH, elem_of_cons. split; [intros [? ?]; auto|].
    intros [[Heq|H] ?]; [discriminate|auto].
  - destruct ((0 <=? idx) && (idx <? expected)) eqn:Hr.
    + apply andb_true_iff in Hr as [H0 H1].
      apply Z.leb_le in H0. apply Z.ltb_lt in H1.
      rewrite !elem_of_cons, IH. split.
      * intros [Heq|[H ?]]; [inversion Heq; subst; split; [left|]; auto; lia|].
        auto.
      * intros [[Heq|H] ?]; [inversion Heq; subst; left; reflexivity|].
        right. auto.
    + rewrite IH, elem_of_cons. split; [intros [? ?]; auto|].
      intros [[Heq|H] Hi]; [|auto]. inversion Heq; subst.
      apply andb_false_iff in Hr as [Hr|Hr];
        [apply Z.leb_gt in Hr|apply Z.ltb_ge in Hr]; lia.
  - rewrite IH, elem_of_cons. split; [intros [? ?]; auto|].
    intros [[Heq|H] ?]; [discriminate|auto].
Qed.

Lemma extract_loop_spec expected items : forall scores0 filled0 scores filled,
  extract_loop expected items scores0 filled0 = Ok (scores, filled) ->
  length scores = length scores0 /\
  filled = filled0 + Z.of_nat (length (placed expected items)) /\
  forall i, 0 <= i -> (Z.to_nat i < length scores0)%nat ->
    (i ∉ fst <$> placed expected items ->
     scores !! Z.to_nat i = scores0 !! Z.to_nat i) /\
    (forall pre sc post,
       placed expected items = pre ++ (i, sc) :: post ->
       i ∉ fst <$> post ->
       scores !! Z.to_nat i = Some sc).
Proof.
  induction items as [|[|idx score|exc] items IH];
    intros scores0 filled0 scores filled Hrun; cbn [extract_loop placed] in *.
  - inversion Hrun; subst. split; [reflexivity|]. split; [cbn; lia|].
    intros i Hi Hlen. split; [reflexivity|].
    intros pre sc post Habs. destruct pre; discriminate.
  - eauto.
  - destruct ((0 <=? idx) && (idx <? expected)) eqn:Hr; [|eauto].
    apply andb_true_iff in Hr as [H0 H1].
    apply Z.leb_le in H0. apply Z.ltb_lt in H1.
    destruct (IH _ _ _ _ Hrun) as (Hlen & Hfilled & Hpos).
    rewrite length_insert in Hlen, Hpos.
    split; [exact Hlen|]. split; [cbn [length]; lia|].
    intros i Hi Hilen. destruct (Hpos i Hi Hilen) as [Hkeep Hlast]. split.
    + intros Hnot. cbn [fmap list_fmap fst] in Hnot.
      change (i ∉ idx :: (fst <$> placed expected items)) in Hnot.
      rewrite not_elem_of_cons in Hnot. destruct Hnot as [Hne Hnot].
      rewrite (Hkeep Hnot). apply list_lookup_insert_ne. lia.
    + intros pre sc post Heq Hnot. destruct pre as [|p pre]; cbn in Heq.
      * inversion Heq; subst. rewrite (Hkeep Hnot).
        apply list_lookup_insert_eq. exact Hilen.
      * inversion Heq; subst. eapply Hlast; eauto.
  - discriminate.
Qed.

Lemma extract_scores_inv items expected scores :
  extract_scores_from_results (Some items) expected = Ok scores ->
  extract_loop expected items (replicate (Z.to_nat expected) zero_score) 0 =
    Ok (scores, expected).
Proof.
  unfold extract_scores_from_results.
  destruct (extract_loop _ _ _ _) as [[s f]|e]; [|discriminate].
  destruct (Z.eqb_spec f expected); [|discriminate].
  intros Heq. inversion Heq; subst. reflexivity.
Qed.

Lemma extract_loop_total expected items : forall scores0 filled0,
  no_raising items ->
  exists scores filled,
    extract_loop expected items scores0 filled0 = Ok (scores, filled).
Proof.
  induction items as [|[|idx score|exc] items IH]; intros scores0 filled0 Hno;
    cbn [extract_loop].
  - eauto.
  - apply IH. intros exc H. apply (Hno exc). right. exact H.
  - assert (Hno' : no_raising items)
      by (intros exc H; apply (Hno exc); right; exact H).
    destruct ((0 <=? idx) && (idx <? expected)); apply IH; exact Hno'.
  - exfalso. apply (Hno exc). left.
Qed.

Lemma extract_scores_count items expected scores :
  extract_scores_from_results (Some items) expected = Ok scores ->
  length scores = Z.to_nat expected /\
  Z.of_nat (length (placed expected items)) = expected.
Proof.
  intros Hrun. apply extract_scores_inv in Hrun.
  destruct (extract_loop_spec _ _ _ _ _ _ Hrun) as (Hlen & Hfilled & _).
  rewrite length_replicate in Hlen. split; [exact Hlen|lia].
Qed.

(** X4.  When [_extract_scores_from_results] returns, the list has
    [expected] entries, exactly [expected] items carried a usable in-range
    index, a position no such item names holds [0.0], and a position named
    by several items holds the score of the last of them. *)
Theorem extract_scores_spec (items : list ResultItem) (expected : Z)
    (scores : list PyFloat.t) :
  extract_scores_from_results (Some items) expected = Ok scores ->
  length scores = Z.to_nat expected /\
  Z.of_nat (length (placed expected items)) = expected /\
  forall i, 0 <= i < expected ->
    (i ∉ fst <$> placed expected items ->
     scores !! Z.to_nat i = Some zero_score) /\
    (forall pre sc post,
       placed expected items = pre ++ (i, sc) :: post ->
       i ∉ fst <$> post ->
       scores !! Z.to_nat i = Some sc).
Proof.
  intros Hrun. apply extract_scores_inv in Hrun.
  destruct (extract_loop_spec _ _ _ _ _ _ Hrun) as (Hlen & Hfilled & Hpos).
  rewrite length_replicate in Hlen, Hpos.
  split; [exact Hlen|]. split; [lia|].
  intros i Hi. destruct (Hpos i) as [Hkeep Hlast]; [lia|lia|].
  split; [|exact Hlast].
  intros Hnot. rewrite (Hkeep Hnot). apply lookup_replicate_2. lia.
Qed.

Lemma extract_scores_spec_witness :
  extract_scores_from_results
    (Some [Usable 0 (PyFloat.Finite 1); Usable 0 (PyFloat.Finite 2)]) 2 =
    Ok [PyFloat.Finite 2; zero_score] /\
  length [PyFloat.Finite 2; zero_score] = Z.to_nat 2 /\
  [PyFloat.Finite 2; zero_score] !! Z.to_nat 1 = Some zero_score.
Proof.
  split; [reflexivity|].
  destruct (extract_scores_spec
              [Usable 0 (PyFloat.Finite 1); Usable 0 (PyFloat.Finite 2)] 2
              [PyFloat.Finite 2; zero_score] eq_refl) as (Hlen & _ & Hpos).
  split; [exact Hlen|]. destruct (Hpos 1) as [Hzero _]; [lia|].
  apply Hzero. vm_compute. intros H.
  repeat (apply elem_of_cons in H as [H|H]; [discriminate|]). inversion H.
Defined.


(** X5.  The success check counts items, not positions: for a response
    none of whose items raises, [_extract_scores_from_results] returns a
    list exactly when the number of items with a usable in-range index
    equals [expected], whether or not their indices are distinct. *)
Theorem extract_scores_succeeds_iff (items : list ResultItem) (expected : Z) :
  no_raising items ->
  (exists scores,
     extract_scores_from_results (Some items) expected = Ok scores) <->
  Z.of_nat (length (placed expected items)) = expected.
Proof.
  intros Hno. split.
  - intros [scores Hrun]. apply (extract_scores_count _ _ _ Hrun).
  - intros Hcount.
    destruct (extract_loop_total expected items
                (replicate (Z.to_nat expected) zero_score) 0 Hno)
      as (scores & filled & Hrun).
    exists scores. unfold extract_scores_from_results. rewrite Hrun.
    destruct (extract_loop_spec _ _ _ _ _ _ Hrun) as (_ & Hfilled & _).
    destruct (Z.eqb_spec filled expected); [reflexivity|lia].
Qed.

Lemma extract_scores_succeeds_iff_witness :
  no_raising [Usable 0 (PyFloat.Finite 1); Usable 0 (PyFloat.Finite 2)] /\
  exists scores,
    extract_scores_from_results
      (Some [Usable 0 (PyFloat.Finite 1); Usable 0 (PyFloat.Finite 2)]) 2 =
    Ok scores.
Proof.
  assert (Hno : no_raising
                  [Usable 0 (PyFloat.Finite 1); Usable 0 (PyFloat.Finite 2)]).
  { intros exc H.
    repeat (apply elem_of_cons in H as [H|H]; [discriminate|]). inversion H. }
  split; [exact Hno|].
  apply (extract_scores_succeeds_iff _ 2 Hno). reflexivity.
Defined.


Lemma NoDup_range_covers (l : list Z) (n : Z) :
  NoDup l -> (forall x, x ∈ l -> 0 <= x < n) -> Z.of_nat (length l) = n ->
  forall i, 0 <= i < n -> i ∈ l.
Proof.
  intros Hnd Hin Hlen i Hi.
  assert (Hsub : l ⊆+ seqZ 0 n).
  { apply NoDup_submseteq; [exact Hnd|].
    intros x Hx. apply elem_of_seqZ. specialize (Hin x Hx). lia. }
  assert (Hperm : l ≡ₚ seqZ 0 n).
  { apply submseteq_length_Permutation; [exact Hsub|].
    rewrite length_seqZ. lia. }
  rewrite Hperm. apply elem_of_seqZ. lia.
Qed.

(** X6.  When the in-range indices of the response are pairwise distinct
    and [_extract_scores_from_results] returns, every position holds the
    score the response reports for it. *)
Theorem extract_scores_distinct_indices (items : list ResultItem)
    (expected : Z) (scores : list PyFloat.t) :
  NoDup (fst <$> placed expected items) ->
  extract_scores_from_results (Some items) expected = Ok scores ->
  forall i, 0 <= i < expected ->
    exists sc, Usable i sc ∈ items /\ scores !! Z.to_nat i = Some sc.
Proof.
  intros Hnd Hrun i Hi.
  destruct (extract_scores_count _ _ _ Hrun) as (_ & Hcount).
  apply extract_scores_inv in Hrun.
  destruct (extract_loop_spec _ _ _ _ _ _ Hrun) as (_ & _ & Hpos).
  rewrite length_replicate in Hpos.
  assert (Hin : i ∈ fst <$> placed expected items).
  { apply (NoDup_range_covers _ expected); [exact Hnd| | |exact Hi].
    - intros x Hx. apply list_elem_of_fmap in Hx as ([j sc] & -> & Hx).
      apply placed_elem_of in Hx. cbn. tauto.
    - rewrite length_fmap. exact Hcount. }
  apply list_elem_of_fmap in Hin as ([j sc] & Hj & Hin). cbn in Hj. subst j.
  exists sc. split; [apply placed_elem_of in Hin; tauto|].
  apply list_elem_of_split in Hin as (pre & post & Heq).
  destruct (Hpos i) as [_ Hlast]; [lia|lia|]. apply (Hlast pre sc post Heq).
  rewrite Heq, fmap_app, fmap_cons in Hnd. cbn in Hnd.
  apply NoDup_app in Hnd as (_ & _ & Hnd).
  apply NoDup_cons in Hnd as [Hnot _]. exact Hnot.
Qed.

Lemma extract_scores_distinct_indices_witness :
  NoDup (fst <$> placed 2 [Usable 1 (PyFloat.Finite 1);
                           Usable 0 (PyFloat.Finite 2)]) /\
  extract_scores_from_results
    (Some [Usable 1 (PyFloat.Finite 1); Usable 0 (PyFloat.Finite 2)]) 2 =
    Ok [PyFloat.Finite 2; PyFloat.Finite 1] /\
  exists sc,
    Usable 1 sc ∈ [Usable 1 (PyFloat.Finite 1); Usable 0 (PyFloat.Finite 2)] /\
    [PyFloat.Finite 2; PyFloat.Finite 1] !! Z.to_nat 1 = Some sc.
Proof.
  assert (Hnd : NoDup (fst <$> placed 2 [Usable 1 (PyFloat.Finite 1);
                                         Usable 0 (PyFloat.Finite 2)])).
  { vm_compute. apply NoDup_cons. split; [|apply NoDup_singleton].
    intros H. apply list_elem_of_singleton in H. discriminate. }
  split; [exact Hnd|]. split; [reflexivity|].
  apply (extract_scores_distinct_indices _ 2 _ Hnd eq_refl 1). lia.
Defined.


(** *** Mapping scores back to the documents *)

Lemma enumerate_from_fst {A} (l : list A) start :
  fst <$> enumerate_from start l = seqZ start (Z.of_nat (length l)).
Proof.
  revert start. induction l as [|x l IH]; intros start.
  - reflexivity.
  - cbn [enumerate_from length]. rewrite fmap_cons, IH. cbn [fst].
    rewrite (seqZ_cons start) by lia. f_equal. f_equal; lia.
Qed.

Lemma enumerate_from_NoDup {A} (l : list A) start :
  NoDup (fst <$> enumerate_from start l).
Proof. rewrite enumerate_from_fst. apply NoDup_seqZ. Qed.

Lemma enumerate_from_range {A} (l : list A) start p :
  p ∈ enumerate_from start l ->
  start <= fst p < start + Z.of_nat (length l).
Proof.
  intros Hp.
  assert (H : fst p ∈ fst <$> enumerate_from start l)
    by (apply list_elem_of_fmap; eauto).
  rewrite enumerate_from_fst in H. apply elem_of_seqZ in H. lia.
Qed.

Lemma elem_of_concat {A} (x : A) (l : list A) (ls : list (list A)) :
  x ∈ l -> l ∈ ls -> x ∈ concat ls.
Proof.
  intros Hx Hl. induction ls as [|l' ls IH]; [inversion Hl|].
  cbn [concat]. apply elem_of_app. apply elem_of_cons in Hl as [->|Hl]; auto.
Qed.

Lemma write_back_spec items : forall item_scores scores,
  length item_scores = length items ->
  NoDup (fst <$> items) ->
  (forall p, p ∈ items -> 0 <= fst p /\ (Z.to_nat (fst p) < length scores)%nat) ->
  length (write_back scores items item_scores) = length scores /\
  (forall j orig doc, items !! j = Some (orig, doc) ->
     write_back scores items item_scores !! Z.to_nat orig = item_scores !! j) /\
  (forall i, 0 <= i -> i ∉ fst <$> items ->
     write_back scores items item_scores !! Z.to_nat i =
     scores !! Z.to_nat i).
Proof.
  unfold write_back.
  induction items as [|[o d] items IH]; intros item_scores scores Hlen Hnd Hrange.
  - destruct item_scores; [|discriminate]. cbn. split; [reflexivity|].
    split; [intros j orig doc Hj; discriminate|reflexivity].
  - destruct item_scores as [|sc item_scores]; [discriminate|].
    change (fold_left write_back_step (zip ((o, d) :: items)
                                          (sc :: item_scores)) scores)
      with (fold_left write_back_step (zip items item_scores)
              (<[Z.to_nat o := sc]> scores)).
    rewrite fmap_cons in Hnd. cbn [fst] in Hnd.
    apply NoDup_cons in Hnd as [Hnot Hnd].
    destruct (Hrange (o, d)) as [Ho Holen]; [left|]. cbn [fst] in Ho, Holen.
    destruct (IH item_scores (<[Z.to_nat o := sc]> scores))
      as (Hl & Hpos & Hkeep).
    { cbn in Hlen. lia. }
    { exact Hnd. }
    { intros p Hp. rewrite length_insert. apply Hrange. right. exact Hp. }
    rewrite length_insert in Hl. split; [exact Hl|]. split.
    + intros [|j] orig doc Hj; cbn in Hj.
      * inversion Hj; subst. rewrite (Hkeep orig Ho Hnot).
        cbn. apply list_lookup_insert_eq. exact Holen.
      * cbn. eapply Hpos. exact Hj.
    + intros i Hi Hnoti. rewrite fmap_cons in Hnoti. cbn [fst] in Hnoti.
      apply not_elem_of_cons in Hnoti as [Hne Hnoti].
      rewrite (Hkeep i Hi Hnoti). apply list_lookup_insert_ne. lia.
Qed.

Lemma extract_scores_length results expected scores :
  extract_scores_from_results results expected = Ok scores ->
  length scores = Z.to_nat expected.
Proof.
  destruct results as [items|]; [|discriminate].
  intros H. apply (extract_scores_count _ _ _ H).
Qed.

Lemma rerank_batches_spec api query batches :
  forall n all_scores scores n',
  NoDup (fst <$> concat batches) ->
  (forall p, p ∈ concat batches ->
     0 <= fst p /\ (Z.to_nat (fst p) < length all_scores)%nat) ->
  rerank_batches api n query batches all_scores = (Ok scores, n') ->
  n' = (n + length batches)%nat /\
  length scores = length all_scores /\
  (forall k batch, batches !! k = Some batch ->
     exists results batch_scores,
       request_results api (n + k) query (snd <$> batch) = Ok results /\
       extract_scores_from_results results (Z.of_nat (length batch)) =
         Ok batch_scores /\
       forall j orig doc, batch !! j = Some (orig, doc) ->
         scores !! Z.to_nat orig = batch_scores !! j) /\
  (forall i, 0 <= i -> i ∉ fst <$> concat batches ->
     scores !! Z.to_nat i = all_scores !! Z.to_nat i).
Proof.
  induction batches as [|batch rest IH]; intros n all_scores scores n' Hnd Hrange Hrun.
  - cbn in Hrun. inversion Hrun; subst. split; [cbn; lia|].
    split; [reflexivity|]. split; [intros k b Hk; discriminate|reflexivity].
  - cbn [rerank_batches] in Hrun.
    destruct (request_results api n query (snd <$> batch)) as [results|e]
      eqn:Hreq; [|discriminate].
    rewrite length_fmap in Hrun.
    destruct (extract_scores_from_results results (Z.of_nat (length batch)))
      as [batch_scores|e] eqn:Hext; [|discriminate].
    pose proof (extract_scores_length _ _ _ Hext) as Hbl.
    rewrite Nat2Z.id in Hbl.
    cbn [concat] in Hnd, Hrange. rewrite fmap_app in Hnd.
    apply NoDup_app in Hnd as (Hndb & Hdisj & Hndr).
    destruct (write_back_spec batch batch_scores all_scores Hbl Hndb)
      as (Hwl & Hwpos & Hwkeep).
    { intros p Hp. apply Hrange. apply elem_of_app. left. exact Hp. }
    assert (Hrange' : forall p, p ∈ concat rest ->
              0 <= fst p /\
              (Z.to_nat (fst p) <
               length (write_back all_scores batch batch_scores))%nat).
    { intros p Hp. rewrite Hwl. apply Hrange. apply elem_of_app. right.
      exact Hp. }
    destruct (IH (S n) _ _ _ Hndr Hrange' Hrun)
      as (Hn' & Hlen & Hpos & Hkeep).
    split; [cbn [length]; lia|]. split; [congruence|]. split.
    + intros [|k] b Hk; cbn in Hk.
      * inversion Hk; subst b. exists results, batch_scores.
        rewrite Nat.add_0_r. split; [exact Hreq|]. split; [exact Hext|].
        intros j orig doc Hj.
        assert (Hin : (orig, doc) ∈ batch)
          by (eapply list_elem_of_lookup_2; exact Hj).
        destruct (Hrange (orig, doc)) as [Ho _];
          [apply elem_of_app; left; exact Hin|].
        rewrite Hkeep; [eapply Hwpos; exact Hj|exact Ho|].
        apply Hdisj. apply list_elem_of_fmap. exists (orig, doc). auto.
      * destruct (Hpos k b Hk) as (res & bs & Hr & He & Hs).
        exists res, bs. replace (n + S k)%nat with (S n + k)%nat by lia.
        auto.
    + intros i Hi Hnot. cbn [concat] in Hnot. rewrite fmap_app in Hnot.
      apply not_elem_of_app in Hnot as [Hnb Hnr].
      rewrite (Hkeep i Hi Hnr). apply Hwkeep; assumption.
Qed.

Lemma rerank_one_query_length api n query documents scores n' :
  rerank_one_query api n query documents = (Ok scores, n') ->
  length scores = length documents.
Proof.
  unfold rerank_one_query. destruct (nonempty documents) eqn:Hne.
  2: { destruct documents; [|discriminate]. intros H. inversion H.
       reflexivity. }
  destruct (length _ =? 1)%nat.
  - destruct (request_results api n query documents) as [results|e];
      [|discriminate].
    intros H. inversion H as [[Hext Hn]].
    rewrite (extract_scores_length _ _ _ Hext). apply Nat2Z.id.
  - intros Hrun. apply rerank_batches_spec in Hrun as (_ & Hlen & _).
    + rewrite Hlen. apply length_replicate.
    + rewrite batches_concat. apply enumerate_from_NoDup.
    + rewrite batches_concat. intros p Hp. apply enumerate_from_range in Hp.
      rewrite length_replicate. lia.
Qed.

(** X7.  When [_rerank_one_query] returns, it has sent the batches of
    [_create_token_aware_batches] as one request each, in order, and the
    score of every document is the one its batch's response gave at the
    document's position in the batch; the result has one score per
    document. *)
Theorem rerank_one_query_scores (api : Api) (n : nat) (query : pystr)
    (documents : list pystr) (scores : list PyFloat.t) (n' : nat) :
  rerank_one_query api n query documents = (Ok scores, n') ->
  length scores = length documents /\
  n' = (n + length (create_token_aware_batches (max_tokens api) query
                      documents))%nat /\
  forall k batch,
    create_token_aware_batches (max_tokens api) query documents !! k =
      Some batch ->
    exists results batch_scores,
      request_results api (n + k) query (snd <$> batch) = Ok results /\
      extract_scores_from_results results (Z.of_nat (length batch)) =
        Ok batch_scores /\
      forall j orig doc, batch !! j = Some (orig, doc) ->
        documents !! Z.to_nat orig = Some doc /\
        scores !! Z.to_nat orig = batch_scores !! j.
Proof.
  unfold rerank_one_query.
  pose proof (batches_concat (max_tokens api) query documents) as Hconcat.
  set (batches := create_token_aware_batches (max_tokens api) query documents)
    in *.
  assert (Hdoc : forall k batch j orig doc,
            batches !! k = Some batch -> batch !! j = Some (orig, doc) ->
            documents !! Z.to_nat orig = Some doc).
  { intros k batch j orig doc Hk Hj.
    assert (Hin : (orig, doc) ∈ enumerate documents).
    { rewrite <- Hconcat. apply (elem_of_concat _ batch).
      - eapply list_elem_of_lookup_2; exact Hj.
      - eapply list_elem_of_lookup_2; exact Hk. }
    apply list_elem_of_lookup_1 in Hin as [m Hm].
    unfold enumerate in Hm. rewrite enumerate_from_lookup in Hm.
    destruct (documents !! m) as [x|] eqn:Hx; [|discriminate].
    cbn in Hm. inversion Hm; subst. rewrite Z.add_0_l, Nat2Z.id. exact Hx. }
  destruct (nonempty documents) eqn:Hne.
  2: { destruct documents; [|discriminate].
       intros Hrun. inversion Hrun; subst. split; [reflexivity|].
       split; [cbn; lia|]. intros k batch Hk. discriminate. }
  destruct (Nat.eqb_spec (length batches) 1) as [Hone|Hmany].
    + destruct batches as [|b [|b' bs]] eqn:Hb; try discriminate.
      change (concat [b]) with (b ++ []) in Hconcat.
      rewrite app_nil_r in Hconcat. subst b.
      destruct (request_results api n query documents) as [results|e]
        eqn:Hreq; [|discriminate].
      intros Hrun. inversion Hrun as [[Hext Hn]]. clear Hrun.
      pose proof (extract_scores_length _ _ _ Hext) as Hlen.
      rewrite Nat2Z.id in Hlen.
      split; [exact Hlen|]. split; [cbn; lia|].
      intros [|k] batch Hk; [|discriminate].
      inversion Hk; subst batch. exists results, scores.
      unfold enumerate. rewrite enumerate_from_snd, enumerate_from_length.
      rewrite Nat.add_0_r. split; [exact Hreq|]. split; [exact Hext|].
      intros j orig doc Hj. split; [eapply (Hdoc 0%nat); [reflexivity|exact Hj]|].
      rewrite enumerate_from_lookup in Hj.
      destruct (documents !! j); [|discriminate]. cbn in Hj.
      inversion Hj; subst. rewrite Z.add_0_l, Nat2Z.id. reflexivity.
    + intros Hrun.
      apply rerank_batches_spec in Hrun as (Hn' & Hlen & Hpos & _).
      * rewrite length_replicate in Hlen. split; [exact Hlen|].
        split; [exact Hn'|]. intros k batch Hk.
        destruct (Hpos k batch Hk) as (res & bs & Hr & He & Hs).
        exists res, bs. split; [exact Hr|]. split; [exact He|].
        intros j orig doc Hj. split; [eapply Hdoc; eassumption|eauto].
      * rewrite Hconcat. apply enumerate_from_NoDup.
      * rewrite Hconcat. intros p Hp. apply enumerate_from_range in Hp.
        rewrite length_replicate. lia.
Qed.

Lemma rerank_one_query_scores_witness :
  rerank_one_query sample_api 0 [] [sample_doc; sample_doc; sample_doc] =
    (Ok [PyFloat.Finite 1; PyFloat.Finite 1; PyFloat.Finite 2], 2%nat) /\
  length [PyFloat.Finite 1; PyFloat.Finite 1; PyFloat.Finite 2] =
    length [sample_doc; sample_doc; sample_doc].
Proof.
  split; [reflexivity|].
  apply (rerank_one_query_scores sample_api 0 []
           [sample_doc; sample_doc; sample_doc] _ 2 eq_refl).
Defined.


(** *** Grouping the pairs by query *)

Lemma pystr_eqb_eq (a b : pystr) : pystr_eqb a b = true <-> a = b.
Proof. unfold pystr_eqb. apply bool_decide_eq_true. Qed.

Lemma docs_of_query_app q l1 l2 :
  docs_of_query q (l1 ++ l2) = docs_of_query q l1 ++ docs_of_query q l2.
Proof. unfold docs_of_query. apply omap_app. Qed.

Lemma docs_of_query_elem_of q items i d :
  (i, d) ∈ docs_of_query q items <-> (i, (q, d)) ∈ items.
Proof.
  unfold docs_of_query. rewrite list_elem_of_omap. split.
  - intros ([i' [q' d']] & Hin & Hsome). cbn in Hsome.
    destruct (pystr_eqb q' q) eqn:E; [|discriminate].
    apply pystr_eqb_eq in E. inversion Hsome; subst. exact Hin.
  - intros Hin. exists (i, (q, d)). split; [exact Hin|]. cbn.
    rewrite (proj2 (pystr_eqb_eq q q) eq_refl). reflexivity.
Qed.

(** The values of [grouped] after the pairs [done]. *)
Definition grouped_inv (done : list (Z * (pystr * pystr)))
    (grouped : list (pystr * list (Z * pystr))) : Prop :=
  NoDup (fst <$> grouped) /\
  (forall q, Py.dict_get pystr_eqb grouped q =
             match docs_of_query q done with
             | [] => None
             | items => Some items
             end) /\
  concat (snd <$> grouped) ≡ₚ concat ((fun item => [(fst item, snd (snd item))]) <$> done).

Lemma dict_set_concat_append {A} (d : list (pystr * list A)) k v x :
  Py.dict_get pystr_eqb d k = Some v ->
  concat (snd <$> Py.dict_set pystr_eqb d k (v ++ [x])) ≡ₚ
  concat (snd <$> d) ++ [x].
Proof.
  induction d as [|[k0 v0] d IH]; cbn [Py.dict_get Py.dict_set]; [discriminate|].
  destruct (pystr_eqb k k0) eqn:E.
  - intros Hv. inversion Hv; subst v0. rewrite !fmap_cons. cbn [snd concat].
    rewrite <- !app_assoc. apply Permutation_app_head.
    apply Permutation_app_comm.
  - intros Hv. rewrite !fmap_cons. cbn [snd concat]. rewrite (IH Hv).
    rewrite app_assoc. reflexivity.
Qed.

Lemma dict_set_concat_new {A} (d : list (pystr * list A)) k v :
  Py.dict_get pystr_eqb d k = None ->
  concat (snd <$> Py.dict_set pystr_eqb d k v) = concat (snd <$> d) ++ v.
Proof.
  induction d as [|[k0 v0] d IH]; cbn [Py.dict_get Py.dict_set].
  - intros _. cbn. apply app_nil_r.
  - destruct (pystr_eqb k k0) eqn:E; [discriminate|].
    intros Hv. rewrite !fmap_cons. cbn [snd concat]. rewrite (IH Hv).
    apply app_assoc.
Qed.

Lemma group_pair_inv done grouped item :
  grouped_inv done grouped ->
  grouped_inv (done ++ [item]) (group_pair grouped item).
Proof.
  intros (Hnd & Hget & Hperm). destruct item as [idx [query doc]].
  unfold group_pair. cbn [fst snd].
  assert (Hset : forall old,
            NoDup (fst <$> Py.dict_set pystr_eqb grouped query old))
    by (intros old; apply (Py.dict_set_NoDup _ pystr_eqb_eq); exact Hnd).
  assert (Hnew : forall q,
            docs_of_query q (done ++ [(idx, (query, doc))]) =
            docs_of_query q done ++
            (if pystr_eqb query q then [(idx, doc)] else [])).
  { intros q. rewrite docs_of_query_app. f_equal. unfold docs_of_query.
    cbn. destruct (pystr_eqb query q); reflexivity. }
  assert (Hdone : concat ((fun item => [(fst item, snd (snd item))]) <$>
                          (done ++ [(idx, (query, doc))])) =
                  concat ((fun item => [(fst item, snd (snd item))]) <$> done)
                  ++ [(idx, doc)]).
  { rewrite fmap_app, concat_app. reflexivity. }
  pose proof (Hget query) as Hq.
  destruct (Py.dict_get pystr_eqb grouped query) as [items|] eqn:Hold.
  - split; [apply Hset|]. split.
    + intros q. rewrite (Py.dict_get_set _ pystr_eqb_eq), Hnew.
      destruct (pystr_eqb q query) eqn:E.
      * apply pystr_eqb_eq in E. subst q.
        rewrite (proj2 (pystr_eqb_eq query query) eq_refl).
        destruct (docs_of_query query done) as [|x l]; [discriminate|].
        inversion Hq; subst items. reflexivity.
      * destruct (pystr_eqb query q) eqn:E'.
        { apply pystr_eqb_eq in E'. subst q.
          rewrite (proj2 (pystr_eqb_eq query query) eq_refl) in E.
          discriminate. }
        rewrite app_nil_r. apply Hget.
    + rewrite Hdone, (dict_set_concat_append _ _ _ _ Hold), Hperm.
      reflexivity.
  - split; [apply Hset|]. split.
    + intros q. rewrite (Py.dict_get_set _ pystr_eqb_eq), Hnew.
      destruct (pystr_eqb q query) eqn:E.
      * apply pystr_eqb_eq in E. subst q.
        rewrite (proj2 (pystr_eqb_eq query query) eq_refl).
        destruct (docs_of_query query done) as [|x l]; [|discriminate].
        reflexivity.
      * destruct (pystr_eqb query q) eqn:E'.
        { apply pystr_eqb_eq in E'. subst q.
          rewrite (proj2 (pystr_eqb_eq query query) eq_refl) in E.
          discriminate. }
        rewrite app_nil_r. apply Hget.
    + rewrite Hdone, (dict_set_concat_new _ _ _ Hold), Hperm. reflexivity.
Qed.

Lemma group_pairs_fold_inv items : forall done grouped,
  grouped_inv done grouped ->
  grouped_inv (done ++ items) (fold_left group_pair items grouped).
Proof.
  induction items as [|item items IH]; intros done grouped Hinv; cbn.
  - rewrite app_nil_r. exact Hinv.
  - replace (done ++ item :: items) with ((done ++ [item]) ++ items)
      by (rewrite <- app_assoc; reflexivity).
    apply IH, group_pair_inv, Hinv.
Qed.

Lemma group_pairs_inv pairs :
  grouped_inv (enumerate pairs) (group_pairs pairs).
Proof.
  apply (group_pairs_fold_inv (enumerate pairs) [] []).
  split; [constructor|]. split; [reflexivity|]. reflexivity.
Qed.

(** X8.  [score_pairs] groups the pairs by query: the groups have
    distinct queries, and the group of a query holds exactly the documents
    paired with it, with their positions in [pairs], in input order; no
    group is empty. *)
Theorem group_pairs_spec (pairs : list (pystr * pystr)) :
  NoDup (fst <$> group_pairs pairs) /\
  forall q items,
    (q, items) ∈ group_pairs pairs <->
    items = docs_of_query q (enumerate pairs) /\ items <> [].
Proof.
  destruct (group_pairs_inv pairs) as (Hnd & Hget & _).
  split; [exact Hnd|]. intros q items.
  assert (Hiff : (q, items) ∈ group_pairs pairs <->
                 Py.dict_get pystr_eqb (group_pairs pairs) q = Some items).
  { split; [apply (Py.elem_of_dict_get _ pystr_eqb_eq), Hnd|].
    apply (Py.dict_get_elem_of _ pystr_eqb_eq). }
  rewrite Hiff, Hget.
  destruct (docs_of_query q (enumerate pairs)) as [|x l]; split.
  - discriminate.
  - intros [-> H]. contradiction.
  - intros H. inversion H; subst. split; [reflexivity|discriminate].
  - intros [-> _]. reflexivity.
Qed.

Lemma score_groups_spec api groups : forall n scores0 scores n',
  NoDup (fst <$> concat (snd <$> groups)) ->
  (forall p, p ∈ concat (snd <$> groups) ->
     0 <= fst p /\ (Z.to_nat (fst p) < length scores0)%nat) ->
  score_groups api n groups scores0 = (Ok scores, n') ->
  length scores = length scores0 /\
  (forall q items, (q, items) ∈ groups ->
     exists m m' query_scores,
       rerank_one_query api m q (snd <$> items) = (Ok query_scores, m') /\
       forall j orig doc, items !! j = Some (orig, doc) ->
         scores !! Z.to_nat orig = query_scores !! j) /\
  (forall i, 0 <= i -> i ∉ fst <$> concat (snd <$> groups) ->
     scores !! Z.to_nat i = scores0 !! Z.to_nat i).
Proof.
  induction groups as [|[query items] rest IH];
    intros n scores0 scores n' Hnd Hrange Hrun.
  - cbn in Hrun. inversion Hrun; subst. split; [reflexivity|].
    split; [intros q items H; inversion H|reflexivity].
  - cbn [score_groups] in Hrun.
    destruct (rerank_one_query api n query (snd <$> items))
      as [[query_scores|e] m'] eqn:Hq; [|discriminate].
    pose proof (rerank_one_query_length _ _ _ _ _ _ Hq) as Hql.
    rewrite length_fmap in Hql.
    rewrite fmap_cons in Hnd, Hrange. cbn [snd concat] in Hnd, Hrange.
    rewrite fmap_app in Hnd.
    apply NoDup_app in Hnd as (Hndb & Hdisj & Hndr).
    destruct (write_back_spec items query_scores scores0 Hql Hndb)
      as (Hwl & Hwpos & Hwkeep).
    { intros p Hp. apply Hrange. apply elem_of_app. left. exact Hp. }
    assert (Hrange' : forall p, p ∈ concat (snd <$> rest) ->
              0 <= fst p /\
              (Z.to_nat (fst p) <
               length (write_back scores0 items query_scores))%nat).
    { intros p Hp. rewrite Hwl. apply Hrange. apply elem_of_app. right.
      exact Hp. }
    destruct (IH _ _ _ _ Hndr Hrange' Hrun) as (Hlen & Hpos & Hkeep).
    split; [congruence|]. split.
    + intros q its Hin. apply elem_of_cons in Hin as [Heq|Hin].
      * inversion Heq; subst q its. exists n, m', query_scores.
        split; [exact Hq|]. intros j orig doc Hj.
        assert (Hino : (orig, doc) ∈ items)
          by (eapply list_elem_of_lookup_2; exact Hj).
        destruct (Hrange (orig, doc)) as [Ho _];
          [apply elem_of_app; left; exact Hino|].
        rewrite Hkeep; [eapply Hwpos; exact Hj|exact Ho|].
        apply Hdisj. apply list_elem_of_fmap. exists (orig, doc). auto.
      * apply Hpos, Hin.
    + intros i Hi Hnot. rewrite fmap_cons in Hnot. cbn [snd concat] in Hnot.
      rewrite fmap_app in Hnot.
      apply not_elem_of_app in Hnot as [Hnb Hnr].
      rewrite (Hkeep i Hi Hnr). apply Hwkeep; assumption.
Qed.

Lemma group_pairs_indices pairs :
  fst <$> concat (snd <$> group_pairs pairs) ≡ₚ fst <$> enumerate pairs.
Proof.
  destruct (group_pairs_inv pairs) as (_ & _ & Hperm). rewrite Hperm.
  generalize (enumerate pairs) as l. intros l.
  induction l as [|x l IH]; [reflexivity|].
  rewrite !fmap_cons. cbn [concat app fmap list_fmap fst]. rewrite IH.
  reflexivity.
Qed.

(** X9.  When [score_pairs] returns, there is one score per pair, in
    the order of [pairs]: the score of the pair [(q, d)] at position [i] is
    the one [_rerank_one_query], called with [q] and the documents paired
    with [q], returned for [d]. *)
Theorem score_pairs_scores (api : Api) (n : nat)
    (pairs : list (pystr * pystr)) (scores : list PyFloat.t) (n' : nat) :
  score_pairs api n pairs = (Ok scores, n') ->
  length scores = length pairs /\
  forall i q d, pairs !! i = Some (q, d) ->
    exists m m' query_scores j,
      rerank_one_query api m q
        (snd <$> docs_of_query q (enumerate pairs)) = (Ok query_scores, m') /\
      docs_of_query q (enumerate pairs) !! j = Some (Z.of_nat i, d) /\
      scores !! i = query_scores !! j.
Proof.
  unfold score_pairs. destruct (nonempty pairs) eqn:Hne.
  2: { destruct pairs; [|discriminate]. intros Hrun. inversion Hrun; subst.
       split; [reflexivity|]. intros i q d Hi. discriminate. }
  intros Hrun. apply score_groups_spec in Hrun as (Hlen & Hpos & _).
  - rewrite length_replicate in Hlen. split; [exact Hlen|].
    intros i q d Hi.
    assert (Hin : (Z.of_nat i, d) ∈ docs_of_query q (enumerate pairs)).
    { apply docs_of_query_elem_of. apply list_elem_of_lookup. exists i.
      unfold enumerate. rewrite enumerate_from_lookup, Hi. reflexivity. }
    destruct (group_pairs_inv pairs) as (Hnd & Hget & _).
    assert (Hgrp : (q, docs_of_query q (enumerate pairs)) ∈ group_pairs pairs).
    { apply (Py.dict_get_elem_of _ pystr_eqb_eq). rewrite Hget.
      destruct (docs_of_query q (enumerate pairs)); [inversion Hin|].
      reflexivity. }
    destruct (Hpos _ _ Hgrp) as (m & m' & qs & Hq & Hs).
    apply list_elem_of_lookup_1 in Hin as [j Hj].
    exists m, m', qs, j. split; [exact Hq|]. split; [exact Hj|].
    rewrite <- (Hs j _ _ Hj), Nat2Z.id. reflexivity.
  - rewrite group_pairs_indices. apply enumerate_from_NoDup.
  - intros p Hp.
    assert (H : fst p ∈ fst <$> enumerate pairs).
    { rewrite <- group_pairs_indices. apply list_elem_of_fmap. eauto. }
    unfold enumerate in H. rewrite enumerate_from_fst in H.
    apply elem_of_seqZ in H. rewrite length_replicate. lia.
Qed.

Lemma score_pairs_scores_witness :
  score_pairs sample_api 0
    [([113]%N, sample_doc); ([114]%N, sample_doc); ([113]%N, sample_doc)] =
    (Ok [PyFloat.Finite 1; PyFloat.Finite 2; PyFloat.Finite 1], 2%nat) /\
  length [PyFloat.Finite 1; PyFloat.Finite 2; PyFloat.Finite 1] = 3%nat.
Proof.
  split; [reflexivity|].
  apply (score_pairs_scores sample_api 0
           [([113]%N, sample_doc); ([114]%N, sample_doc);
            ([113]%N, sample_doc)] _ 2 eq_refl).
Defined.


End ApiReranker.

(** ** Filtering results by file extension
    ([ChainSearchEngine._filter_by_extension]) *)

Module ExtensionFilter.
Import Entities.
Local Open Scope list_scope.
Local Open Scope Z_scope.

(** The set literal [NON_CODE_EXTENSIONS]. *)
Definition NON_CODE_EXTENSIONS : list string :=
  ["md"; "txt"; "json"; "yaml"; "yml"; "xml"; "csv"; "log";
   "ini"; "cfg"; "conf"; "toml"; "env"; "properties";
   "html"; "htm"; "svg"; "png"; "jpg"; "jpeg"; "gif"; "ico"; "webp";
   "pdf"; "doc"; "docx"; "xls"; "xlsx"; "ppt"; "pptx";
   "lock"; "sum"; "mod"]%string.

(** [s.lstrip('.')]. *)
Fixpoint lstrip_dots (s : string) : string :=
  match s with
  | String c s' => if Ascii.eqb c "." then lstrip_dots s' else s
  | EmptyString => EmptyString
  end.

(** [s.rsplit('.', 1)[-1]] when ['.' in s], [None] when [s] has no dot. *)
Fixpoint after_last_dot (s : string) : option string :=
  match s with
  | EmptyString => None
  | String c s' =>
      match after_last_dot s' with
      | Some ext => Some ext
      | None => if Ascii.eqb c "." then Some s' else None
      end
  end.

(** ['.' in s]. *)
Fixpoint has_dot (s : string) : bool :=
  match s with
  | EmptyString => false
  | String c s' => Ascii.eqb c "." || has_dot s'
  end.

Section WithLower.
(** [str.lower]. *)
Variable lower : string -> string.

(** The set [excluded_exts] built from the two arguments, as the list of
    its members. *)
Definition excluded_exts (code_only : bool)
    (exclude_extensions : option (list string)) : list string :=
  match exclude_extensions with
  | Some (ext :: exts) => (fun e => lstrip_dots (lower e)) <$> (ext :: exts)
  | _ => []
  end ++ (if code_only then NON_CODE_EXTENSIONS else []).

(** The body of [for result in results]: [true] when the result is
    appended to [filtered]. *)
Definition kept (excluded : list string) (result : SearchResult) : bool :=
  match path result with
  | EmptyString => false
  | path_str =>
      match after_last_dot path_str with
      | Some ext => negb (bool_decide (lower ext ∈ excluded))
      | None => true
      end
  end.

(** [_filter_by_extension]. *)
Definition filter_by_extension (results : list SearchResult)
    (code_only : bool) (exclude_extensions : option (list string))
    : list SearchResult :=
  let excluded := excluded_exts code_only exclude_extensions in
  match excluded with
  | [] => results
  | _ :: _ => List.filter (kept excluded) results
  end.

End WithLower.

(** *** Facts *)

Lemma after_last_dot_has_dot (s : string) :
  has_dot s = true <-> exists ext, after_last_dot s = Some ext.
Proof.
  induction s as [|c s IH]; cbn.
  - split; [discriminate|intros [ext H]; discriminate].
  - destruct (after_last_dot s) as [ext|].
    + rewrite (proj2 IH) by eauto. rewrite orb_true_r. split; eauto.
    + destruct (has_dot s) eqn:Hd.
      * destruct (proj1 IH eq_refl) as [ext H]. discriminate.
      * rewrite orb_false_r. destruct (Ascii.eqb c "."); split; eauto;
          try discriminate. intros [ext H]. discriminate.
Qed.

(** The suffix is what follows the last dot: it has no dot itself, and
    the path is some prefix, a dot, and the suffix. *)
Lemma after_last_dot_spec (s ext : string) :
  after_last_dot s = Some ext <->
  has_dot ext = false /\ exists pre, s = (pre ++ "." ++ ext)%string.
Proof.
  revert ext. induction s as [|c s IH]; intros ext; cbn [after_last_dot].
  - split; [discriminate|]. intros [_ [pre H]].
    destruct pre; discriminate.
  - destruct (after_last_dot s) as [e|] eqn:He.
    + split.
      * intros H. inversion H; subst e.
        destruct (proj1 (IH ext) eq_refl) as [Hd [pre Hp]].
        split; [exact Hd|]. exists (String c pre). cbn. rewrite Hp.
        reflexivity.
      * intros [Hd [pre Hp]]. f_equal. destruct pre as [|c' pre]; cbn in Hp.
        { inversion Hp; subst.
          assert (Hx : has_dot ext = true)
            by (apply after_last_dot_has_dot; eauto).
          congruence. }
        inversion Hp; subst.
        assert (H : Some e = Some ext); [|congruence].
        apply IH. split; [exact Hd|eauto].
    + assert (Hnd : has_dot s = false).
      { destruct (has_dot s) eqn:Hd; [|reflexivity].
        apply after_last_dot_has_dot in Hd as [e H]. congruence. }
      destruct (Ascii.eqb_spec c "."%char) as [->|Hc].
      * split.
        { intros H. inversion H; subst. split; [exact Hnd|].
          exists ""%string. reflexivity. }
        intros [Hd [pre Hp]]. destruct pre as [|c' pre]; cbn in Hp.
        { inversion Hp. reflexivity. }
        inversion Hp; subst. exfalso.
        assert (H : None = Some ext)
          by (apply IH; split; [exact Hd|eauto]).
        discriminate.
      * split; [discriminate|].
        intros [Hd [pre Hp]]. destruct pre as [|c' pre]; cbn in Hp.
        { inversion Hp. congruence. }
        inversion Hp; subst. exfalso.
        assert (H : None = Some ext)
          by (apply IH; split; [exact Hd|eauto]).
        discriminate.
Qed.

Lemma kept_spec lower excluded r :
  kept lower excluded r = true <->
  path r <> ""%string /\
  forall ext, after_last_dot (path r) = Some ext -> lower ext ∉ excluded.
Proof.
  unfold kept. destruct (path r) as [|c s] eqn:Hp.
  - split; [discriminate|]. intros [H _]. contradiction.
  - destruct (after_last_dot (String c s)) as [ext|].
    + rewrite negb_true_iff, bool_decide_eq_false. split.
      * intros H. split; [discriminate|]. intros e He. inversion He; subst.
        exact H.
      * intros [_ H]. apply H. reflexivity.
    + split; [|reflexivity]. intros _. split; [discriminate|].
      intros e He. discriminate.
Qed.

Lemma filter_sublist {A} (f : A -> bool) (l : list A) :
  sublist (List.filter f l) l.
Proof.
  induction l as [|x l IH]; cbn; [constructor|].
  destruct (f x); [apply sublist_skip|apply sublist_cons]; exact IH.
Qed.

Lemma filter_filter_same {A} (f : A -> bool) (l : list A) :
  List.filter f (List.filter f l) = List.filter f l.
Proof.
  induction l as [|x l IH]; cbn; [reflexivity|].
  destruct (f x) eqn:E; cbn; [rewrite E, IH|]; auto.
Qed.

(** X10.  [_filter_by_extension] returns its input unchanged when nothing
    is excluded.  Otherwise it returns, in their order, exactly the
    results whose path is not empty and is not of the form
    [prefix.suffix] with a dot-free suffix that lowercases to an excluded
    extension; in particular a path without a dot is kept. *)
Theorem filter_by_extension_spec (lower : string -> string)
    (results : list SearchResult) (code_only : bool)
    (exclude_extensions : option (list string)) :
  sublist (filter_by_extension lower results code_only exclude_extensions)
    results /\
  (excluded_exts lower code_only exclude_extensions = [] ->
   filter_by_extension lower results code_only exclude_extensions = results) /\
  (excluded_exts lower code_only exclude_extensions <> [] ->
   forall r,
     r ∈ filter_by_extension lower results code_only exclude_extensions <->
     r ∈ results /\ path r <> ""%string /\
     forall pre ext,
       path r = (pre ++ "." ++ ext)%string -> has_dot ext = false ->
       lower ext ∉ excluded_exts lower code_only exclude_extensions).
Proof.
  unfold filter_by_extension.
  destruct (excluded_exts lower code_only exclude_extensions) as [|e es]
    eqn:Hex.
  - split; [reflexivity|]. split; [reflexivity|]. intros H. contradiction.
  - split; [apply filter_sublist|]. split; [discriminate|].
    intros _ r. rewrite list_elem_of_In, filter_In, <- list_elem_of_In.
    rewrite kept_spec. split.
    + intros (Hin & Hne & Hk). split; [exact Hin|]. split; [exact Hne|].
      intros pre ext Hp Hd. apply Hk. apply after_last_dot_spec. eauto.
    + intros (Hin & Hne & Hk). split; [exact Hin|]. split; [exact Hne|].
      intros ext He. apply after_last_dot_spec in He as [Hd [pre Hp]].
      eapply Hk; eassumption.
Qed.

(** X11.  Filtering twice with the same arguments gives the same list as
    filtering once. *)
Theorem filter_by_extension_idempotent (lower : string -> string)
    (results : list SearchResult) (code_only : bool)
    (exclude_extensions : option (list string)) :
  filter_by_extension lower
    (filter_by_extension lower results code_only exclude_extensions)
    code_only exclude_extensions =
  filter_by_extension lower results code_only exclude_extensions.
Proof.
  unfold filter_by_extension.
  destruct (excluded_exts lower code_only exclude_extensions);
    [reflexivity|apply filter_filter_same].
Qed.

End ExtensionFilter.

(** ** Symbol search across indexes
    ([ChainSearchEngine._search_symbols_parallel],
    [_search_symbols_single] and the tail of [search_symbols]) *)

Module SymbolSearch.
Import Entities.
Import ChainSearch (Try, Ok, Exc).
Local Open Scope list_scope.
Local Open Scope Z_scope.

(** The attributes of a [Symbol] the engine reads.  Names are UTF-8
    strings, whose byte order is the code point order Python compares
    by. *)
Record Symbol := {
  name : string;
  kind : string;
  range : Z * Z;
  file : option string
}.

Definition Key : Type := string * string * (Z * Z).

(** [(sym.name, sym.kind, sym.range)]. *)
Definition key_of (sym : Symbol) : Key := (name sym, kind sym, range sym).

(** [_search_symbols_single]: the store's answer, [[]] when it raises. *)
Definition search_symbols_single (store : Path -> Try (list Symbol))
    (index_path : Path) : list Symbol :=
  match store index_path with
  | Ok symbols => symbols
  | Exc _ => []
  end.

(** One iteration of the deduplication loop over [seen] and
    [unique_symbols]. *)
Definition unique_step (st : gset Key * list Symbol) (sym : Symbol)
    : gset Key * list Symbol :=
  let key := key_of sym in
  if bool_decide (key ∈ fst st) then st
  else ({[key]} ∪ fst st, snd st ++ [sym]).

Definition unique_by_key (symbols : list Symbol) : list Symbol :=
  snd (fold_left unique_step symbols (∅, [])).

(** [sort(key=lambda s: s.name)]: stable, ascending. *)
Fixpoint insert_by_name (sym : Symbol) (sorted : list Symbol) : list Symbol :=
  match sorted with
  | [] => [sym]
  | x :: rest =>
      if String.leb (name sym) (name x) then sym :: sorted
      else x :: insert_by_name sym rest
  end.

Definition sort_by_name (symbols : list Symbol) : list Symbol :=
  foldr insert_by_name [] symbols.

(** The common tail of [_search_symbols_parallel] and of the fast path
    of [search_symbols]: deduplicate, sort, truncate. *)
Definition unique_sorted_prefix (symbols : list Symbol) (limit : Z)
    : list Symbol :=
  Py.slice (sort_by_name (unique_by_key symbols)) 0 limit.

(** [_search_symbols_parallel]; [completed] lists the index paths in the
    order in which [as_completed] yields their futures. *)
Definition search_symbols_parallel (store : Path -> Try (list Symbol))
    (completed : list Path) (limit : Z) : list Symbol :=
  let all_symbols := flat_map (search_symbols_single store) completed in
  unique_sorted_prefix all_symbols limit.

(** Vocabulary: ascending names. *)
Definition by_name (a b : Symbol) : Prop :=
  String.leb (name a) (name b) = true.

Definition sample_symbol (n k : string) (f : string) : Symbol :=
  {| name := n; kind := k; range := (1, 2); file := Some f |}.

Definition sample_store (p : Path) : Try (list Symbol) :=
  if String.eqb p "a" then
    Ok [sample_symbol "run" "function" "a.py";
        sample_symbol "init" "function" "a.py"]
  else if String.eqb p "b" then
    Ok [sample_symbol "run" "function" "b.py"]
  else Exc "no such index".

(** *** Facts *)

Lemma ascii_compare_cases (a b : ascii) :
  match Ascii.compare a b with
  | Eq => a = b
  | Lt => (N_of_ascii a < N_of_ascii b)%N
  | Gt => (N_of_ascii b < N_of_ascii a)%N
  end.
Proof.
  unfold Ascii.compare.
  destruct (N.compare_spec (N_of_ascii a) (N_of_ascii b)) as [H|H|H];
    try exact H.
  rewrite <- (ascii_N_embedding a), <- (ascii_N_embedding b), H.
  reflexivity.
Qed.

Lemma string_leb_trans (a b c : string) :
  String.leb a b = true -> String.leb b c = true -> String.leb a c = true.
Proof.
  unfold String.leb. revert b c.
  induction a as [|x a IH]; intros [|y b] [|z c]; cbn; try easy.
  pose proof (ascii_compare_cases x y) as Hxy.
  pose proof (ascii_compare_cases y z) as Hyz.
  pose proof (ascii_compare_cases x z) as Hxz.
  destruct (Ascii.compare x y) eqn:Exy; destruct (Ascii.compare y z) eqn:Eyz;
    destruct (Ascii.compare x z) eqn:Exz; subst; try easy;
    try (intros; exfalso; lia);
    try (rewrite Exz in Eyz; discriminate);
    try (rewrite Exz in Exy; discriminate).
  apply IH.
Qed.

Lemma string_leb_refl (a : string) : String.leb a a = true.
Proof. destruct (String.leb_total a a); assumption. Qed.

Lemma unique_step_inv seen unique sym (done : list Symbol) :
  (forall k, k ∈ seen <-> k ∈ key_of <$> unique) ->
  NoDup (key_of <$> unique) ->
  (forall s, s ∈ unique -> s ∈ done) ->
  (forall s, s ∈ done -> key_of s ∈ seen) ->
  let st := unique_step (seen, unique) sym in
  (forall k, k ∈ fst st <-> k ∈ key_of <$> snd st) /\
  NoDup (key_of <$> snd st) /\
  (forall s, s ∈ snd st -> s ∈ done ++ [sym]) /\
  (forall s, s ∈ done ++ [sym] -> key_of s ∈ fst st).
Proof.
  intros Hseen Hnd Hsub Hcov. unfold unique_step. cbn [fst snd].
  destruct (bool_decide (key_of sym ∈ seen)) eqn:Hd; cbn [fst snd].
  - apply bool_decide_eq_true in Hd. split; [exact Hseen|].
    split; [exact Hnd|]. split.
    + intros s Hs. apply elem_of_app. left. auto.
    + intros s Hs. apply elem_of_app in Hs as [Hs|Hs]; [auto|].
      apply list_elem_of_singleton in Hs. subst s. exact Hd.
  - apply bool_decide_eq_false in Hd. split; [|split; [|split]].
    + intros k. rewrite fmap_app, elem_of_app, elem_of_union, Hseen.
      cbn. rewrite list_elem_of_singleton, elem_of_singleton. tauto.
    + rewrite fmap_app. apply NoDup_app. split; [exact Hnd|]. split.
      * intros k Hk Hk'. cbn in Hk'. apply list_elem_of_singleton in Hk'.
        subst k. apply Hd, Hseen, Hk.
      * cbn. apply NoDup_singleton.
    + intros s Hs. apply elem_of_app in Hs as [Hs|Hs];
        apply elem_of_app; auto.
    + intros s Hs. apply elem_of_union.
      apply elem_of_app in Hs as [Hs|Hs]; [right; auto|].
      apply list_elem_of_singleton in Hs. subst s. left.
      apply elem_of_singleton. reflexivity.
Qed.

Lemma unique_fold_inv symbols : forall seen unique done,
  (forall k, k ∈ seen <-> k ∈ key_of <$> unique) ->
  NoDup (key_of <$> unique) ->
  (forall s, s ∈ unique -> s ∈ done) ->
  (forall s, s ∈ done -> key_of s ∈ seen) ->
  let st := fold_left unique_step symbols (seen, unique) in
  (forall k, k ∈ fst st <-> k ∈ key_of <$> snd st) /\
  NoDup (key_of <$> snd st) /\
  (forall s, s ∈ snd st -> s ∈ done ++ symbols) /\
  (forall s, s ∈ done ++ symbols -> key_of s ∈ fst st).
Proof.
  induction symbols as [|sym symbols IH]; intros seen unique done
    Hseen Hnd Hsub Hcov; cbn [fold_left].
  - cbn. rewrite app_nil_r. auto.
  - destruct (unique_step_inv seen unique sym done Hseen Hnd Hsub Hcov)
      as (H1 & H2 & H3 & H4).
    destruct (unique_step (seen, unique) sym) as [seen' unique'].
    cbn [fst snd] in *.
    replace (done ++ sym :: symbols) with ((done ++ [sym]) ++ symbols)
      by (rewrite <- app_assoc; reflexivity).
    apply IH; assumption.
Qed.

Lemma unique_fold_start symbols :
  let st := fold_left unique_step symbols (∅, []) in
  (forall k, k ∈ fst st <-> k ∈ key_of <$> snd st) /\
  NoDup (key_of <$> snd st) /\
  (forall s, s ∈ snd st -> s ∈ symbols) /\
  (forall s, s ∈ symbols -> key_of s ∈ fst st).
Proof.
  apply (unique_fold_inv symbols ∅ [] []).
  - intros k. cbn. rewrite elem_of_empty, elem_of_nil. tauto.
  - constructor.
  - intros s Hs. inversion Hs.
  - intros s Hs. inversion Hs.
Qed.

Lemma unique_by_key_facts symbols :
  NoDup (key_of <$> unique_by_key symbols) /\
  (forall s, s ∈ unique_by_key symbols -> s ∈ symbols) /\
  (forall s, s ∈ symbols -> key_of s ∈ key_of <$> unique_by_key symbols).
Proof.
  unfold unique_by_key.
  destruct (unique_fold_start symbols) as (Hseen & Hnd & Hsub & Hcov).
  split; [exact Hnd|]. split; [exact Hsub|].
  intros s Hs. apply Hseen, Hcov, Hs.
Qed.

Lemma unique_fold_mono symbols : forall st s,
  s ∈ snd st -> s ∈ snd (fold_left unique_step symbols st).
Proof.
  induction symbols as [|sym symbols IH]; intros st s Hs; cbn [fold_left];
    [exact Hs|].
  apply IH. unfold unique_step.
  destruct (bool_decide (key_of sym ∈ fst st)); [exact Hs|].
  cbn [snd]. apply elem_of_app. left. exact Hs.
Qed.

Lemma unique_step_fresh st sym :
  key_of sym ∉ fst st -> sym ∈ snd (unique_step st sym).
Proof.
  intros H. unfold unique_step. rewrite bool_decide_eq_false_2 by exact H.
  cbn [snd]. apply elem_of_app. right. constructor.
Qed.

Lemma insert_by_name_perm sym l : insert_by_name sym l ≡ₚ sym :: l.
Proof.
  induction l as [|x l IH]; cbn; [reflexivity|].
  destruct (String.leb (name sym) (name x)); [reflexivity|].
  rewrite IH. apply Permutation_swap.
Qed.

Lemma sort_by_name_perm l : sort_by_name l ≡ₚ l.
Proof.
  induction l as [|x l IH]; cbn; [reflexivity|].
  rewrite insert_by_name_perm, IH. reflexivity.
Qed.

Lemma insert_by_name_sorted sym l :
  StronglySorted by_name l -> StronglySorted by_name (insert_by_name sym l).
Proof.
  induction l as [|x l IH]; cbn; intros Hs.
  - repeat constructor.
  - apply StronglySorted_inv in Hs as [Hs Hall].
    destruct (String.leb (name sym) (name x)) eqn:Hcmp.
    + constructor; [constructor; assumption|].
      constructor; [exact Hcmp|].
      rewrite Forall_forall in Hall |- *. intros y Hy.
      eapply string_leb_trans; [exact Hcmp|]. apply Hall, Hy.
    + constructor; [apply IH, Hs|].
      apply Forall_forall. intros y Hy. rewrite insert_by_name_perm in Hy.
      apply elem_of_cons in Hy as [->|Hy].
      * destruct (String.leb_total (name x) (name sym)) as [H|H];
          [exact H|congruence].
      * rewrite Forall_forall in Hall. apply Hall, Hy.
Qed.

Lemma sort_by_name_sorted l : StronglySorted by_name (sort_by_name l).
Proof.
  induction l as [|x l IH]; cbn; [constructor|].
  apply insert_by_name_sorted, IH.
Qed.

Lemma insert_by_name_filter (p : Symbol -> bool) sym l :
  (forall x, p x = true -> p sym = true ->
             String.leb (name sym) (name x) = true) ->
  List.filter p (insert_by_name sym l) =
  if p sym then sym :: List.filter p l else List.filter p l.
Proof.
  intros Hp. induction l as [|x l IH]; cbn.
  - destruct (p sym); reflexivity.
  - destruct (String.leb (name sym) (name x)) eqn:Hcmp; cbn.
    + destruct (p sym); reflexivity.
    + rewrite IH. destruct (p x) eqn:Hx; destruct (p sym) eqn:Hs;
        try reflexivity.
      rewrite (Hp x Hx eq_refl) in Hcmp. discriminate.
Qed.

Lemma sort_by_name_stable (n : string) l :
  List.filter (fun s => String.eqb (name s) n) (sort_by_name l) =
  List.filter (fun s => String.eqb (name s) n) l.
Proof.
  induction l as [|x l IH]; cbn [sort_by_name foldr]; [reflexivity|].
  rewrite insert_by_name_filter.
  - cbn [List.filter]. fold (sort_by_name l). rewrite IH. reflexivity.
  - intros y Hy Hx. apply String.eqb_eq in Hy, Hx. rewrite Hy, Hx.
    apply string_leb_refl.
Qed.

Lemma sublist_StronglySorted {A} (R : A -> A -> Prop) (l k : list A) :
  sublist l k -> StronglySorted R k -> StronglySorted R l.
Proof.
  intros Hsub. induction Hsub as [|x l k Hsub IH|x l k Hsub IH]; intros Hs.
  - constructor.
  - apply StronglySorted_inv in Hs as [Hs Hall]. constructor; [auto|].
    rewrite Forall_forall in Hall |- *. intros y Hy. apply Hall.
    eapply elem_of_sublist; eassumption.
  - apply StronglySorted_inv in Hs as [Hs _]. auto.
Qed.

Lemma slice_from_0_take {A} (l : list A) (limit : Z) :
  0 <= limit -> Py.slice l 0 limit = take (Z.to_nat limit) l.
Proof.
  intros Hl. unfold Py.slice, Py.clamp_index.
  replace (0 <? 0) with false by reflexivity.
  replace (limit <? 0) with false by (symmetry; apply Z.ltb_ge; lia).
  rewrite (Z.min_l 0) by lia. change (skipn (Z.to_nat 0) l) with l.
  rewrite Z.sub_0_r.
  destruct (Z.min_spec limit (Z.of_nat (length l))) as [[H1 ->]|[H1 ->]].
  - reflexivity.
  - rewrite Nat2Z.id, firstn_all. symmetry. apply take_ge. lia.
Qed.

Lemma slice_from_0_sublist {A} (l : list A) (limit : Z) :
  sublist (Py.slice l 0 limit) l.
Proof.
  unfold Py.slice. set (n := Z.to_nat _). set (m := Z.to_nat _).
  transitivity (skipn m l).
  - apply sublist_take.
  - apply sublist_drop.
Qed.

(** X12.  The symbols [_search_symbols_parallel] returns are sorted by
    name, carry pairwise distinct [(name, kind, range)] keys, and each was
    found by [_search_symbols_single] in one of the indexes; whatever the
    order in which the indexes complete. *)
Theorem search_symbols_parallel_sound (store : Path -> Try (list Symbol))
    (completed : list Path) (limit : Z) :
  StronglySorted by_name (search_symbols_parallel store completed limit) /\
  NoDup (key_of <$> search_symbols_parallel store completed limit) /\
  forall sym, sym ∈ search_symbols_parallel store completed limit ->
    exists index_path symbols,
      index_path ∈ completed /\ store index_path = Ok symbols /\
      sym ∈ symbols.
Proof.
  unfold search_symbols_parallel, unique_sorted_prefix.
  set (all_symbols := flat_map (search_symbols_single store) completed).
  destruct (unique_by_key_facts all_symbols) as (Hnd & Hsub & _).
  pose proof (slice_from_0_sublist
                (sort_by_name (unique_by_key all_symbols)) limit) as Hsl.
  split; [|split].
  - eapply sublist_StronglySorted; [exact Hsl|apply sort_by_name_sorted].
  - eapply sublist_NoDup; [|apply fmap_sublist, Hsl].
    rewrite sort_by_name_perm. exact Hnd.
  - intros sym Hin.
    assert (Hall : sym ∈ all_symbols).
    { apply Hsub. rewrite <- sort_by_name_perm.
      eapply elem_of_sublist; eassumption. }
    apply list_elem_of_In, in_flat_map in Hall as (p & Hp & Hs).
    unfold search_symbols_single in Hs.
    destruct (store p) as [symbols|e] eqn:Hst; [|inversion Hs].
    exists p, symbols. split; [apply list_elem_of_In, Hp|].
    split; [exact Hst|apply list_elem_of_In, Hs].
Qed.

(** X13.  For a non-negative [limit], [_search_symbols_parallel] returns
    at most [limit] symbols, and when [limit] is at least the number of
    symbols found, every symbol found is represented: the result holds a
    symbol with the same [(name, kind, range)] key. *)
Theorem search_symbols_parallel_limit (store : Path -> Try (list Symbol))
    (completed : list Path) (limit : Z) :
  0 <= limit ->
  Z.of_nat (length (search_symbols_parallel store completed limit)) <= limit /\
  (Z.of_nat (length (flat_map (search_symbols_single store) completed))
     <= limit ->
   forall index_path symbols sym,
     index_path ∈ completed -> store index_path = Ok symbols ->
     sym ∈ symbols ->
     key_of sym ∈ key_of <$> search_symbols_parallel store completed limit).
Proof.
  intros Hlimit. unfold search_symbols_parallel, unique_sorted_prefix.
  set (all_symbols := flat_map (search_symbols_single store) completed).
  rewrite slice_from_0_take by exact Hlimit. split.
  - rewrite length_take. lia.
  - intros Hall p symbols sym Hp Hst Hs.
    destruct (unique_by_key_facts all_symbols) as (Hnd & Hsub & Hcov).
    assert (Hlen : (length (unique_by_key all_symbols) <= length all_symbols)%nat).
    { rewrite <- (length_fmap key_of (unique_by_key all_symbols)).
      rewrite <- (length_fmap key_of all_symbols).
      apply submseteq_length, NoDup_submseteq; [exact Hnd|].
      intros k Hk. apply list_elem_of_fmap in Hk as (s & -> & Hk).
      apply list_elem_of_fmap. exists s. split; [reflexivity|apply Hsub, Hk]. }
    rewrite take_ge
      by (rewrite (Permutation_length (sort_by_name_perm _)); lia).
    rewrite sort_by_name_perm. apply Hcov.
    apply list_elem_of_In, in_flat_map. exists p.
    split; [apply list_elem_of_In, Hp|].
    unfold search_symbols_single. rewrite Hst. apply list_elem_of_In, Hs.
Qed.

Lemma search_symbols_parallel_limit_witness :
  0 <= 5 /\
  Z.of_nat (length (search_symbols_parallel sample_store ["a"; "b"; "c"] 5))
    <= 5.
Proof.
  assert (H : 0 <= 5) by lia. split; [exact H|].
  apply (search_symbols_parallel_limit sample_store ["a"; "b"; "c"] 5 H).
Defined.

(** X14.  Of the symbols that share a [(name, kind, range)] key, the one
    found first is the one returned (when [limit] does not truncate): later
    symbols with the same key, also from other files, are dropped. *)
Theorem search_symbols_parallel_first_found
    (store : Path -> Try (list Symbol)) (completed : list Path) (limit : Z)
    (pre post : list Symbol) (sym : Symbol) :
  flat_map (search_symbols_single store) completed = pre ++ sym :: post ->
  key_of sym ∉ key_of <$> pre ->
  Z.of_nat (length (flat_map (search_symbols_single store) completed))
    <= limit ->
  sym ∈ search_symbols_parallel store completed limit /\
  forall other, other ∈ search_symbols_parallel store completed limit ->
    key_of other = key_of sym -> other = sym.
Proof.
  intros Hall Hfresh Hlimit.
  unfold search_symbols_parallel, unique_sorted_prefix.
  set (all_symbols := flat_map (search_symbols_single store) completed) in *.
  destruct (unique_by_key_facts all_symbols) as (Hnd & Hsub & _).
  assert (Hlen : (length (unique_by_key all_symbols) <= length all_symbols)%nat).
  { rewrite <- (length_fmap key_of (unique_by_key all_symbols)).
    rewrite <- (length_fmap key_of all_symbols).
    apply submseteq_length, NoDup_submseteq; [exact Hnd|].
    intros k Hk. apply list_elem_of_fmap in Hk as (s & -> & Hk).
    apply list_elem_of_fmap. exists s. split; [reflexivity|apply Hsub, Hk]. }
  rewrite slice_from_0_take by lia.
  rewrite take_ge by (rewrite (Permutation_length (sort_by_name_perm _)); lia).
  assert (Hsym : sym ∈ unique_by_key all_symbols).
  { unfold unique_by_key. rewrite Hall, fold_left_app. cbn [fold_left].
    destruct (unique_fold_start pre) as (Hseen & _ & Hsubp & _).
    apply unique_fold_mono, unique_step_fresh. intros Hd. apply Hfresh.
    apply Hseen in Hd. apply list_elem_of_fmap in Hd as (s & Hk & Hs).
    apply list_elem_of_fmap. exists s. split; [exact Hk|apply Hsubp, Hs]. }
  split; [rewrite sort_by_name_perm; exact Hsym|].
  intros other Hother Hkey. rewrite sort_by_name_perm in Hother.
  apply list_elem_of_lookup_1 in Hother as [i Hi].
  apply list_elem_of_lookup_1 in Hsym as [j Hj].
  assert (i = j); [|congruence].
  eapply NoDup_lookup; [exact Hnd| |].
  - rewrite list_lookup_fmap, Hi. reflexivity.
  - rewrite list_lookup_fmap, Hj. cbn. f_equal. symmetry. exact Hkey.
Qed.

Lemma search_symbols_parallel_first_found_witness :
  flat_map (search_symbols_single sample_store) ["a"; "b"; "c"] =
    [] ++ sample_symbol "run" "function" "a.py"
       :: [sample_symbol "init" "function" "a.py";
           sample_symbol "run" "function" "b.py"] /\
  (key_of (sample_symbol "run" "function" "a.py") ∉ key_of <$> []) /\
  sample_symbol "run" "function" "a.py" ∈
    search_symbols_parallel sample_store ["a"; "b"; "c"] 5.
Proof.
  assert (Hfresh : key_of (sample_symbol "run" "function" "a.py")
                   ∉ key_of <$> []) by (intros H; inversion H).
  split; [reflexivity|]. split; [exact Hfresh|].
  apply (search_symbols_parallel_first_found sample_store ["a"; "b"; "c"] 5
           [] [sample_symbol "init" "function" "a.py";
               sample_symbol "run" "function" "b.py"]
           (sample_symbol "run" "function" "a.py") eq_refl Hfresh).
  cbn. lia.
Defined.

End SymbolSearch.

(** ** Searching the ancestor directories
    ([HybridSearchEngine._find_vectors_hnsw], the same loop in
    [_search_splade], and [find_workspace_root] of [codexlens/config.py]) *)

Module AncestorSearch.
Import Entities.
Local Open Scope list_scope.
Local Open Scope nat_scope.

(** What the loops ask of [pathlib]: [p.parent], [p / name],
    [p.exists()], [p.is_dir()] and [p.resolve()]. *)
Record PathOps := {
  parent : Path -> Path;
  join : Path -> string -> Path;
  exists_ : Path -> bool;
  is_dir : Path -> bool;
  resolve : Path -> Path
}.

Definition VECTORS_HNSW_NAME : string := "_vectors.hnsw".
Definition SPLADE_DB_NAME : string := "_splade.db".
Definition WORKSPACE_DIR_NAME : string := ".codexlens".

(** The loop [for _ in range(depth)] that looks for [name] in
    [current_dir] and its ancestors. *)
Fixpoint find_in_ancestors (fs : PathOps) (name : string) (depth : nat)
    (current_dir : Path) : option Path :=
  match depth with
  | O => None
  | S depth' =>
      let candidate := join fs current_dir name in
      if exists_ fs candidate then Some candidate
      else
        let parent_dir := parent fs current_dir in
        if String.eqb parent_dir current_dir then None
        else find_in_ancestors fs name depth' parent_dir
  end.

(** [_find_vectors_hnsw]. *)
Definition find_vectors_hnsw (fs : PathOps) (index_path : Path)
    : option Path :=
  find_in_ancestors fs VECTORS_HNSW_NAME 10 (parent fs index_path).

(** The value of [splade_db_path] after the loop of [_search_splade]. *)
Definition find_splade_db (fs : PathOps) (index_path : Path) : option Path :=
  find_in_ancestors fs SPLADE_DB_NAME 10 (parent fs index_path).

(** The [while current != current.parent] loop of [find_workspace_root]
    and the check of the root that follows it; the outer [None] is a
    loop that has not ended within [fuel] iterations. *)
Fixpoint find_workspace_loop (fs : PathOps) (fuel : nat) (current : Path)
    : option (option Path) :=
  match fuel with
  | O => None
  | S fuel' =>
      if negb (String.eqb current (parent fs current)) then
        if is_dir fs (join fs current WORKSPACE_DIR_NAME)
        then Some (Some current)
        else find_workspace_loop fs fuel' (parent fs current)
      else if is_dir fs (join fs current WORKSPACE_DIR_NAME)
           then Some (Some current)
           else Some None
  end.

(** [find_workspace_root]. *)
Definition find_workspace_root (fs : PathOps) (fuel : nat) (start_path : Path)
    : option (option Path) :=
  find_workspace_loop fs fuel (resolve fs start_path).

(** Vocabulary: the [n]-th ancestor of a directory. *)
Definition ancestor (fs : PathOps) (n : nat) (dir : Path) : Path :=
  Nat.iter n (parent fs) dir.

(** A sample tree [/p/src/pkg] whose index root [/p] holds the vector
    file and the workspace directory. *)
Definition sample_parent (p : Path) : Path :=
  if String.eqb p "/p/src/pkg/_index.db" then "/p/src/pkg"
  else if String.eqb p "/p/src/pkg" then "/p/src"
  else if String.eqb p "/p/src" then "/p"
  else "/".

Definition sample_fs : PathOps :=
  {| parent := sample_parent;
     join := fun d n => (d ++ "/" ++ n)%string;
     exists_ := fun p => String.eqb p "/p/_vectors.hnsw";
     is_dir := fun p => String.eqb p "/p/.codexlens";
     resolve := fun p => p |}.

(** *** Facts *)

Lemma ancestor_S fs n dir :
  ancestor fs (S n) dir = ancestor fs n (parent fs dir).
Proof. unfold ancestor. apply Nat.iter_succ_r. Qed.

Lemma ancestor_root fs n dir : parent fs dir = dir -> ancestor fs n dir = dir.
Proof.
  intros H. induction n as [|n IH]; [reflexivity|].
  unfold ancestor. rewrite Nat.iter_succ. fold (ancestor fs n dir).
  rewrite IH. exact H.
Qed.

Lemma find_in_ancestors_spec fs name depth : forall dir,
  match find_in_ancestors fs name depth dir with
  | Some found =>
      exists n, n < depth /\
        found = join fs (ancestor fs n dir) name /\
        exists_ fs found = true /\
        forall m, m < n -> exists_ fs (join fs (ancestor fs m dir) name) = false
  | None =>
      forall n, n < depth ->
        exists_ fs (join fs (ancestor fs n dir) name) = false
  end.
Proof.
  induction depth as [|depth IH]; intros dir; cbn [find_in_ancestors].
  - intros n Hn. lia.
  - destruct (exists_ fs (join fs dir name)) eqn:Hex.
    + exists 0. split; [lia|]. split; [reflexivity|]. split; [exact Hex|].
      intros m Hm. lia.
    + destruct (String.eqb_spec (parent fs dir) dir) as [Hroot|Hup].
      * intros n Hn. rewrite ancestor_root by exact Hroot. exact Hex.
      * specialize (IH (parent fs dir)).
        destruct (find_in_ancestors fs name depth (parent fs dir)) as [found|].
        -- destruct IH as (n & Hn & Hfound & Hfex & Hmin).
           exists (S n). split; [lia|]. rewrite ancestor_S.
           split; [exact Hfound|]. split; [exact Hfex|].
           intros [|m] Hm; [exact Hex|]. rewrite ancestor_S. apply Hmin. lia.
        -- intros [|n] Hn; [exact Hex|]. rewrite ancestor_S. apply IH. lia.
Qed.

Lemma find_workspace_loop_spec fs depth : forall fuel current,
  parent fs (ancestor fs depth current) = ancestor fs depth current ->
  depth < fuel ->
  exists r, find_workspace_loop fs fuel current = Some r /\
    match r with
    | Some root =>
        exists n, root = ancestor fs n current /\
          is_dir fs (join fs root WORKSPACE_DIR_NAME) = true /\
          forall m, m < n ->
            is_dir fs (join fs (ancestor fs m current) WORKSPACE_DIR_NAME)
            = false
    | None =>
        forall n,
          is_dir fs (join fs (ancestor fs n current) WORKSPACE_DIR_NAME)
          = false
    end.
Proof.
  induction depth as [|depth IH]; intros fuel current Hroot Hfuel;
    (destruct fuel as [|fuel]; [lia|]); cbn [find_workspace_loop].
  - cbn in Hroot. rewrite Hroot, String.eqb_refl. cbn [negb].
    destruct (is_dir fs (join fs current WORKSPACE_DIR_NAME)) eqn:Hd.
    + exists (Some current). split; [reflexivity|]. exists 0.
      split; [reflexivity|]. split; [exact Hd|]. intros m Hm. lia.
    + exists None. split; [reflexivity|]. intros n.
      rewrite ancestor_root by exact Hroot. exact Hd.
  - destruct (String.eqb_spec current (parent fs current)) as [Heq|Hne];
      cbn [negb].
    + destruct (is_dir fs (join fs current WORKSPACE_DIR_NAME)) eqn:Hd.
      * exists (Some current). split; [reflexivity|]. exists 0.
        split; [reflexivity|]. split; [exact Hd|]. intros m Hm. lia.
      * exists None. split; [reflexivity|]. intros n.
        rewrite ancestor_root by (symmetry; exact Heq). exact Hd.
    + destruct (is_dir fs (join fs current WORKSPACE_DIR_NAME)) eqn:Hd.
      * exists (Some current). split; [reflexivity|]. exists 0.
        split; [reflexivity|]. split; [exact Hd|]. intros m Hm. lia.
      * rewrite ancestor_S in Hroot.
        destruct (IH fuel (parent fs current) Hroot) as (r & Hr & Hspec);
          [lia|].
        exists r. split; [exact Hr|]. destruct r as [root|].
        -- destruct Hspec as (n & Hn & Hdir & Hmin). exists (S n).
           rewrite ancestor_S. split; [exact Hn|]. split; [exact Hdir|].
           intros [|m] Hm; [exact Hd|]. rewrite ancestor_S. apply Hmin. lia.
        -- intros [|n]; [exact Hd|]. rewrite ancestor_S. apply Hspec.
Qed.

(** X15.  [_find_vectors_hnsw] returns the vector file of the nearest
    directory that holds one among the ten directories starting at the
    index file's directory and going up; it returns [None] exactly when
    none of these ten holds the file (stopping at the root loses
    nothing). *)
Theorem find_vectors_hnsw_nearest (fs : PathOps) (index_path : Path) :
  match find_vectors_hnsw fs index_path with
  | Some found =>
      exists n, n < 10 /\
        found = join fs (ancestor fs (S n) index_path) VECTORS_HNSW_NAME /\
        exists_ fs found = true /\
        forall m, m < n ->
          exists_ fs (join fs (ancestor fs (S m) index_path) VECTORS_HNSW_NAME)
          = false
  | None =>
      forall n, n < 10 ->
        exists_ fs (join fs (ancestor fs (S n) index_path) VECTORS_HNSW_NAME)
        = false
  end.
Proof.
  unfold find_vectors_hnsw.
  pose proof (find_in_ancestors_spec fs VECTORS_HNSW_NAME 10
                (parent fs index_path)) as H.
  destruct (find_in_ancestors fs VECTORS_HNSW_NAME 10 (parent fs index_path)).
  - destruct H as (n & Hn & Hf & Hex & Hmin). exists n.
    rewrite ancestor_S. split; [exact Hn|]. split; [exact Hf|].
    split; [exact Hex|]. intros m Hm. rewrite ancestor_S. apply Hmin, Hm.
  - intros n Hn. rewrite ancestor_S. apply H, Hn.
Qed.

Example find_vectors_hnsw_sample :
  find_vectors_hnsw sample_fs "/p/src/pkg/_index.db" =
    Some "/p/_vectors.hnsw"%string /\
  find_splade_db sample_fs "/p/src/pkg/_index.db" = None.
Proof. split; reflexivity. Qed.

(** X16.  [find_workspace_root] ends once the root of the file system is
    reached, and returns the nearest directory, starting at the resolved
    start path itself and going up to the root, that holds a [.codexlens]
    directory; it returns [None] exactly when no such directory exists. *)
Theorem find_workspace_root_nearest (fs : PathOps) (fuel depth : nat)
    (start_path : Path) :
  parent fs (ancestor fs depth (resolve fs start_path)) =
    ancestor fs depth (resolve fs start_path) ->
  depth < fuel ->
  exists r, find_workspace_root fs fuel start_path = Some r /\
    match r with
    | Some root =>
        exists n, root = ancestor fs n (resolve fs start_path) /\
          is_dir fs (join fs root WORKSPACE_DIR_NAME) = true /\
          forall m, m < n ->
            is_dir fs (join fs (ancestor fs m (resolve fs start_path))
                         WORKSPACE_DIR_NAME) = false
    | None =>
        forall n,
          is_dir fs (join fs (ancestor fs n (resolve fs start_path))
                       WORKSPACE_DIR_NAME) = false
    end.
Proof.
  intros Hroot Hfuel. unfold find_workspace_root.
  apply (find_workspace_loop_spec fs depth); assumption.
Qed.

Lemma find_workspace_root_nearest_witness :
  parent sample_fs (ancestor sample_fs 3 (resolve sample_fs "/p/src/pkg")) =
    ancestor sample_fs 3 (resolve sample_fs "/p/src/pkg") /\
  3 < 5 /\
  exists r, find_workspace_root sample_fs 5 "/p/src/pkg" = Some r.
Proof.
  assert (Hfuel : 3 < 5) by lia.
  split; [reflexivity|]. split; [exact Hfuel|].
  destruct (find_workspace_root_nearest sample_fs 5 3 "/p/src/pkg"
              eq_refl Hfuel) as (r & Hr & _).
  exists r. exact Hr.
Defined.

Example find_workspace_root_sample :
  find_workspace_root sample_fs 5 "/p/src/pkg" = Some (Some "/p"%string).
Proof. reflexivity. Qed.

End AncestorSearch.

(** ** The debounced event queue of the file watcher
    ([codexlens/watcher/file_watcher.py], [codexlens/watcher/events.py]) *)

Module Watcher.
Local Open Scope list_scope.
Local Open Scope Z_scope.

Inductive ChangeType := CREATED | MODIFIED | DELETED | MOVED.

(** [FileEvent]. *)
Record FileEvent := {
  path : string;
  change_type : ChangeType;
  timestamp : Q;
  old_path : option string
}.

(** [PendingQueueStatus]. *)
Record PendingQueueStatus := {
  file_count : Z;
  files : list string;
  countdown_seconds : Z;
  status_last_event_time : option Q
}.

Definition MAX_QUEUE_SIZE : Z := 50000.

(** The fields of a [FileWatcher] the queue logic reads and writes:
    [flush_timer] tells whether [self._flush_timer] holds a timer, and
    [delivered] lists the batches passed to [on_changes], oldest first. *)
Record State := {
  event_queue : list FileEvent;
  flush_timer : bool;
  last_event_time : Q;
  delivered : list (list FileEvent)
}.

(** The state [__init__] sets up. *)
Definition initial : State :=
  {| event_queue := []; flush_timer := false; last_event_time := 0;
     delivered := [] |}.

(** [deduped[event.path] = event] for every queued event, then
    [list(deduped.values())]. *)
Definition dedupe_put (deduped : list (string * FileEvent))
    (event : FileEvent) : list (string * FileEvent) :=
  Py.dict_set String.eqb deduped (path event) event.

Definition dedupe_events (queue : list FileEvent) : list FileEvent :=
  snd <$> fold_left dedupe_put queue [].

(** [_flush_events]; an exception of [on_changes] is logged and
    changes nothing. *)
Definition flush_events (st : State) : State :=
  match event_queue st with
  | [] => st
  | _ :: _ =>
      {| event_queue := [];
         flush_timer := flush_timer st;
         last_event_time := 0;
         delivered := delivered st ++ [dedupe_events (event_queue st)] |}
  end.

(** [flush_now]. *)
Definition flush_now (st : State) : State :=
  flush_events
    {| event_queue := event_queue st;
       flush_timer := false;
       last_event_time := last_event_time st;
       delivered := delivered st |}.

(** [_on_raw_event], called at time [now]. *)
Definition on_raw_event (st : State) (event : FileEvent) (now : Q) : State :=
  let force_flush := Z.of_nat (length (event_queue st)) >=? MAX_QUEUE_SIZE in
  let st' :=
    {| event_queue := event_queue st ++ [event];
       flush_timer := if force_flush then false else true;
       last_event_time := now;
       delivered := delivered st |} in
  if force_flush then flush_events st' else st'.

(** [int(x)] for a float: truncation towards zero. *)
Definition int_of_float (x : Q) : Z := Z.quot (Qnum x) (Zpos (Qden x)).

(** [get_pending_queue_status], called at time [now]; [name_of] is
    [Path.name] and [debounce_ms] the configured delay. *)
Definition get_pending_queue_status (name_of : string -> string)
    (debounce_ms : Z) (st : State) (now : Q) : PendingQueueStatus :=
  let count := Z.of_nat (length (event_queue st)) in
  {| file_count := count;
     files := (fun e => name_of (path e)) <$> Py.slice (event_queue st) 0 20;
     countdown_seconds :=
       if negb (Qle_bool (last_event_time st) 0) && (count >? 0) then
         let elapsed := (now - last_event_time st)%Q in
         let remaining :=
           Py.max 0 (inject_Z debounce_ms / 1000 - elapsed)%Q in
         int_of_float remaining
       else 0;
     status_last_event_time :=
       if count >? 0 then Some (last_event_time st) else None |}.

(** What happens to a watcher, one call at a time. *)
Inductive Op :=
| RawEvent (event : FileEvent) (now : Q)
| TimerFires
| FlushNow.

Definition step (st : State) (op : Op) : State :=
  match op with
  | RawEvent event now => on_raw_event st event now
  | TimerFires => flush_events st
  | FlushNow => flush_now st
  end.

Definition run (ops : list Op) : State := fold_left step ops initial.

(** Vocabulary: [e] is the last event of its path in [queue]. *)
Definition last_of_path (queue : list FileEvent) (e : FileEvent) : Prop :=
  exists pre post, queue = pre ++ e :: post /\ path e ∉ path <$> post.

(** A path is accounted for when it is queued or was delivered. *)
Definition known (st : State) (p : string) : Prop :=
  p ∈ path <$> event_queue st \/
  exists batch, batch ∈ delivered st /\ p ∈ path <$> batch.

Definition sample_event (p : string) (c : ChangeType) (t : Q) : FileEvent :=
  {| path := p; change_type := c; timestamp := t; old_path := None |}.

(** *** Facts *)

Lemma dedupe_events_fold_inv (queue : list FileEvent) :
  forall done deduped,
  NoDup (fst <$> deduped) ->
  (forall p e, (p, e) ∈ deduped <-> path e = p /\ last_of_path done e) ->
  let d := fold_left dedupe_put queue deduped in
  NoDup (fst <$> d) /\
  (forall p e, (p, e) ∈ d <-> path e = p /\ last_of_path (done ++ queue) e).
Proof.
  induction queue as [|x queue IH]; intros done deduped Hnd Hinv;
    cbn [fold_left].
  - rewrite app_nil_r. split; assumption.
  - replace (done ++ x :: queue) with ((done ++ [x]) ++ queue)
      by (rewrite <- app_assoc; reflexivity).
    apply IH.
    + apply (Py.dict_set_NoDup _ ChainSearch.string_eqb_eq), Hnd.
    + intros p e. unfold dedupe_put. split.
      * intros Hin.
        destruct (Py.dict_set_elem_of _ ChainSearch.string_eqb_eq
                    _ _ _ _ _ Hnd Hin) as [[-> ->]|[Hne Hin']].
        -- split; [reflexivity|]. exists done, []. split; [reflexivity|].
           cbn. apply not_elem_of_nil.
        -- apply Hinv in Hin' as [Hp (pre & post & -> & Hlast)].
           split; [exact Hp|]. exists pre, (post ++ [x]).
           split; [rewrite <- app_assoc; reflexivity|].
           rewrite fmap_app. intros H. apply elem_of_app in H as [H|H];
             [contradiction|].
           cbn in H. apply list_elem_of_singleton in H. congruence.
      * intros [Hp (pre & post & Heq & Hlast)].
        destruct post as [|y post _] using rev_ind.
        -- apply app_inj_tail in Heq as [_ ->]. subst p.
           apply (Py.dict_set_elem_of_same _ ChainSearch.string_eqb_eq).
        -- rewrite app_comm_cons, app_assoc in Heq.
           apply app_inj_tail in Heq as [Heq ->].
           rewrite fmap_app in Hlast.
           apply not_elem_of_app in Hlast as [Hpost Hy]. cbn in Hy.
           rewrite list_elem_of_singleton in Hy.
           apply (Py.dict_set_elem_of_other _ ChainSearch.string_eqb_eq).
           { congruence. }
           apply Hinv. split; [exact Hp|]. exists pre, post.
           split; [exact Heq|exact Hpost].
Qed.

Lemma dedupe_events_facts (queue : list FileEvent) :
  NoDup (path <$> dedupe_events queue) /\
  forall e, e ∈ dedupe_events queue <-> last_of_path queue e.
Proof.
  unfold dedupe_events.
  destruct (dedupe_events_fold_inv queue [] []) as [Hnd Hinv].
  { constructor. }
  { intros p e. split; [intros H; inversion H|].
    intros [_ (pre & post & H & _)]. destruct pre; discriminate. }
  cbn [app] in Hinv.
  set (d := fold_left dedupe_put queue []) in *.
  assert (Hpath : path <$> (snd <$> d) = fst <$> d).
  { rewrite <- list_fmap_compose. apply list_fmap_ext.
    intros i [p e] Hi. cbn. apply list_elem_of_lookup_2 in Hi.
    apply Hinv in Hi as [Hp _]. exact Hp. }
  split; [rewrite Hpath; exact Hnd|].
  intros e. rewrite list_elem_of_fmap. split.
  - intros ([p e'] & -> & Hin). apply Hinv in Hin as [_ H]. exact H.
  - intros H. exists (path e, e). split; [reflexivity|].
    apply Hinv. split; [reflexivity|exact H].
Qed.

Lemma last_of_path_elem_of queue e : last_of_path queue e -> e ∈ queue.
Proof.
  intros (pre & post & -> & _). apply elem_of_app. right. left.
Qed.

Lemma last_of_path_exists queue p :
  p ∈ path <$> queue -> exists e, path e = p /\ last_of_path queue e.
Proof.
  induction queue as [|x queue IH] using rev_ind; [intros H; inversion H|].
  rewrite fmap_app. intros H. destruct (decide (path x = p)) as [Hx|Hx].
  - exists x. split; [exact Hx|]. exists queue, []. split; [reflexivity|].
    cbn. apply not_elem_of_nil.
  - apply elem_of_app in H as [H|H].
    + destruct (IH H) as (e & He & pre & post & -> & Hlast).
      exists e. split; [exact He|]. exists pre, (post ++ [x]).
      split; [rewrite <- app_assoc; reflexivity|].
      rewrite fmap_app. intros H'. apply elem_of_app in H' as [H'|H'];
        [contradiction|].
      cbn in H'. apply list_elem_of_singleton in H'. congruence.
    + cbn in H. apply list_elem_of_singleton in H. congruence.
Qed.

Lemma flush_events_queue st : event_queue (flush_events st) = [].
Proof.
  unfold flush_events. destruct (event_queue st) eqn:E; [exact E|reflexivity].
Qed.

Lemma step_queue_bound st op :
  Z.of_nat (length (event_queue st)) <= MAX_QUEUE_SIZE ->
  Z.of_nat (length (event_queue (step st op))) <= MAX_QUEUE_SIZE.
Proof.
  intros Hb. destruct op as [event now| |]; cbn [step].
  - unfold on_raw_event.
    destruct (Z.geb_spec (Z.of_nat (length (event_queue st))) MAX_QUEUE_SIZE)
      as [Hfull|Hroom].
    + rewrite flush_events_queue. cbn. unfold MAX_QUEUE_SIZE. lia.
    + cbn [event_queue]. rewrite length_app. cbn [length]. lia.
  - rewrite flush_events_queue. cbn. unfold MAX_QUEUE_SIZE. lia.
  - unfold flush_now. rewrite flush_events_queue. cbn.
    unfold MAX_QUEUE_SIZE. lia.
Qed.

Lemma flush_events_known st p : known st p -> known (flush_events st) p.
Proof.
  unfold flush_events. destruct (event_queue st) as [|x q] eqn:E;
    [auto|].
  intros [Hq|(batch & Hb & Hp)]; right; cbn [delivered].
  - exists (dedupe_events (x :: q)).
    split; [apply elem_of_app; right; left|].
    rewrite E in Hq. destruct (last_of_path_exists _ _ Hq) as (e & He & Hl).
    apply list_elem_of_fmap. exists e. split; [auto|].
    apply dedupe_events_facts, Hl.
  - exists batch. split; [apply elem_of_app; left; exact Hb|exact Hp].
Qed.

Lemma step_known st op p : known st p -> known (step st op) p.
Proof.
  intros Hk. destruct op as [event now| |]; cbn [step].
  - unfold on_raw_event.
    assert (Hk' : forall t,
              known {| event_queue := event_queue st ++ [event];
                       flush_timer := t; last_event_time := now;
                       delivered := delivered st |} p).
    { intros t. destruct Hk as [Hq|Hd]; [left|right; exact Hd].
      cbn. rewrite fmap_app. apply elem_of_app. left. exact Hq. }
    destruct (Z.of_nat (length (event_queue st)) >=? MAX_QUEUE_SIZE);
      [apply flush_events_known|]; apply Hk'.
  - apply flush_events_known, Hk.
  - unfold flush_now. apply flush_events_known. exact Hk.
Qed.

Lemma run_known_mono ops : forall st p,
  known st p -> known (fold_left step ops st) p.
Proof.
  induction ops as [|op ops IH]; intros st p Hk; cbn; [exact Hk|].
  apply IH, step_known, Hk.
Qed.

Lemma on_raw_event_known st event now :
  known (on_raw_event st event now) (path event).
Proof.
  unfold on_raw_event.
  assert (Hk : forall t,
            known {| event_queue := event_queue st ++ [event];
                     flush_timer := t; last_event_time := now;
                     delivered := delivered st |} (path event)).
  { intros t. left. cbn. rewrite fmap_app. apply elem_of_app. right. left. }
  destruct (Z.of_nat (length (event_queue st)) >=? MAX_QUEUE_SIZE);
    [apply flush_events_known|]; apply Hk.
Qed.

(** The events of a state all come from the raw events in [seen]. *)
Definition from_raw (seen : list Op) (st : State) : Prop :=
  (forall e, e ∈ event_queue st -> exists now, RawEvent e now ∈ seen) /\
  (forall batch e, batch ∈ delivered st -> e ∈ batch ->
     exists now, RawEvent e now ∈ seen).

Lemma flush_events_from_raw seen st :
  from_raw seen st -> from_raw seen (flush_events st).
Proof.
  intros [Hq Hd]. unfold flush_events.
  destruct (event_queue st) as [|x q] eqn:E.
  - split; [rewrite E; exact Hq|exact Hd].
  - split; [intros e H; inversion H|]. cbn [delivered].
    intros b e Hb He. apply elem_of_app in Hb as [Hb|Hb]; [eauto|].
    apply list_elem_of_singleton in Hb. subst b.
    apply dedupe_events_facts, last_of_path_elem_of in He. apply Hq, He.
Qed.

Lemma from_raw_weaken seen op st :
  from_raw seen st -> from_raw (seen ++ [op]) st.
Proof.
  intros [Hq Hd]. split.
  - intros e He. destruct (Hq e He) as [now Hn]. exists now.
    apply elem_of_app. left. exact Hn.
  - intros b e Hb He. destruct (Hd b e Hb He) as [now Hn]. exists now.
    apply elem_of_app. left. exact Hn.
Qed.

Lemma step_from_raw seen st op :
  from_raw seen st -> from_raw (seen ++ [op]) (step st op).
Proof.
  intros Hst. pose proof (from_raw_weaken seen op st Hst) as Hw.
  destruct op as [event now| |]; cbn [step].
  - unfold on_raw_event.
    assert (Hq2 : forall t,
              from_raw (seen ++ [RawEvent event now])
                {| event_queue := event_queue st ++ [event];
                   flush_timer := t; last_event_time := now;
                   delivered := delivered st |}).
    { intros t. destruct Hw as [Hq Hd]. split; [|exact Hd].
      intros e He. cbn in He. apply elem_of_app in He as [He|He].
      - apply Hq, He.
      - apply list_elem_of_singleton in He. subst e. exists now.
        apply elem_of_app. right. left. }
    destruct (Z.of_nat (length (event_queue st)) >=? MAX_QUEUE_SIZE);
      [apply flush_events_from_raw|]; apply Hq2.
  - apply flush_events_from_raw, Hw.
  - unfold flush_now. apply flush_events_from_raw.
    destruct Hw as [Hq Hd]. split; assumption.
Qed.

Lemma run_from_raw ops : forall seen st,
  from_raw seen st -> from_raw (seen ++ ops) (fold_left step ops st).
Proof.
  induction ops as [|op ops IH]; intros seen st Hst; cbn [fold_left].
  - rewrite app_nil_r. exact Hst.
  - replace (seen ++ op :: ops) with ((seen ++ [op]) ++ ops)
      by (rewrite <- app_assoc; reflexivity).
    apply IH, step_from_raw, Hst.
Qed.

(** X17.  [_flush_events] empties the queue.  On an empty queue it does
    nothing; otherwise it passes one batch to [on_changes] that holds
    exactly one event per queued path, namely the last event queued for
    that path. *)
Theorem flush_events_dedupes (st : State) :
  event_queue (flush_events st) = [] /\
  (event_queue st = [] -> flush_events st = st) /\
  (event_queue st <> [] ->
   exists batch,
     delivered (flush_events st) = delivered st ++ [batch] /\
     NoDup (path <$> batch) /\
     (forall e, e ∈ batch <-> last_of_path (event_queue st) e) /\
     (forall p, p ∈ path <$> event_queue st -> p ∈ path <$> batch)).
Proof.
  split; [apply flush_events_queue|]. unfold flush_events.
  destruct (event_queue st) as [|x q] eqn:E.
  - split; [reflexivity|]. intros H. contradiction.
  - split; [discriminate|]. intros _.
    exists (dedupe_events (x :: q)). cbn [delivered].
    destruct (dedupe_events_facts (x :: q)) as [Hnd Hiff].
    split; [reflexivity|]. split; [exact Hnd|]. split; [exact Hiff|].
    intros p Hp. destruct (last_of_path_exists _ _ Hp) as (e & He & Hl).
    apply list_elem_of_fmap. exists e. split; [auto|]. apply Hiff, Hl.
Qed.

(** X18.  The queue is bounded: after any sequence of raw events, timer
    expiries and manual flushes, it holds at most [MAX_QUEUE_SIZE]
    events. *)
Theorem queue_never_exceeds_limit (ops : list Op) :
  Z.of_nat (length (event_queue (run ops))) <= MAX_QUEUE_SIZE.
Proof.
  unfold run.
  assert (H : forall st,
            Z.of_nat (length (event_queue st)) <= MAX_QUEUE_SIZE ->
            Z.of_nat (length (event_queue (fold_left step ops st)))
              <= MAX_QUEUE_SIZE).
  { induction ops as [|op ops IH]; intros st Hb; cbn; [exact Hb|].
    apply IH, step_queue_bound, Hb. }
  apply H. cbn. unfold MAX_QUEUE_SIZE. lia.
Qed.

(** X19.  No change is lost and none is invented: after any sequence of
    calls, the path of every raw event received is either still in the
    queue or in a batch that was passed to [on_changes], and every
    delivered event is one of the raw events received. *)
Theorem no_event_lost (ops : list Op) :
  (forall event now, RawEvent event now ∈ ops ->
     path event ∈ path <$> event_queue (run ops) \/
     exists batch, batch ∈ delivered (run ops) /\ path event ∈ path <$> batch)
  /\
  (forall batch e, batch ∈ delivered (run ops) -> e ∈ batch ->
     exists now, RawEvent e now ∈ ops).
Proof.
  split.
  - intros event now Hin. apply list_elem_of_split in Hin as (pre & post & ->).
    unfold run. rewrite fold_left_app. cbn [fold_left step].
    apply run_known_mono, on_raw_event_known.
  - apply (run_from_raw ops [] initial).
    split; [intros e H; inversion H|intros b e H; inversion H].
Qed.

(** X20.  The status shown for the queue lists at most twenty file
    names and a countdown that is never negative; right after a flush it
    reports an empty queue, no countdown and no last event time, whatever
    the clock says. *)
Theorem pending_status_bounds (name_of : string -> string) (debounce_ms : Z)
    (st : State) (now : Q) :
  (length (files (get_pending_queue_status name_of debounce_ms st now))
     <= 20)%nat /\
  0 <= countdown_seconds (get_pending_queue_status name_of debounce_ms st now)
  /\
  get_pending_queue_status name_of debounce_ms (flush_events st) now =
    {| file_count := 0; files := []; countdown_seconds := 0;
       status_last_event_time := None |}.
Proof.
  split; [|split].
  - cbn [get_pending_queue_status files]. rewrite length_fmap.
    unfold Py.slice. rewrite length_take. unfold Py.clamp_index. cbn. lia.
  - cbn [get_pending_queue_status countdown_seconds].
    destruct (negb _ && _); [|lia].
    unfold int_of_float.
    match goal with |- 0 <= Qnum ?q ÷ _ => set (r := q) end.
    assert (Hr : (0 <= r)%Q) by apply Py.max_ge_l.
    apply Z.quot_pos; [|lia]. unfold Qle in Hr. cbn in Hr. lia.
  - unfold get_pending_queue_status. rewrite flush_events_queue.
    cbn. rewrite andb_false_r. reflexivity.
Qed.

End Watcher.

(** ** The index history of the watcher manager
    ([codexlens/watcher/manager.py]) *)

Module WatcherManager.
Import ChainSearch (Try, Ok, Exc).
Local Open Scope list_scope.
Local Open Scope Z_scope.

(** [IndexResult]. *)
Record IndexResult := {
  files_indexed : Z;
  files_removed : Z;
  symbols_added : Z;
  symbols_removed : Z;
  files_success : list string;
  files_failed : list string;
  errors : list string;
  timestamp : Q
}.

(** The fields of a [WatcherManager] that [_handle_changes] updates;
    [printed] lists the [result_data] of the [[INDEX_RESULT]] lines written
    to the standard output. *)
Record State := {
  index_history : list IndexResult;
  events_processed : Z;
  last_event_time : option Q;
  printed : list IndexResult
}.

Definition max_history_size : Z := 10.

(** The state [__init__] sets up. *)
Definition initial : State :=
  {| index_history := []; events_processed := 0; last_event_time := None;
     printed := [] |}.

(** The dictionary [result_data]. *)
Definition result_data (result : IndexResult) : IndexResult :=
  {| files_indexed := files_indexed result;
     files_removed := files_removed result;
     symbols_added := symbols_added result;
     symbols_removed := symbols_removed result;
     files_success := Py.slice (files_success result) 0 20;
     files_failed := Py.slice (files_failed result) 0 20;
     errors := Py.slice (errors result) 0 10;
     timestamp := timestamp result |}.

(** [_index_history.append(result)] followed by the [pop(0)] that keeps
    the history short. *)
Definition remember (history : list IndexResult) (result : IndexResult)
    : list IndexResult :=
  let history' := history ++ [result] in
  if Z.of_nat (length history') >? max_history_size
  then drop 1 history' else history'.

(** [_handle_changes], called at time [now] with [len(events)] events;
    [indexer] is [None] when [self._indexer] is, and [result] is what
    [process_changes] returns for the events.  An exception of
    [process_changes] leaves before any update; one of [on_indexed] is
    logged. *)
Definition handle_changes (indexer : bool) (st : State) (n_events : nat)
    (result : Try IndexResult) (now : Q) : State :=
  if negb indexer || (n_events =? 0)%nat then st
  else
    match result with
    | Exc _ => st
    | Ok r =>
        {| index_history := remember (index_history st) r;
           events_processed := events_processed st + Z.of_nat n_events;
           last_event_time := Some now;
           printed := printed st ++ [result_data r] |}
    end.

(** [get_index_history]: [self._index_history[-limit:]]. *)
Definition get_index_history (st : State) (limit : Z) : list IndexResult :=
  Py.slice (index_history st) (- limit)
    (Z.of_nat (length (index_history st))).

(** A call of [_handle_changes] on a started manager. *)
Record Call := {
  n_events : nat;
  outcome : Try IndexResult;
  at_time : Q
}.

Definition run (calls : list Call) : State :=
  fold_left (fun st c => handle_changes true st (n_events c) (outcome c)
                           (at_time c))
    calls initial.

(** Vocabulary: the results of the calls that were processed, and the
    number of their events. *)
Definition processed (c : Call) : option (nat * IndexResult) :=
  if (n_events c =? 0)%nat then None
  else match outcome c with
       | Ok r => Some (n_events c, r)
       | Exc _ => None
       end.

Definition results_of (calls : list Call) : list IndexResult :=
  snd <$> omap processed calls.

Definition events_of (calls : list Call) : Z :=
  foldr (fun p acc => Z.of_nat (fst p) + acc) 0 (omap processed calls).

Definition sample_result (n : Z) : IndexResult :=
  {| files_indexed := n; files_removed := 0; symbols_added := 0;
     symbols_removed := 0; files_success := []; files_failed := [];
     errors := []; timestamp := 0 |}.

(** *** Facts *)

Lemma remember_last (results : list IndexResult) (r : IndexResult) :
  remember (drop (length results - 10) results) r =
  drop (length (results ++ [r]) - 10) (results ++ [r]).
Proof.
  unfold remember, max_history_size.
  rewrite !length_app, length_drop. cbn [length].
  destruct (Nat.lt_ge_cases (length results) 10) as [Hshort|Hlong].
  - replace (length results - 10)%nat with 0%nat by lia.
    replace (length results + 1 - 10)%nat with 0%nat by lia.
    cbn [drop]. destruct (Z.gtb_spec (Z.of_nat (length results - 0 + 1)) 10);
      [lia|reflexivity].
  - destruct (Z.gtb_spec
                (Z.of_nat (length results - (length results - 10) + 1)) 10);
      [|lia].
    rewrite drop_app_le by (rewrite length_drop; lia).
    rewrite drop_drop.
    rewrite drop_app_le by lia.
    do 2 f_equal. lia.
Qed.

Lemma run_snoc calls c :
  run (calls ++ [c]) =
  handle_changes true (run calls) (n_events c) (outcome c) (at_time c).
Proof. unfold run. rewrite fold_left_app. reflexivity. Qed.

Lemma results_of_snoc calls c :
  results_of (calls ++ [c]) =
  results_of calls ++
  match processed c with Some p => [snd p] | None => [] end.
Proof.
  unfold results_of. rewrite omap_app, fmap_app. f_equal. cbn.
  destruct (processed c); reflexivity.
Qed.

Lemma events_of_snoc calls c :
  events_of (calls ++ [c]) =
  events_of calls +
  match processed c with Some p => Z.of_nat (fst p) | None => 0 end.
Proof.
  unfold events_of. rewrite omap_app, foldr_app. cbn [omap list_omap].
  generalize (omap processed calls) as l. intros l.
  destruct (processed c) as [p|]; cbn [foldr].
  - induction l as [|x l IH]; cbn [foldr]; [lia|]. rewrite IH. lia.
  - lia.
Qed.

Lemma run_history calls :
  index_history (run calls) =
    drop (length (results_of calls) - 10) (results_of calls) /\
  events_processed (run calls) = events_of calls.
Proof.
  induction calls as [|c calls [IHh IHe]] using rev_ind; [split; reflexivity|].
  rewrite run_snoc, results_of_snoc, events_of_snoc.
  unfold handle_changes, processed. cbn [negb orb].
  destruct (n_events c =? 0)%nat.
  - rewrite app_nil_r. split; [exact IHh|lia].
  - destruct (outcome c) as [r|e].
    + cbn [index_history events_processed fst snd]. rewrite IHh, IHe.
      split; [apply remember_last|reflexivity].
    + rewrite app_nil_r. split; [exact IHh|lia].
Qed.

(** X21.  After any sequence of [_handle_changes] calls on a started
    manager, the history holds the results of the processed calls (those
    with events whose indexing did not raise), oldest first, cut to the
    ten most recent; and [events_processed] is the number of events of
    these calls. *)
Theorem index_history_keeps_last_ten (calls : list Call) :
  index_history (run calls) =
    drop (length (results_of calls) - 10) (results_of calls) /\
  (length (index_history (run calls)) <= 10)%nat /\
  events_processed (run calls) = events_of calls.
Proof.
  destruct (run_history calls) as [Hh He].
  split; [exact Hh|]. split; [|exact He].
  rewrite Hh, length_drop. lia.
Qed.

(** X22.  [get_index_history(limit)] returns the [limit] most recent
    results (all of them when there are fewer) for [limit >= 1]; but for
    [limit = 0] it returns the whole history, and for a negative [limit]
    the history without its [-limit] oldest results. *)
Theorem get_index_history_slices (st : State) (limit : Z) :
  (1 <= limit ->
   get_index_history st limit =
   drop (length (index_history st) - Z.to_nat limit) (index_history st)) /\
  (limit = 0 -> get_index_history st limit = index_history st) /\
  (limit < 0 ->
   get_index_history st limit = drop (Z.to_nat (- limit)) (index_history st)).
Proof.
  unfold get_index_history, Py.slice, Py.clamp_index.
  set (l := index_history st). set (n := Z.of_nat (length l)).
  assert (Hstop : (if n <? 0 then Z.max (n + n) 0 else Z.min n n) = n).
  { destruct (Z.ltb_spec n 0); lia. }
  rewrite Hstop.
  assert (Hall : forall s : Z, 0 <= s ->
            firstn (Z.to_nat (n - s)) (skipn (Z.to_nat s) l) =
            skipn (Z.to_nat s) l).
  { intros s Hs. apply firstn_all2. rewrite length_skipn. lia. }
  split; [|split].
  - intros Hl. destruct (Z.ltb_spec (- limit) 0); [|lia].
    rewrite Hall by lia. f_equal. lia.
  - intros ->. change (- 0) with 0. destruct (Z.ltb_spec 0 0); [lia|].
    rewrite Hall by lia. rewrite Z.min_l by lia. reflexivity.
  - intros Hl. destruct (Z.ltb_spec (- limit) 0); [lia|].
    rewrite Hall by lia.
    destruct (Z.min_spec (- limit) n) as [[H1 ->]|[H1 ->]]; [reflexivity|].
    unfold n. rewrite Nat2Z.id. rewrite !drop_ge by lia. reflexivity.
Qed.

Example get_index_history_zero_sample :
  let st := run [{| n_events := 1; outcome := Ok (sample_result 1);
                    at_time := 1 |};
                 {| n_events := 2; outcome := Ok (sample_result 2);
                    at_time := 2 |}] in
  get_index_history st 1 = [sample_result 2] /\
  get_index_history st 0 = [sample_result 1; sample_result 2] /\
  events_processed st = 3.
Proof. cbv zeta. split; [reflexivity|]. split; reflexivity. Qed.

End WatcherManager.
